(** * weppy.cache: a shallow embedding of [weppy/cache.py]

    The development follows the source file top to bottom:
    - [Py]: the pieces of the Python runtime the module relies on
      (exceptions, values and [repr], tuple ordering, [list.remove],
      the [heapq] array heap, [sorted], [int]/[str] conversions, SHA-1);
    - [CacheHashMixin]: the fingerprint builder;
    - [CacheHandler]: duration normalisation and [get_or_set];
    - [RamCache], [DiskCache], [RedisCache]: the three backends.

    Conventions.  Timestamps and durations are integers ([Z], a fixed
    tick of the wall clock); every call of [time.time()] in the source is
    an explicit argument of the embedded operation.  Text and byte strings
    are both [string] (8-bit characters, ASCII text encodes to itself).
    Python exceptions are values of [exn]; code that mutates [self] and may
    raise lives in the state-and-exception monad [M]. *)

From Stdlib Require Import ZArith Ascii String List Lia.
From Stdlib Require Import DecimalString DecimalPos.
From stdpp Require Import base option list gmap strings sorting.

Set Warnings "-register-all".

(** ** Python runtime *)

Module Py.

(** Exception classes that occur in the module (all derive from
    [Exception]). *)
Inductive exn : Set :=
  | KeyError | ValueError | IndexError | TypeError
  | OSError | PickleError | DataError | ResponseError.

#[global] Instance exn_eq_dec : EqDecision exn.
Proof. solve_decision. Defined.

Inductive res (A : Type) : Type :=
  | Ret (a : A)
  | Raise (e : exn).
Arguments Ret {A} a.
Arguments Raise {A} e.

#[global] Instance res_eq_dec {A} `{EqDecision A} : EqDecision (res A).
Proof. solve_decision. Defined.

(** State-and-exception monad: the state reached when an exception is
    raised is kept, as in-place mutations made before a [raise] are. *)
Definition M (S A : Type) : Type := S → res A * S.

Definition ret {S A} (a : A) : M S A := λ s, (Ret a, s).
Definition raise {S A} (e : exn) : M S A := λ s, (Raise e, s).
Definition bind {S A B} (m : M S A) (k : A → M S B) : M S B :=
  λ s, match m s with
       | (Ret a, s') => k a s'
       | (Raise e, s') => (Raise e, s')
       end.
Definition gets {S A} (f : S → A) : M S A := λ s, (Ret (f s), s).
Definition modify {S} (f : S → S) : M S unit := λ s, (Ret tt, f s).
Definition lift {S A} (r : res A) : M S A := λ s, (r, s).

(** [try: body except <classes caught by handler>: ...] *)
Definition try_except {S A} (body : M S A) (handler : exn → M S A) : M S A :=
  λ s, match body s with
       | (Ret a, s') => (Ret a, s')
       | (Raise e, s') => handler e s'
       end.

#[global] Instance M_ret {S} : MRet (M S) := λ A, @ret S A.
#[global] Instance M_bind {S} : MBind (M S) := λ A B k m, bind m k.

Definition run {S A} (m : M S A) (s : S) : res A * S := m s.
Definition exec {S A} (m : M S A) (s : S) : S := (m s).2.
Definition eval {S A} (m : M S A) (s : S) : res A := (m s).1.

(** Values that travel through the cache.  A [PDict] is an association
    list in insertion order (keys are strings and pairwise distinct). *)
Inductive pyobj : Type :=
  | PNone
  | PBool (b : bool)
  | PInt (z : Z)
  | PStr (s : string)
  | PTuple (l : list pyobj)
  | PList (l : list pyobj)
  | PDict (l : list (string * pyobj)).

(** [o is None] *)
Definition is_none (o : pyobj) : bool :=
  match o with PNone => true | _ => false end.

(** [a < b] on [(timestamp, key)] tuples: first differing component. *)
Definition tuple_lt (a b : Z * string) : bool :=
  if (a.1 =? b.1)%Z then String.ltb a.2 b.2 else (a.1 <? b.1)%Z.

(** [list.remove(x)]: drop the first occurrence, [ValueError] if none. *)
Fixpoint list_remove `{EqDecision A} (x : A) (l : list A) : res (list A) :=
  match l with
  | [] => Raise ValueError
  | y :: l' =>
      if decide (y = x) then Ret l'
      else match list_remove x l' with
           | Ret r => Ret (y :: r)
           | Raise e => Raise e
           end
  end.

(** *** heapq *)
Section heapq.
Context {T : Type} (lt : T → T → bool).

Fixpoint _siftdown_loop (fuel : nat) (heap : list T) (startpos pos : nat)
    (newitem : T) : list T :=
  match fuel with
  | O => <[pos := newitem]> heap
  | S fuel' =>
      if Nat.ltb startpos pos then
        let parentpos := Nat.div2 (pos - 1) in
        match heap !! parentpos with
        | Some parent =>
            if lt newitem parent
            then _siftdown_loop fuel' (<[pos := parent]> heap)
                   startpos parentpos newitem
            else <[pos := newitem]> heap
        | None => <[pos := newitem]> heap
        end
      else <[pos := newitem]> heap
  end.

Definition _siftdown (heap : list T) (startpos pos : nat) : list T :=
  match heap !! pos with
  | Some newitem => _siftdown_loop pos heap startpos pos newitem
  | None => heap
  end.

Fixpoint _siftup_loop (fuel : nat) (heap : list T) (pos : nat)
    : list T * nat :=
  match fuel with
  | O => (heap, pos)
  | S fuel' =>
      let endpos := length heap in
      let childpos := 2 * pos + 1 in
      if Nat.ltb childpos endpos then
        let rightpos := childpos + 1 in
        let childpos :=
          match heap !! childpos, heap !! rightpos with
          | Some c, Some r => if negb (lt c r) then rightpos else childpos
          | _, _ => childpos
          end in
        match heap !! childpos with
        | Some c => _siftup_loop fuel' (<[pos := c]> heap) childpos
        | None => (heap, pos)
        end
      else (heap, pos)
  end.

Definition _siftup (heap : list T) (pos : nat) : list T :=
  match heap !! pos with
  | Some newitem =>
      let '(heap', pos') := _siftup_loop (length heap) heap pos in
      _siftdown (<[pos' := newitem]> heap') pos pos'
  | None => heap
  end.

Definition heappush (heap : list T) (item : T) : list T :=
  _siftdown (heap ++ [item]) 0 (length heap).

Definition heappop (heap : list T) : res (T * list T) :=
  match last heap with
  | None => Raise IndexError
  | Some lastelt =>
      match removelast heap with
      | [] => Ret (lastelt, [])
      | returnitem :: rest =>
          Ret (returnitem, _siftup (lastelt :: rest) 0)
      end
  end.
End heapq.

#[global] Instance res_ret : MRet res := λ A, @Ret A.
#[global] Instance res_bind : MBind res :=
  λ A B k m, match m with Ret a => k a | Raise e => Raise e end.
#[global] Instance res_fmap : FMap res :=
  λ A B f m, match m with Ret a => Ret (f a) | Raise e => Raise e end.

(** [[f(x) for x in l]], stopping at the first exception *)
Fixpoint traverse {A B} (f : A → res B) (l : list A) : res (list B) :=
  match l with
  | [] => Ret []
  | x :: l' => y ← f x; ys ← traverse f l'; Ret (y :: ys)
  end.

(** *** pickle

    The serialiser is the standard library's; the cache only needs its
    interface: [pickle.dumps(obj, protocol)] and reading one object off
    the front of a byte stream, which gives the object and the rest of
    the stream or raises. *)
Inductive protocol : Set :=
  | Protocol (n : Z)
  | HIGHEST_PROTOCOL
  | DEFAULT_PROTOCOL.

Class Pickle : Type :=
  { pickle_dumps : protocol → pyobj → string;
    pickle_load : string → res (pyobj * string) }.

(** [pickle.loads(b)]: the first object, whatever follows it *)
Definition pickle_loads `{Pickle} (b : string) : res pyobj :=
  fst <$> pickle_load b.

(** *** str, int, repr *)

(** [str(z)] for an [int]: decimal digits, with ["-"] when negative. *)
Definition str_of_int (z : Z) : string :=
  NilZero.string_of_int (Z.to_int z).

Definition is_space (c : ascii) : bool :=
  let n := nat_of_ascii c in
  (n =? 32) || ((9 <=? n) && (n <=? 13)).

Fixpoint lstrip (s : string) : string :=
  match s with
  | String c s' => if is_space c then lstrip s' else s
  | EmptyString => EmptyString
  end.

Fixpoint rstrip (s : string) : string :=
  match s with
  | String c s' =>
      match rstrip s' with
      | EmptyString => if is_space c then EmptyString
                       else String c EmptyString
      | r => String c r
      end
  | EmptyString => EmptyString
  end.

Definition is_digit (c : ascii) : bool :=
  let n := nat_of_ascii c in (48 <=? n) && (n <=? 57).

Fixpoint all_digits (s : string) : bool :=
  match s with
  | String c s' => is_digit c && all_digits s'
  | EmptyString => true
  end.

Definition split_sign (s : string) : bool * string :=
  match s with
  | String "-" r => (true, r)
  | String "+" r => (false, r)
  | _ => (false, s)
  end.

(** [int(b)] on a byte string: surrounding whitespace, an optional sign
    and at least one decimal digit; anything else is a [ValueError]
    (digit-group underscores are not accepted here). *)
Definition int_of_bytes (b : string) : res Z :=
  let '(neg, digits) := split_sign (rstrip (lstrip b)) in
  match NilZero.uint_of_string digits with
  | Some d => Ret (if neg then - Z.of_uint d else Z.of_uint d)%Z
  | None => Raise ValueError
  end.

Definition hex_digit (n : N) : ascii :=
  ascii_of_N (if (n <? 10)%N then 48 + n else 87 + n).

(** One character inside [repr] of a [str] delimited by [quote]; what is
    not printable ASCII is written as a hexadecimal escape. *)
Definition repr_char (quote : ascii) (c : ascii) : string :=
  let n := N_of_ascii c in
  if Ascii.eqb c quote then String "\" (String c EmptyString)
  else if Ascii.eqb c "\" then "\\"
  else if (n =? 10)%N then "\n"
  else if (n =? 13)%N then "\r"
  else if (n =? 9)%N then "\t"
  else if ((n <? 32) || (126 <? n))%N
       then String "\" (String "x" (String (hex_digit (n / 16))
              (String (hex_digit (n mod 16)) EmptyString)))
  else String c EmptyString.

Fixpoint contains_char (c : ascii) (s : string) : bool :=
  match s with
  | String d s' => Ascii.eqb c d || contains_char c s'
  | EmptyString => false
  end.

Fixpoint repr_chars (quote : ascii) (s : string) : string :=
  match s with
  | String c s' => repr_char quote c +:+ repr_chars quote s'
  | EmptyString => EmptyString
  end.

Definition dquote : ascii := ascii_of_nat 34.

(** [repr] of a [str]: single quotes, unless the text has a single quote
    and no double quote. *)
Definition repr_str (s : string) : string :=
  let quote : ascii :=
    if contains_char "'" s && negb (contains_char dquote s)
    then dquote else "'"%char in
  String quote (repr_chars quote s +:+ String quote EmptyString).

Fixpoint repr (o : pyobj) : string :=
  match o with
  | PNone => "None"
  | PBool true => "True"
  | PBool false => "False"
  | PInt z => str_of_int z
  | PStr s => repr_str s
  | PTuple l =>
      match l with
      | [x] => "(" +:+ repr x +:+ ",)"
      | _ => "(" +:+ String.concat ", " (map repr l) +:+ ")"
      end
  | PList l => "[" +:+ String.concat ", " (map repr l) +:+ "]"
  | PDict l =>
      "{" +:+ String.concat ", "
                (map (λ kv, repr_str kv.1 +:+ ": " +:+ repr kv.2) l) +:+ "}"
  end.

(** [sorted] on a list of strings (code-point order, [String.leb]). *)
Definition sorted (l : list string) : list string := merge_sort String.le l.

(** [d[k]] on a mapping held as an association list. *)
Fixpoint dict_getitem {V} (d : list (string * V)) (k : string) : res V :=
  match d with
  | (k', v) :: d' => if decide (k' = k) then Ret v else dict_getitem d' k
  | [] => Raise KeyError
  end.

(** *** hashlib.sha1 *)
Section sha1.
Local Open Scope Z_scope.

Definition w32 (x : Z) : Z := Z.land x 4294967295.
Definition rotl (n x : Z) : Z :=
  w32 (Z.lor (Z.shiftl x n) (Z.shiftr x (32 - n))).

Definition byte_of (c : ascii) : Z := Z.of_N (N_of_ascii c).

Fixpoint be_bytes (n : nat) (x : Z) : list Z :=
  match n with
  | O => []
  | S n' => Z.land (Z.shiftr x (8 * Z.of_nat n')) 255 :: be_bytes n' x
  end.

(** message, then 0x80, zero fill up to 56 mod 64, bit length on 8 bytes *)
Definition sha1_pad (msg : list Z) : list Z :=
  let len := Z.of_nat (length msg) in
  let zeros := Z.to_nat ((55 - len) mod 64) in
  msg ++ [128] ++ replicate zeros 0 ++ be_bytes 8 (8 * len).

Fixpoint be_words (bs : list Z) : list Z :=
  match bs with
  | b0 :: b1 :: b2 :: b3 :: r =>
      (b0 * 16777216 + b1 * 65536 + b2 * 256 + b3) :: be_words r
  | _ => []
  end.

(** message schedule, most recent word first *)
Fixpoint sha1_schedule (n : nat) (rev_w : list Z) : list Z :=
  match n with
  | O => rev_w
  | S n' =>
      let w := rotl 1 (Z.lxor (Z.lxor (nth 2 rev_w 0) (nth 7 rev_w 0))
                         (Z.lxor (nth 13 rev_w 0) (nth 15 rev_w 0))) in
      sha1_schedule n' (w :: rev_w)
  end.

Definition sha1_state : Type := Z * Z * Z * Z * Z.

Definition sha1_round (t : nat) (st : sha1_state) (w : Z) : sha1_state :=
  let '(a, b, c, d, e) := st in
  let '(f, k) :=
    if (t <? 20)%nat
    then (Z.lor (Z.land b c) (Z.land (Z.lxor b 4294967295) d), 1518500249)
    else if (t <? 40)%nat
    then (Z.lxor (Z.lxor b c) d, 1859775393)
    else if (t <? 60)%nat
    then (Z.lor (Z.lor (Z.land b c) (Z.land b d)) (Z.land c d), 2400959708)
    else (Z.lxor (Z.lxor b c) d, 3395469782) in
  (w32 (rotl 5 a + f + e + k + w), a, rotl 30 b, c, d).

Fixpoint sha1_rounds (t : nat) (ws : list Z) (st : sha1_state)
    : sha1_state :=
  match ws with
  | w :: ws' => sha1_rounds (S t) ws' (sha1_round t st w)
  | [] => st
  end.

Definition sha1_block (h : sha1_state) (block : list Z) : sha1_state :=
  let ws := rev (sha1_schedule 64 (rev (be_words block))) in
  let '(h0, h1, h2, h3, h4) := h in
  let '(a, b, c, d, e) := sha1_rounds 0 ws h in
  (w32 (h0 + a), w32 (h1 + b), w32 (h2 + c), w32 (h3 + d), w32 (h4 + e)).

Fixpoint sha1_blocks (fuel : nat) (h : sha1_state) (bs : list Z)
    : sha1_state :=
  match fuel, bs with
  | S f, _ :: _ => sha1_blocks f (sha1_block h (take 64 bs)) (drop 64 bs)
  | _, _ => h
  end.

Definition sha1_init : sha1_state :=
  (1732584193, 4023233417, 2562383102, 271733878, 3285377520).

Fixpoint hex_of (n : nat) (x : Z) : string :=
  match n with
  | O => EmptyString
  | S n' =>
      String (hex_digit (Z.to_N (Z.land (Z.shiftr x (4 * Z.of_nat n')) 15)))
             (hex_of n' x)
  end.

(** [hashlib_sha1(s).hexdigest()] *)
Definition sha1_hexdigest (s : string) : string :=
  let bs := sha1_pad (map byte_of (list_ascii_of_string s)) in
  let '(h0, h1, h2, h3, h4) := sha1_blocks (length bs) sha1_init bs in
  hex_of 8 h0 +:+ hex_of 8 h1 +:+ hex_of 8 h2 +:+ hex_of 8 h3
    +:+ hex_of 8 h4.
End sha1.

End Py.
Import Py.

(** ** CacheHashMixin: the fingerprint builder *)

Module CacheHashMixin.

(** A canonicaliser registered with [add_strategy]. *)
Definition strategy : Type := pyobj → res pyobj.

(** [self.strategies], an [OrderedDict]: names in registration order. *)
Definition strategies : Type := list (string * strategy).

(** default [method] of [add_strategy]: [lambda data: data] *)
Definition identity : strategy := λ data, Ret data.

(** [self.strategies[key] = method]: a name registered before keeps its
    position, a new one goes last. *)
Fixpoint add_strategy (ss : strategies) (key : string) (method : strategy)
    : strategies :=
  match ss with
  | [] => [(key, method)]
  | (k, m) :: ss' =>
      if decide (k = key) then (k, method) :: ss'
      else (k, m) :: add_strategy ss' key method
  end.

Definition _hash_component (key : string) (data : pyobj) : string :=
  String.concat "" [key; "{"; repr data; "}"].

(** the loop of [_build_hash] filling [components] *)
Fixpoint _components (ss : strategies) (data : list (string * pyobj))
    : res (list string) :=
  match ss with
  | [] => Ret []
  | (key, strategy) :: ss' =>
      v ← dict_getitem data key;
      c ← strategy v;
      cs ← _components ss' data;
      Ret (_hash_component key c :: cs)
  end.

(** the string handed to [hashlib_sha1] *)
Definition _hash_input (ss : strategies) (data : list (string * pyobj))
    : res string :=
  String.concat ":" <$> _components ss data.

Definition _build_hash (ss : strategies) (data : list (string * pyobj))
    : res string :=
  sha1_hexdigest <$> _hash_input ss data.

Definition _build_ctx_key (self_key : string) (ss : strategies)
    (ctx : list (string * pyobj)) : res string :=
  h ← _build_hash ss ctx; Ret (self_key +:+ ":" +:+ h).

(** [[(key, data[key]) for key in sorted(data)]] for a mapping [data];
    other argument shapes are not modelled and raise. *)
Definition dict_strategy : strategy := λ data,
  match data with
  | PDict d =>
      PList <$> traverse (λ key, v ← dict_getitem d key;
                                 Ret (PTuple [PStr key; v]))
                         (sorted d.*1)
  | _ => Raise TypeError
  end.

(** [RouteCacheRule.headers_strategy]:
    [[data[key] for key in self.check_headers]] *)
Definition headers_strategy (check_headers : list string) : strategy :=
  λ data,
  match data with
  | PDict d => PList <$> traverse (dict_getitem d) check_headers
  | _ => Raise TypeError
  end.

(** [CacheDecorator.__init__]: strategies ['args'] and ['kwargs'] *)
Definition CacheDecorator_strategies : strategies :=
  add_strategy (add_strategy [] "args" identity) "kwargs" dict_strategy.

End CacheHashMixin.
Import CacheHashMixin.

(** ** CacheHandler: duration normalisation and [get_or_set] *)

Module CacheHandler.

(** The [duration] argument of [set]: [None], a string (the sentinel
    ["default"] or anything else), or a number of seconds. *)
Inductive duration : Type :=
  | DNone
  | DStr (s : string)
  | DNum (z : Z).

(** The arguments [_convert_duration_] hands to the wrapped method. *)
Record set_kwargs : Type :=
  { kw_now : Z; kw_duration : Z; kw_expiration : Z }.

Definition one_year : Z := 60 * 60 * 24 * 365.

(** Body of the wrapper in [_convert_duration_], up to the call of the
    wrapped method; [now] is the value of [time.time()].  A string other
    than ["default"] reaches [now + duration] and raises [TypeError]. *)
Definition _convert_duration_ (_default_expire : Z) (duration : duration)
    (now : Z) : res set_kwargs :=
  let duration :=
    match duration with DNone => DNum one_year | d => d end in
  let duration :=
    match duration with
    | DStr s => if decide (s = "default") then DNum _default_expire else DStr s
    | d => d
    end in
  match duration with
  | DNum d =>
      Ret {| kw_now := now; kw_duration := d; kw_expiration := now + d |}
  | _ => Raise TypeError
  end.

(** [_key_prefix_]: [self._prefix + key if key is not None else key]. *)
Definition _key_prefix_ (_prefix : string) (key : option string)
    : option string :=
  match key with
  | Some k => Some (_prefix +:+ k)
  | None => None
  end.

(** The methods a backend overrides.  [E] carries what the environment
    decides during one call (clock readings, storage faults). *)
Class Backend (St E : Type) : Type :=
  { backend_get : E → string → M St pyobj;
    backend_set : E → string → pyobj → duration → M St unit }.

Definition on_fst {St W A} (m : M St A) : M (St * W) A :=
  λ sw, let '(r, s') := m sw.1 in (r, (s', sw.2)).
Definition on_snd {St W A} (m : M W A) : M (St * W) A :=
  λ sw, let '(r, w') := m sw.2 in (r, (sw.1, w')).

(** [get_or_set(key, function, duration)].  The producer [function] acts
    on a world [W] of its own, so that each of its calls is observable;
    [eg] and [es] are the environments of the [get] and of the [set]. *)
Definition get_or_set {St E W} `{!Backend St E} (eg es : E) (key : string)
    (function : M W pyobj) (duration : duration) : M (St * W) pyobj :=
  value ← on_fst (backend_get eg key);
  match value with
  | PNone =>
      value ← on_snd function;
      on_fst (backend_set es key value duration);;
      mret value
  | _ => mret value
  end.

End CacheHandler.
Import CacheHandler.

(** ** RamCache *)

Module RamCache.

Record RamElement : Type :=
  { value : pyobj; exp : Z; acc : Z }.

(** One backend instance together with the class-level [data],
    [_heap_exp] and [_heap_acc] it works on. *)
Record t : Type :=
  { _prefix : string;
    _threshold : Z;
    _default_expire : Z;
    data : gmap string RamElement;
    _heap_exp : list (Z * string);
    _heap_acc : list (Z * string) }.

Definition with_data (f : gmap string RamElement → gmap string RamElement)
    (c : t) : t :=
  {| _prefix := _prefix c; _threshold := _threshold c;
     _default_expire := _default_expire c; data := f (data c);
     _heap_exp := _heap_exp c; _heap_acc := _heap_acc c |}.
Definition with_heap_exp (h : list (Z * string)) (c : t) : t :=
  {| _prefix := _prefix c; _threshold := _threshold c;
     _default_expire := _default_expire c; data := data c;
     _heap_exp := h; _heap_acc := _heap_acc c |}.
Definition with_heap_acc (h : list (Z * string)) (c : t) : t :=
  {| _prefix := _prefix c; _threshold := _threshold c;
     _default_expire := _default_expire c; data := data c;
     _heap_exp := _heap_exp c; _heap_acc := h |}.

(** [RamCache(prefix, threshold, default_expire)] on fresh class state. *)
Definition init (prefix : string) (threshold default_expire : Z) : t :=
  {| _prefix := prefix; _threshold := threshold;
     _default_expire := default_expire;
     data := ∅; _heap_exp := []; _heap_acc := [] |}.

(** [self.data[k]], [del self.data[k]], [self.data[k] = e] *)
Definition data_getitem (k : string) : M t RamElement :=
  λ c, match data c !! k with
       | Some e => (Ret e, c)
       | None => (Raise KeyError, c)
       end.
Definition data_delitem (k : string) : M t unit :=
  λ c, match data c !! k with
       | Some _ => (Ret tt, with_data (delete k) c)
       | None => (Raise KeyError, c)
       end.
Definition data_setitem (k : string) (e : RamElement) : M t unit :=
  modify (with_data (<[k := e]>)).

(** [heapq.heappop(self._heap_exp)] and friends, in place. *)
Definition heappop_exp : M t (Z * string) :=
  λ c, match heappop tuple_lt (_heap_exp c) with
       | Ret (x, h) => (Ret x, with_heap_exp h c)
       | Raise e => (Raise e, c)
       end.
Definition heappop_acc : M t (Z * string) :=
  λ c, match heappop tuple_lt (_heap_acc c) with
       | Ret (x, h) => (Ret x, with_heap_acc h c)
       | Raise e => (Raise e, c)
       end.
Definition heappush_exp (x : Z * string) : M t unit :=
  modify (λ c, with_heap_exp (heappush tuple_lt (_heap_exp c) x) c).
Definition heappush_acc (x : Z * string) : M t unit :=
  modify (λ c, with_heap_acc (heappush tuple_lt (_heap_acc c) x) c).
Definition heap_exp_remove (x : Z * string) : M t unit :=
  λ c, match list_remove x (_heap_exp c) with
       | Ret h => (Ret tt, with_heap_exp h c)
       | Raise e => (Raise e, c)
       end.
Definition heap_acc_remove (x : Z * string) : M t unit :=
  λ c, match list_remove x (_heap_acc c) with
       | Ret h => (Ret tt, with_heap_acc h c)
       | Raise e => (Raise e, c)
       end.

(** First loop of [_prune]: [while self._heap_exp: ...]. *)
Fixpoint _prune_expired (fuel : nat) (now : Z) : M t unit :=
  match fuel with
  | O => mret tt
  | S fuel' =>
      h ← gets _heap_exp;
      match h with
      | [] => mret tt
      | _ =>
          '(exp_, rk) ← heappop_exp;
          if (exp_ <? now)%Z then
            el ← data_getitem rk;
            heap_acc_remove (acc el, rk);;
            data_delitem rk;;
            _prune_expired fuel' now
          else
            heappush_exp (exp_, rk)
      end
  end.

(** Second loop: [while len(self.data) > self._threshold: ...]. *)
Fixpoint _prune_exceeding (fuel : nat) : M t unit :=
  match fuel with
  | O => mret tt
  | S fuel' =>
      n ← gets (λ c, Z.of_nat (size (data c)));
      th ← gets _threshold;
      if (th <? n)%Z then
        '(_, rk) ← heappop_acc;
        el ← data_getitem rk;
        heap_exp_remove (exp el, rk);;
        data_delitem rk;;
        _prune_exceeding fuel'
      else mret tt
  end.

(** [_prune]; [now] is its own reading of the clock.  Each turn of the
    first loop shortens [_heap_exp] and each turn of the second one
    shrinks [data], which bounds the number of turns. *)
Definition _prune (now : Z) : M t unit :=
  n1 ← gets (λ c, S (length (_heap_exp c)));
  _prune_expired n1 now;;
  n2 ← gets (λ c, S (size (data c)));
  _prune_exceeding n2.

Definition set_acc (k : string) (now : Z) : M t unit :=
  modify (with_data (alter (λ e, {| value := value e; exp := exp e;
                                    acc := now |}) k)).

(** [get(key)]; [now] is the reading of the clock inside the lock. *)
Definition get (key : string) (now : Z) : M t pyobj :=
  pfx ← gets _prefix;
  let key := pfx +:+ key in
  try_except
    (element ← data_getitem key;
     if (exp element <? now)%Z then mret PNone
     else
       heap_acc_remove (acc element, key);;
       set_acc key now;;
       heappush_acc (now, key);;
       mret (value element))
    (λ e, match e with KeyError => mret PNone | _ => raise e end).

(** [set(key, value, duration)]; [now] is read by [_convert_duration_],
    [pnow] by [_prune]. *)
Definition set (key : string) (val : pyobj) (duration : duration)
    (now pnow : Z) : M t unit :=
  pfx ← gets _prefix;
  let key := pfx +:+ key in
  dflt ← gets _default_expire;
  kwargs ← lift (_convert_duration_ dflt duration now);
  _prune pnow;;
  heappush_exp (kw_expiration kwargs, key);;
  heappush_acc (kw_now kwargs, key);;
  data_setitem key {| value := val; exp := kw_expiration kwargs;
                      acc := kw_now kwargs |}.

(** [clear(key=None)] *)
Definition clear (key : option string) : M t unit :=
  pfx ← gets _prefix;
  match _key_prefix_ pfx key with
  | Some key =>
      try_except
        (rv ← data_getitem key;
         heap_acc_remove (acc rv, key);;
         heap_exp_remove (exp rv, key);;
         data_delitem key)
        (λ _, mret tt)
  | None =>
      modify (with_data (λ _, ∅));;
      modify (with_heap_acc []);;
      modify (with_heap_exp [])
  end.

(** Specification vocabulary: the tuples a heap should hold, one for each
    entry of the map, and the state in which both heaps hold exactly
    those. *)
Definition tuples_of (f : RamElement → Z) (m : gmap string RamElement)
    : list (Z * string) :=
  (λ ke, (f ke.2, ke.1)) <$> map_to_list m.

Definition consistent (c : t) : Prop :=
  _heap_exp c ≡ₚ tuples_of exp (data c)
  ∧ _heap_acc c ≡ₚ tuples_of acc (data c).

(** Specification vocabulary: the configuration of an instance, which
    no operation touches. *)
Definition same_config (c c' : t) : Prop :=
  _prefix c' = _prefix c ∧ _threshold c' = _threshold c
  ∧ _default_expire c' = _default_expire c.

Definition keeps_config {A} (m : M t A) : Prop :=
  ∀ c, same_config c (m c).2.

End RamCache.

(** Clock readings of one call on the memory backend: [t_now] is the
    reading of the wrapper (or of [get]), [t_prune] the one of [_prune]. *)
Record ram_env : Type := { t_now : Z; t_prune : Z }.

#[global] Instance RamCache_backend : Backend RamCache.t ram_env :=
  { backend_get e key := RamCache.get key (t_now e);
    backend_set e key val d := RamCache.set key val d (t_now e) (t_prune e) }.

(** ** DiskCache *)

Module DiskCache.

Record file : Type := { readable : bool; body : string }.

(** The steps of the write sequence of [set] that can fail. *)
Inductive step : Set :=
  | Mkstemp | Fdopen | DumpExpiration | DumpValue | Rename | Chmod.

#[global] Instance step_eq_dec : EqDecision step.
Proof. solve_decision. Defined.

(** What the environment decides during one call: the clock readings,
    whether [os.listdir] succeeds, the random part of the name
    [tempfile.mkstemp] picks, the write step that fails, if any, and the
    files [os.remove] refuses to remove (a directory without write
    permission, a file held open elsewhere). *)
Record env : Type :=
  { now : Z; pnow : Z; listdir_ok : bool;
    tmp_base : string; fault : option step;
    remove_refused : list string }.

(** An instance and the content of its cache directory [self._path],
    in the order [os.listdir] reports it. *)
Record t : Type :=
  { _threshold : Z;
    _default_expire : Z;
    files : list (string * file) }.

Definition with_files (f : list (string * file) → list (string * file))
    (c : t) : t :=
  {| _threshold := _threshold c; _default_expire := _default_expire c;
     files := f (files c) |}.

Definition _fs_transaction_suffix : string := ".__wp_cache".

Fixpoint endswith (s suffix : string) : bool :=
  if String.eqb s suffix then true
  else match s with
       | String _ s' => endswith s' suffix
       | EmptyString => false
       end.

Fixpoint fs_lookup (d : list (string * file)) (name : string)
    : option file :=
  match d with
  | (n, f) :: d' => if decide (n = name) then Some f else fs_lookup d' name
  | [] => None
  end.

Fixpoint fs_write (d : list (string * file)) (name : string) (f : file)
    : list (string * file) :=
  match d with
  | (n, g) :: d' =>
      if decide (n = name) then (n, f) :: d'
      else (n, g) :: fs_write d' name f
  | [] => [(name, f)]
  end.

Definition fs_remove (d : list (string * file)) (name : string)
    : list (string * file) :=
  filter (λ e, e.1 ≠ name) d.

Definition is_cache_file (name : string) : bool :=
  negb (endswith name _fs_transaction_suffix).

(** the files [_list_dir] reports, with their content *)
Definition cache_files (d : list (string * file)) : list (string * file) :=
  filter (λ e, is_cache_file e.1 = true) d.

Definition os_listdir (e : env) : M t (list string) :=
  λ c, if listdir_ok e then (Ret (map fst (files c)), c)
       else (Raise OSError, c).

(** [LockedFile(name, 'rb')], giving the bytes still to be read *)
Definition open_rb (name : string) : M t string :=
  λ c, match fs_lookup (files c) name with
       | Some f => if readable f then (Ret (body f), c)
                   else (Raise OSError, c)
       | None => (Raise OSError, c)
       end.

(** [os.remove(name)]: raises when the file is missing and when the
    system refuses the removal *)
Definition os_remove (e : env) (name : string) : M t unit :=
  λ c, match fs_lookup (files c) name with
       | Some _ =>
           if bool_decide (name ∈ remove_refused e) then (Raise OSError, c)
           else (Ret tt, with_files (λ d, fs_remove d name) c)
       | None => (Raise OSError, c)
       end.

Definition os_rename (src dst : string) : M t unit :=
  λ c, match fs_lookup (files c) src with
       | Some f =>
           (Ret tt, with_files (λ d, fs_write (fs_remove d src) dst f) c)
       | None => (Raise OSError, c)
       end.

Definition step_ok (e : env) (s : step) : M t unit :=
  if decide (fault e = Some s) then raise OSError else mret tt.

(** [tempfile.mkstemp(suffix=..., dir=self._path)]: a new empty file *)
Definition mkstemp (e : env) : M t string :=
  step_ok e Mkstemp;;
  let tmp := tmp_base e +:+ _fs_transaction_suffix in
  modify (with_files (λ d, fs_write d tmp {| readable := true; body := "" |}));;
  mret tmp.

(** [f.write(b)] on the file opened on [name] *)
Definition write (name : string) (b : string) : M t unit :=
  λ c, match fs_lookup (files c) name with
       | Some f =>
           (Ret tt,
            with_files (λ d, fs_write d name
                               {| readable := readable f;
                                  body := body f +:+ b |}) c)
       | None => (Raise OSError, c)
       end.

Definition set_mode (name : string) : M t unit :=
  λ c, match fs_lookup (files c) name with
       | Some f =>
           (Ret tt,
            with_files (λ d, fs_write d name
                               {| readable := true; body := body f |}) c)
       | None => (Raise OSError, c)
       end.

(** [os.chmod(name, self._fs_mode)], mode [0o600] *)
Definition chmod (e : env) (name : string) : M t unit :=
  step_ok e Chmod;; set_mode name.

(** the number a timestamp comparison sees, [TypeError] otherwise *)
Definition as_number (o : pyobj) : res Z :=
  match o with
  | PInt z => Ret z
  | PBool b => Ret (if b then 1 else 0)%Z
  | _ => Raise TypeError
  end.

Section with_pickle.
Context {pickle : Pickle}.

Definition _get_filename (key : string) : string := sha1_hexdigest key.

(** the expiry header of file [name]: what [LockedFile(name, 'rb')] and
    the first [pickle.load] give, seen as a number *)
Definition read_expiry (d : list (string * file)) (name : string)
    : res Z :=
  match fs_lookup d name with
  | Some f =>
      if readable f then
        '(o, _) ← pickle_load (body f); as_number o
      else Raise OSError
  | None => Raise OSError
  end.

(** Specification vocabulary for the pruning pass over [entries]: the
    position of the first entry whose header cannot be read (the pass
    stops there), and the rule for the entry at position [k] of a pass
    whose first index is [i]: the pass reaches it and hands it to
    [_del_file]. *)
Fixpoint first_error (d : list (string * file)) (entries : list string)
    : nat :=
  match entries with
  | [] => 0
  | n :: entries' =>
      match read_expiry d n with
      | Ret _ => S (first_error d entries')
      | Raise _ => 0
      end
  end.

Definition removed_by_rule (d : list (string * file))
    (entries : list string) (now : Z) (i k : nat) (name : string)
    : bool :=
  (k <? first_error d entries)
  && match read_expiry d name with
     | Ret x => (x <=? now)%Z || ((i + k) mod 3 =? 0)
     | Raise _ => false
     end.

Definition _del_file (e : env) (filename : string) : M t unit :=
  try_except (os_remove e filename) (λ _, mret tt).

Definition _list_dir (e : env) : M t (list string) :=
  names ← os_listdir e;
  mret (filter (λ fn, is_cache_file fn = true) names).

(** the [for i, fpath in enumerate(entries)] loop of [_prune] *)
Fixpoint _prune_scan (e : env) (i : nat) (entries : list string) (now : Z)
    : M t unit :=
  match entries with
  | [] => mret tt
  | fpath :: entries' =>
      f ← open_rb fpath;
      '(exp, _) ← lift (pickle_load f);
      x ← lift (as_number exp);
      let remove := (x <=? now)%Z || (i mod 3 =? 0) in
      (if remove then _del_file e fpath else mret tt);;
      _prune_scan e (S i) entries' now
  end.

Definition _prune (e : env) : M t unit :=
  entries ← _list_dir e;
  th ← gets _threshold;
  if (th <? Z.of_nat (length entries))%Z then
    try_except (_prune_scan e 0 entries (pnow e)) (λ _, mret tt)
  else mret tt.

Definition get (e : env) (key : string) : M t pyobj :=
  let filename := _get_filename key in
  try_except
    (f ← open_rb filename;
     '(exp, rest) ← lift (pickle_load f);
     x ← lift (as_number exp);
     if (x <? now e)%Z then mret PNone
     else '(val, _) ← lift (pickle_load rest); mret val)
    (λ _, mret PNone).

(** the [try] block of [set] *)
Definition write_sequence (e : env) (filename : string) (value : pyobj)
    (kwargs : set_kwargs) : M t unit :=
  tmp ← mkstemp e;
  step_ok e Fdopen;;
  step_ok e DumpExpiration;;
  write tmp (pickle_dumps (Protocol 1) (PInt (kw_expiration kwargs)));;
  step_ok e DumpValue;;
  write tmp (pickle_dumps HIGHEST_PROTOCOL value);;
  step_ok e Rename;;
  os_rename tmp filename;;
  chmod e filename.

Definition set (e : env) (key : string) (value : pyobj)
    (duration : duration) : M t unit :=
  dflt ← gets _default_expire;
  kwargs ← lift (_convert_duration_ dflt duration (now e));
  let filename := _get_filename key in
  _prune e;;
  try_except (write_sequence e filename value kwargs) (λ _, mret tt).

(** the situations in which the file of a key gives no value *)
Definition no_value (e : env) (c : t) (key : string) : Prop :=
  match fs_lookup (files c) (_get_filename key) with
  | None => True
  | Some f =>
      readable f = false
      ∨ (∃ err, pickle_load (body f) = Raise err)
      ∨ (∃ o rest, pickle_load (body f) = Ret (o, rest)
           ∧ ((∃ err, as_number o = Raise err)
              ∨ (∃ x, as_number o = Ret x ∧ (x < now e)%Z)
              ∨ (∃ err, pickle_load rest = Raise err)))
  end.

(** the serialiser gives back the two-part record of [set] *)
Definition record_readable (expiration : Z) (value : pyobj) : Prop :=
  pickle_load (pickle_dumps (Protocol 1) (PInt expiration)
               +:+ pickle_dumps HIGHEST_PROTOCOL value)
  = Ret (PInt expiration, pickle_dumps HIGHEST_PROTOCOL value)
  ∧ ∃ rest, pickle_load (pickle_dumps HIGHEST_PROTOCOL value)
            = Ret (value, rest).

Fixpoint _del_files (e : env) (names : list string) : M t unit :=
  match names with
  | [] => mret tt
  | name :: names' => _del_file e name;; _del_files e names'
  end.

Definition clear (e : env) (key : option string) : M t unit :=
  match key with
  | Some key =>
      let filename := _get_filename key in
      try_except (os_remove e filename) (λ _, mret tt)
  | None => names ← _list_dir e; _del_files e names
  end.

#[global] Instance backend : Backend t env :=
  { backend_get := get; backend_set := set }.
End with_pickle.

End DiskCache.

(** ** RedisCache *)

Module RedisCache.

Record entry : Type := { payload : string; expires_at : Z }.

(** The adapter, the client's handling of ill-typed command arguments
    ([strict_args]: reject them with [DataError]; otherwise send their
    [str]), and the content of the store behind [self._cache]. *)
Record t : Type :=
  { _prefix : string;
    _default_expire : Z;
    strict_args : bool;
    _cache : gmap string entry }.

Definition with_cache (f : gmap string entry → gmap string entry) (c : t)
    : t :=
  {| _prefix := _prefix c; _default_expire := _default_expire c;
     strict_args := strict_args c; _cache := f (_cache c) |}.

(** Clock readings: [now] by the wrapper of [set], [rnow] by the store. *)
Record env : Type := { now : Z; rnow : Z }.

Definition live (rnow : Z) (e : entry) : bool := (rnow <? expires_at e)%Z.

(** The store's glob patterns, for the metacharacters [*] and [?]
    (bracket classes and escapes are not modelled). *)
Fixpoint glob_match (p : string) : string → bool :=
  match p with
  | EmptyString => λ s, match s with EmptyString => true | _ => false end
  | String "*" p' =>
      fix star (s : string) : bool :=
        glob_match p' s
        || match s with String _ s' => star s' | EmptyString => false end
  | String "?" p' =>
      λ s, match s with String _ s' => glob_match p' s' | _ => false end
  | String c p' =>
      λ s, match s with
           | String d s' => Ascii.eqb c d && glob_match p' s'
           | _ => false
           end
  end.

(** A positional argument of a client command: a name, or a list. *)
Inductive arg : Type :=
  | AName (s : string)
  | ANames (l : list string).

Definition encode_arg (strict : bool) (a : arg) : res string :=
  match a with
  | AName s => Ret s
  | ANames l =>
      if strict then Raise DataError else Ret (repr (PList (map PStr l)))
  end.

(** [self._cache.get(key)] *)
Definition cache_get (e : env) (key : string) : M t (option string) :=
  gets (λ c, match _cache c !! key with
             | Some x => if live (rnow e) x then Some (payload x) else None
             | None => None
             end).

(** [self._cache.setex(name, value, time)] *)
Definition cache_setex (e : env) (name value : string) (time : Z)
    : M t unit :=
  if (time <=? 0)%Z then raise ResponseError
  else modify (with_cache (<[name := {| payload := value;
                                        expires_at := rnow e + time |}]>)).

(** [self._cache.keys(pattern)] *)
Definition cache_keys (e : env) (pattern : string) : M t (list string) :=
  gets (λ c, (map_to_list
                (filter (λ kv, live (rnow e) kv.2 = true
                               ∧ glob_match pattern kv.1 = true)
                        (_cache c))).*1).

Fixpoint del_names (rnow : Z) (names : list string)
    (m : gmap string entry) : Z * gmap string entry :=
  match names with
  | [] => (0%Z, m)
  | n :: names' =>
      let hit := match m !! n with
                 | Some x => live rnow x
                 | None => false
                 end in
      let '(k, m') := del_names rnow names' (delete n m) in
      ((if hit then 1 else 0) + k, m')%Z
  end.

(** [self._cache.delete] on positional arguments: the number of keys
    removed *)
Definition cache_delete (e : env) (args : list arg) : M t Z :=
  strict ← gets strict_args;
  names ← lift (traverse (encode_arg strict) args);
  match names with
  | [] => raise ResponseError
  | _ =>
      m ← gets _cache;
      let '(k, m') := del_names (rnow e) names m in
      modify (with_cache (λ _, m'));;
      mret k
  end.

Definition cache_flushdb : M t unit := modify (with_cache (λ _, ∅)).

Section with_pickle.
Context {pickle : Pickle}.

Definition _dump_obj (value : pyobj) : string :=
  match value with
  | PInt z => str_of_int z
  | _ => "!" +:+ pickle_dumps DEFAULT_PROTOCOL value
  end.

Definition _load_obj (value : option string) : res pyobj :=
  match value with
  | None => Ret PNone
  | Some (String "!" rest) =>
      match pickle_loads rest with
      | Raise PickleError => Ret PNone
      | r => r
      end
  | Some value =>
      match int_of_bytes value with
      | Ret z => Ret (PInt z)
      | Raise ValueError => Ret PNone
      | Raise e => Raise e
      end
  end.

Definition get (e : env) (key : string) : M t pyobj :=
  pfx ← gets _prefix;
  let key := pfx +:+ key in
  v ← cache_get e key;
  lift (_load_obj v).

Definition set (e : env) (key : string) (value : pyobj)
    (duration : duration) : M t unit :=
  pfx ← gets _prefix;
  let key := pfx +:+ key in
  dflt ← gets _default_expire;
  kwargs ← lift (_convert_duration_ dflt duration (now e));
  let dumped := _dump_obj value in
  cache_setex e key dumped (kw_duration kwargs).

Definition clear (e : env) (key : option string) : M t unit :=
  pfx ← gets _prefix;
  match _key_prefix_ pfx key with
  | Some key =>
      if DiskCache.endswith key "*" then
        ks ← cache_keys e key;
        keys ← cache_delete e [ANames ks];
        (* [if keys: self._cache.delete( *keys )] with [keys] a number *)
        if (keys =? 0)%Z then mret tt else raise TypeError
      else
        cache_delete e [AName key];; mret tt
  | None =>
      match pfx with
      | String _ _ =>
          keys ← cache_keys e (pfx +:+ "*");
          match keys with
          | [] => mret tt
          | _ => cache_delete e (map AName keys);; mret tt
          end
      | EmptyString => cache_flushdb
      end
  end.

#[global] Instance backend : Backend t env :=
  { backend_get := get; backend_set := set }.
End with_pickle.

End RedisCache.

(** ** A small serialiser with the [Pickle] interface

    It covers [None], booleans, integers and strings, and is what the
    concrete runs below use. *)

Module TinyPickle.

Fixpoint split_at (sep : ascii) (s : string) : option (string * string) :=
  match s with
  | String c s' =>
      if Ascii.eqb c sep then Some (EmptyString, s')
      else match split_at sep s' with
           | Some (a, b) => Some (String c a, b)
           | None => None
           end
  | EmptyString => None
  end.

Fixpoint take_chars (n : nat) (s : string) : option (string * string) :=
  match n, s with
  | O, _ => Some (EmptyString, s)
  | S n', String c s' =>
      match take_chars n' s' with
      | Some (a, b) => Some (String c a, b)
      | None => None
      end
  | S _, EmptyString => None
  end.

Definition dumps (_ : protocol) (o : pyobj) : string :=
  match o with
  | PNone => "N"
  | PBool true => "T"
  | PBool false => "F"
  | PInt z => "I" +:+ str_of_int z +:+ ";"
  | PStr s => "S" +:+ str_of_int (Z.of_nat (String.length s)) +:+ ":" +:+ s
  | _ => "?"
  end.

Definition load (b : string) : res (pyobj * string) :=
  match b with
  | String "N" r => Ret (PNone, r)
  | String "T" r => Ret (PBool true, r)
  | String "F" r => Ret (PBool false, r)
  | String "I" r =>
      match split_at ";" r with
      | Some (digits, r') =>
          match int_of_bytes digits with
          | Ret z => Ret (PInt z, r')
          | Raise _ => Raise PickleError
          end
      | None => Raise PickleError
      end
  | String "S" r =>
      match split_at ":" r with
      | Some (digits, r') =>
          match int_of_bytes digits with
          | Ret n =>
              match take_chars (Z.to_nat n) r' with
              | Some (s, r'') => Ret (PStr s, r'')
              | None => Raise PickleError
              end
          | Raise _ => Raise PickleError
          end
      | None => Raise PickleError
      end
  | _ => Raise PickleError
  end.

Definition instance : Pickle :=
  {| pickle_dumps := dumps; pickle_load := load |}.

End TinyPickle.

(** ** Concrete runs used in the statements below *)

Module Runs.

(** run operations one after the other, keeping the state of each
    (also when it raised) *)
Definition steps {St} (ops : list (M St unit)) (s : St) : St :=
  foldl (λ s op, exec op s) s ops.

Definition ram_set (key : string) (v : Z) (d : Z) (now : Z)
    : M RamCache.t unit :=
  RamCache.set key (PInt v) (DNum d) now now.
Definition ram_get (key : string) (now : Z) : M RamCache.t unit :=
  RamCache.get key now;; mret tt.

(** threshold 2: [set("a",1,100)], [set("b",2,100)], [get("a")],
    [set("c",3,100)] at times 0, 1, 2, 3 *)
Definition lru_scenario : RamCache.t :=
  steps [ram_set "a" 1 100 0; ram_set "b" 2 100 1; ram_get "a" 2;
         ram_set "c" 3 100 3]
        (RamCache.init "" 2 300).

(** one more insertion, [set("d",4,100)] at time 4 *)
Definition lru_scenario_next : RamCache.t :=
  exec (ram_set "d" 4 100 4) lru_scenario.

(** a key set twice: [set("a",1,100)] at time 0, [set("a",2,100)] at
    time 1 *)
Definition replaced_key : RamCache.t :=
  steps [ram_set "a" 1 100 0; ram_set "a" 2 100 1] (RamCache.init "" 500 300).

(** threshold 4: six keys set at times 1 to 6 (the sixth evicts ["k1"]),
    [get("k2")] at time 7, then [set("k7")] at time 8 *)
Definition recency_scenario : RamCache.t :=
  steps [ram_set "k1" 1 1000 1; ram_set "k2" 2 1000 2; ram_set "k3" 3 1000 3;
         ram_set "k4" 4 1000 4; ram_set "k5" 5 1000 5; ram_set "k6" 6 1000 6;
         ram_get "k2" 7; ram_set "k7" 7 1000 8]
        (RamCache.init "" 4 300).

(** the keys held by a heap, and by the map *)
Definition heap_keys (h : list (Z * string)) : list string := h.*2.
Definition map_keys (c : RamCache.t) : list string :=
  (map_to_list (RamCache.data c)).*1.

End Runs.

(** ** A producer whose calls can be counted *)

Module Producer.

(** the world of the producer: how many times it has been called *)
Definition calls : Type := nat.

(** a producer that returns [v] *)
Definition returning (v : pyobj) : M calls pyobj := λ n, (Ret v, S n).

End Producer.

Module RedisRuns.
#[local] Existing Instance TinyPickle.instance.

Definition at_time (t : Z) : RedisCache.env :=
  {| RedisCache.now := t; RedisCache.rnow := t |}.

Definition empty_store (prefix : string) (strict : bool) : RedisCache.t :=
  {| RedisCache._prefix := prefix; RedisCache._default_expire := 300;
     RedisCache.strict_args := strict; RedisCache._cache := ∅ |}.

(** prefix ["cache:"]; [set("a1", 42)], [set("a2", "hi")], [set("b", 7)]
    at time 0 with the default expiry *)
Definition three_keys (strict : bool) : RedisCache.t :=
  Runs.steps
    [RedisCache.set (at_time 0) "a1" (PInt 42) (DStr "default");
     RedisCache.set (at_time 0) "a2" (PStr "hi") (DStr "default");
     RedisCache.set (at_time 0) "b" (PInt 7) (DStr "default")]
    (empty_store "cache:" strict).

Definition stored_keys (c : RedisCache.t) : list string :=
  (map_to_list (RedisCache._cache c)).*1.

End RedisRuns.

Module DiskRuns.
#[local] Existing Instance TinyPickle.instance.

Definition at_time (t : Z) (f : option DiskCache.step) : DiskCache.env :=
  {| DiskCache.now := t; DiskCache.pnow := t; DiskCache.listdir_ok := true;
     DiskCache.tmp_base := "tmpq3x9"; DiskCache.fault := f;
     DiskCache.remove_refused := [] |}.

(** the same, [os.remove] refusing the files [names] *)
Definition refusing (names : list string) (t : Z) : DiskCache.env :=
  {| DiskCache.now := t; DiskCache.pnow := t; DiskCache.listdir_ok := true;
     DiskCache.tmp_base := "tmpq3x9"; DiskCache.fault := None;
     DiskCache.remove_refused := names |}.

Definition empty_dir (threshold : Z) : DiskCache.t :=
  {| DiskCache._threshold := threshold; DiskCache._default_expire := 300;
     DiskCache.files := [] |}.

(** threshold 2; [set("k1","one",100)], [set("k2","two",100)],
    [set("k3","three",100)] at time 0, no fault *)
Definition three_files : DiskCache.t :=
  Runs.steps
    [DiskCache.set (at_time 0 None) "k1" (PStr "one") (DNum 100);
     DiskCache.set (at_time 0 None) "k2" (PStr "two") (DNum 100);
     DiskCache.set (at_time 0 None) "k3" (PStr "three") (DNum 100)]
    (empty_dir 2).

(** then [set("j",3,100)] at time 1 whose [mkstemp] fails *)
Definition after_failed_mkstemp : DiskCache.t :=
  exec (DiskCache.set (at_time 1 (Some DiskCache.Mkstemp)) "j" (PInt 3)
          (DNum 100)) three_files.

(** or whose [chmod] fails *)
Definition after_failed_chmod : DiskCache.t :=
  exec (DiskCache.set (at_time 1 (Some DiskCache.Chmod)) "j" (PInt 3)
          (DNum 100)) three_files.

End DiskRuns.

(** ** Reading a [repr] back

    Specification vocabulary for the text [repr] gives: what can follow a
    value, what its first character announces, and the inverse of
    [repr_char]. *)

Module ReprSpec.

(** the characters that can follow a value inside a [repr] *)
Definition closes (c : ascii) : bool :=
  Ascii.eqb c "," || Ascii.eqb c "]" || Ascii.eqb c ")" || Ascii.eqb c "}".

(** a text that is empty or starts with one of them *)
Definition delimited (t : string) : bool :=
  match t with
  | String c _ => closes c
  | EmptyString => true
  end.

(** the kind of value a [repr] announces with its first character *)
Definition head_class (c : ascii) : nat :=
  if Ascii.eqb c "N" then 0
  else if Ascii.eqb c "T" then 1
  else if Ascii.eqb c "F" then 2
  else if is_digit c || Ascii.eqb c "-" then 3
  else if Ascii.eqb c "'" || Ascii.eqb c dquote then 4
  else if Ascii.eqb c "(" then 5
  else if Ascii.eqb c "[" then 6
  else if Ascii.eqb c "{" then 7
  else 8.

Definition class_of (o : pyobj) : nat :=
  match o with
  | PNone => 0
  | PBool true => 1
  | PBool false => 2
  | PInt _ => 3
  | PStr _ => 4
  | PTuple _ => 5
  | PList _ => 6
  | PDict _ => 7
  end.

Definition unhex (c : ascii) : option N :=
  let n := N_of_ascii c in
  if ((48 <=? n) && (n <=? 57))%N then Some (n - 48)%N
  else if ((97 <=? n) && (n <=? 102))%N then Some (n - 87)%N
  else None.

(** reading back one character written by [repr_char] *)
Definition unrepr_char (quote : ascii) (s : string)
    : option (ascii * string) :=
  match s with
  | String c r =>
      if Ascii.eqb c "\" then
        match r with
        | String d r' =>
            if Ascii.eqb d "n" then Some (ascii_of_N 10, r')
            else if Ascii.eqb d "r" then Some (ascii_of_N 13, r')
            else if Ascii.eqb d "t" then Some (ascii_of_N 9, r')
            else if Ascii.eqb d "x" then
              match r' with
              | String h1 (String h2 r'') =>
                  match unhex h1, unhex h2 with
                  | Some a, Some b => Some (ascii_of_N (16 * a + b), r'')
                  | _, _ => None
                  end
              | _ => None
              end
            else Some (d, r')
        | EmptyString => None
        end
      else if Ascii.eqb c quote then None
      else Some (c, r)
  | EmptyString => None
  end.

End ReprSpec.

Module HashRuns.

(** a builder with one component ["a"] under [dict_strategy] *)
Definition one_dict : strategies := add_strategy [] "a" dict_strategy.

Definition ctx_xy : list (string * pyobj) :=
  [("a", PDict [("x", PInt 1); ("y", PInt 2)])].
Definition ctx_yx : list (string * pyobj) :=
  [("a", PDict [("y", PInt 2); ("x", PInt 1)])].
(** the first mapping with another value under ["y"] *)
Definition ctx_x1_y (z : Z) : list (string * pyobj) :=
  [("a", PDict [("x", PInt 1); ("y", PInt z)])].

(** the same mapping one level down, in two iteration orders *)
Definition ctx_nested_xy : list (string * pyobj) :=
  [("a", PDict [("k", PDict [("x", PInt 1); ("y", PInt 2)])])].
Definition ctx_nested_yx : list (string * pyobj) :=
  [("a", PDict [("k", PDict [("y", PInt 2); ("x", PInt 1)])])].

(** the same two strategies registered in either order *)
Definition args_then_kwargs : strategies :=
  add_strategy (add_strategy [] "args" identity) "kwargs" dict_strategy.
Definition kwargs_then_args : strategies :=
  add_strategy (add_strategy [] "kwargs" dict_strategy) "args" identity.
Definition call_ctx : list (string * pyobj) :=
  [("args", PTuple [PInt 1]); ("kwargs", PDict [("x", PInt 1)])].

(** strategies that agree name by name and input by input *)
Definition same_strategies (ss1 ss2 : strategies) : Prop :=
  Forall2 (λ a b, a.1 = b.1 ∧ ∀ x, a.2 x = b.2 x) ss1 ss2.

End HashRuns.

(** ** The base handler

    [CacheHandler] itself stores nothing: its [get] gives [None], its
    [set] and [clear] do nothing. *)

Module BaseHandler.

Definition get (key : string) : M unit pyobj := mret PNone.
Definition set (key : string) (value : pyobj) (duration : duration)
    : M unit unit := mret tt.
Definition clear (key : option string) : M unit unit := mret tt.

#[global] Instance backend : Backend unit unit :=
  { backend_get _ := get; backend_set _ := set }.

End BaseHandler.

(** ** CacheDecorator *)

Module CacheDecorator.

(** The decorator without its handler, which is the backend state the
    wrapped function runs on. *)
Record t : Type :=
  { key : option string;
    duration : CacheHandler.duration;
    strategies : strategies }.

(** [CacheDecorator(handler, key, duration)] *)
Definition init (key : option string) (duration : CacheHandler.duration) : t :=
  {| key := key; duration := duration;
     strategies := add_strategy (add_strategy [] "args" identity)
                     "kwargs" dict_strategy |}.

(** What the closure [wrap] sees of the decorator once [__call__] has
    run: [self.key] is then a string. *)
Record wrapper : Type :=
  { self_key : string;
    w_duration : CacheHandler.duration;
    w_strategies : CacheHashMixin.strategies }.

(** [__call__(f)]: [if not self.key: self.key = f.__module__ + '.' +
    f.__name__], and the wrapper it returns *)
Definition __call__ (self : t) (f_module f_name : string) : wrapper :=
  {| self_key := match key self with
                 | Some (String c k) => String c k
                 | _ => f_module +:+ "." +:+ f_name
                 end;
     w_duration := duration self;
     w_strategies := strategies self |}.

(** the key [wrap( *args, **kwargs )] looks up *)
Definition wrap_key (w : wrapper) (args : list pyobj)
    (kwargs : list (string * pyobj)) : res string :=
  match args, kwargs with
  | [], [] => Ret (self_key w)
  | _, _ =>
      _build_ctx_key (self_key w) (w_strategies w)
        [("args", PTuple args); ("kwargs", PDict kwargs)]
  end.

(** [wrap( *args, **kwargs )] for the decorated function [f] *)
Definition wrap {St E W} `{!Backend St E} (w : wrapper)
    (f : list pyobj → list (string * pyobj) → M W pyobj) (eg es : E)
    (args : list pyobj) (kwargs : list (string * pyobj))
    : M (St * W) pyobj :=
  key ← lift (wrap_key w args kwargs);
  get_or_set eg es key (f args kwargs) (w_duration w).

End CacheDecorator.

(** ** RouteCacheRule *)

Module RouteCacheRule.

(** What the context builders read off the route and off the current
    request. *)
Record Route : Type := { name : string; hostname : pyobj }.
Record Request : Type := { query_params : pyobj; headers : pyobj }.
Record Current : Type := { language : pyobj; request : Request }.

Record t : Type :=
  { check_headers : list string;
    duration : CacheHandler.duration;
    strategies : strategies;
    _ctx_builders : list (string * (Route → Current → pyobj)) }.

(** one [add_strategy] followed by one [_ctx_builders.append] *)
Definition with_component (key : string) (method : strategy)
    (builder : Route → Current → pyobj) (self : t) : t :=
  {| check_headers := check_headers self; duration := duration self;
     strategies := add_strategy (strategies self) key method;
     _ctx_builders := _ctx_builders self ++ [(key, builder)] |}.

(** [RouteCacheRule(handler, query_params, language, hostname, headers,
    duration)] *)
Definition init (query_params language hostname : bool)
    (headers : list string) (duration : CacheHandler.duration) : t :=
  let self :=
    {| check_headers := headers; duration := duration;
       strategies := add_strategy [] "kwargs" dict_strategy;
       _ctx_builders := [] |} in
  let self :=
    if hostname
    then with_component "hostname" identity
           (λ route current, RouteCacheRule.hostname route) self
    else self in
  let self :=
    if language
    then with_component "language" identity
           (λ route current, RouteCacheRule.language current) self
    else self in
  let self :=
    if query_params
    then with_component "query_params" dict_strategy
           (λ route current,
              RouteCacheRule.query_params (request current)) self
    else self in
  match headers with
  | [] => self
  | _ => with_component "headers" (headers_strategy headers)
           (λ route current, RouteCacheRule.headers (request current)) self
  end.

(** [rv[key] = v] on a mapping held in insertion order *)
Fixpoint dict_setitem {V} (d : list (string * V)) (key : string) (v : V)
    : list (string * V) :=
  match d with
  | [] => [(key, v)]
  | (k, w) :: d' =>
      if decide (k = key) then (k, v) :: d'
      else (k, w) :: dict_setitem d' key v
  end.

Definition _build_ctx (self : t) (kwargs : pyobj) (route : Route)
    (current : Current) : list (string * pyobj) :=
  foldl (λ rv kb, dict_setitem rv kb.1 (kb.2 route current))
        [("kwargs", kwargs)] (_ctx_builders self).

Definition _build_ctx_key (self : t) (route : Route)
    (ctx : list (string * pyobj)) : res string :=
  h ← _build_hash (strategies self) ctx; Ret (name route +:+ ":" +:+ h).

(** Specification vocabulary: the components a rule is expected to feed
    to the digest, in this order, each with its canonical form. *)
Definition components (query_params language hostname : bool)
    (headers : list string) (kwargs : pyobj) (route : Route)
    (current : Current) : list (string * res pyobj) :=
  [("kwargs", dict_strategy kwargs)]
  ++ (if hostname then [("hostname", Ret (RouteCacheRule.hostname route))]
      else [])
  ++ (if language then [("language", Ret (RouteCacheRule.language current))]
      else [])
  ++ (if query_params
      then [("query_params",
             dict_strategy (RouteCacheRule.query_params (request current)))]
      else [])
  ++ match headers with
     | [] => []
     | _ => [("headers",
              headers_strategy headers
                (RouteCacheRule.headers (request current)))]
     end.

(** [CacheHandler.response(duration, query_params, language, hostname,
    headers)] with its defaults *)
Definition response_default : t := init true true false [] (DStr "default").

End RouteCacheRule.

(** ** RamCache: the class attributes and the instances

    [data], [_heap_exp] and [_heap_acc] are attributes of the class:
    [__init__] does not rebind them, so every instance mutates the same
    three objects.  The one place that rebinds is the end of [clear()],
    whose [self._heap_acc = []] and [self._heap_exp = []] give the
    instance heaps of its own, while [self.data.clear()] empties the
    shared map in place. *)

Module RamCacheClass.

Record shared : Type :=
  { data : gmap string RamCache.RamElement;
    _heap_exp : list (Z * string);
    _heap_acc : list (Z * string) }.

Record instance : Type :=
  { _prefix : string;
    _threshold : Z;
    _default_expire : Z;
    own_heap_exp : option (list (Z * string));
    own_heap_acc : option (list (Z * string)) }.

(** a fresh class *)
Definition empty : shared := {| data := ∅; _heap_exp := []; _heap_acc := [] |}.

(** [RamCache(prefix, threshold, default_expire)] *)
Definition new (prefix : string) (threshold default_expire : Z) : instance :=
  {| _prefix := prefix; _threshold := threshold;
     _default_expire := default_expire;
     own_heap_exp := None; own_heap_acc := None |}.

(** what the attribute lookups [self.data], [self._heap_exp] and
    [self._heap_acc] find *)
Definition view (self : instance) (cls : shared) : RamCache.t :=
  {| RamCache._prefix := _prefix self;
     RamCache._threshold := _threshold self;
     RamCache._default_expire := _default_expire self;
     RamCache.data := data cls;
     RamCache._heap_exp := default (_heap_exp cls) (own_heap_exp self);
     RamCache._heap_acc := default (_heap_acc cls) (own_heap_acc self) |}.

(** the objects after in-place mutation through [self] *)
Definition commit (self : instance) (cls : shared) (c : RamCache.t)
    : instance * shared :=
  ({| _prefix := _prefix self; _threshold := _threshold self;
      _default_expire := _default_expire self;
      own_heap_exp := (λ _, RamCache._heap_exp c) <$> own_heap_exp self;
      own_heap_acc := (λ _, RamCache._heap_acc c) <$> own_heap_acc self |},
   {| data := RamCache.data c;
      _heap_exp := match own_heap_exp self with
                   | Some _ => _heap_exp cls
                   | None => RamCache._heap_exp c
                   end;
      _heap_acc := match own_heap_acc self with
                   | Some _ => _heap_acc cls
                   | None => RamCache._heap_acc c
                   end |}).

(** a method that mutates in place, run through one instance *)
Definition method {A} (m : M RamCache.t A) : M (instance * shared) A :=
  λ w, let '(r, c) := m (view w.1 w.2) in (r, commit w.1 w.2 c).

Definition get (key : string) (now : Z) : M (instance * shared) pyobj :=
  method (RamCache.get key now).

Definition set (key : string) (val : pyobj) (duration : duration)
    (now pnow : Z) : M (instance * shared) unit :=
  method (RamCache.set key val duration now pnow).

Definition clear (key : option string) : M (instance * shared) unit :=
  match key with
  | Some key => method (RamCache.clear (Some key))
  | None =>
      λ w, (Ret tt,
            ({| _prefix := _prefix w.1; _threshold := _threshold w.1;
                _default_expire := _default_expire w.1;
                own_heap_exp := Some []; own_heap_acc := Some [] |},
             {| data := ∅; _heap_exp := _heap_exp w.2;
                _heap_acc := _heap_acc w.2 |}))
  end.

End RamCacheClass.

(** ** Vocabulary for the statements on the remote backend *)

Module RedisSpec.

(** a pattern character that the store reads as itself *)
Definition literal_char (c : ascii) : bool :=
  negb (Ascii.eqb c "*" || Ascii.eqb c "?" || Ascii.eqb c "["
        || Ascii.eqb c "\").

Fixpoint literal (p : string) : bool :=
  match p with
  | EmptyString => true
  | String c p' => literal_char c && literal p'
  end.

(** what [get] of the store gives at time [rnow] *)
Definition visible (rnow : Z) (c : RedisCache.t) (name : string)
    : option string :=
  match RedisCache._cache c !! name with
  | Some x => if RedisCache.live rnow x then Some (RedisCache.payload x)
              else None
  | None => None
  end.

End RedisSpec.

(** ** Vocabulary for the statements on digests *)

Module HexSpec.

Definition is_hex (c : ascii) : bool :=
  let n := nat_of_ascii c in
  ((48 <=? n) && (n <=? 57)) || ((97 <=? n) && (n <=? 102)).

Fixpoint all_hex (s : string) : bool :=
  match s with
  | EmptyString => true
  | String c s' => is_hex c && all_hex s'
  end.

End HexSpec.

(** ** Vocabulary for the statements on the memory and disk backends *)

Module BackendSpec.

(** an entry whose access time has been set to [now] *)
Definition touched (now : Z) (e : RamCache.RamElement)
    : RamCache.RamElement :=
  {| RamCache.value := RamCache.value e; RamCache.exp := RamCache.exp e;
     RamCache.acc := now |}.

(** the name [tempfile.mkstemp] gives the temporary file of a [set] *)
Definition tmp_name (e : DiskCache.env) : string :=
  DiskCache.tmp_base e +:+ DiskCache._fs_transaction_suffix.

End BackendSpec.

(** ** More concrete runs *)

Module MoreRuns.

(** a new instance after [set("a", 1, 100)] at time 0 *)
Definition one_entry : RamCache.t :=
  exec (RamCache.set "a" (PInt 1) (DNum 100) 0 0) (RamCache.init "" 500 300).

(** the class after [set("k", 1, 100)] at time 0 through a new
    instance without prefix *)
Definition shared_one_entry : RamCacheClass.shared :=
  (exec (RamCacheClass.set "k" (PInt 1) (DNum 100) 0 0)
     (RamCacheClass.new "" 500 300, RamCacheClass.empty)).2.

(** the decorator of [app.views.index], no key given, duration 60 *)
Definition decorated_f : CacheDecorator.wrapper :=
  CacheDecorator.__call__ (CacheDecorator.init None (DNum 60))
    "app.views" "index".

(** the key of the call [index(1, b="2", a=None)] *)
Definition decorated_f_key : string :=
  match CacheDecorator.wrap_key decorated_f [PInt 1]
          [("b", PStr "2"); ("a", PNone)] with
  | Ret k => k
  | Raise _ => ""
  end.

(** two requests for the route [index]: another host name, the query
    parameters in another order, another [accept] header *)
Definition route_a : RouteCacheRule.Route :=
  {| RouteCacheRule.name := "index";
     RouteCacheRule.hostname := PStr "a.example" |}.
Definition route_b : RouteCacheRule.Route :=
  {| RouteCacheRule.name := "index";
     RouteCacheRule.hostname := PStr "b.example" |}.
Definition request_a : RouteCacheRule.Current :=
  {| RouteCacheRule.language := PStr "en";
     RouteCacheRule.request :=
       {| RouteCacheRule.query_params :=
            PDict [("page", PStr "2"); ("q", PStr "x")];
          RouteCacheRule.headers := PDict [("accept", PStr "text/html")] |} |}.
Definition request_b : RouteCacheRule.Current :=
  {| RouteCacheRule.language := PStr "en";
     RouteCacheRule.request :=
       {| RouteCacheRule.query_params :=
            PDict [("q", PStr "x"); ("page", PStr "2")];
          RouteCacheRule.headers := PDict [("accept", PStr "*/*")] |} |}.

End MoreRuns.

(** * Properties *)

(** ** The runtime *)

Section runtime_facts.
Context {T : Type}.
Implicit Types (l heap : list T) (x a b : T).

Lemma insert_cons_perm l j a b :
  l !! j = Some b → b :: <[j := a]> l ≡ₚ a :: l.
Proof.
  revert j; induction l as [|y l IH]; intros [|j] Hj; simplify_eq/=.
  - apply Permutation_swap.
  - rewrite (Permutation_swap y b), (IH j Hj). apply Permutation_swap.
Qed.

(** exchanging two cells keeps the content *)
Lemma insert_swap_perm l i j a b :
  l !! i = Some a → l !! j = Some b → i ≠ j →
  <[j := a]> (<[i := b]> l) ≡ₚ l.
Proof.
  revert i j; induction l as [|y l IH]; intros [|i] [|j] Hi Hj Hne;
    simplify_eq/=.
  - by apply insert_cons_perm.
  - rewrite (insert_cons_perm l i b a Hi). done.
  - f_equiv. apply IH; auto.
Qed.

Lemma move_hole_perm l i j a b :
  l !! j = Some b → i ≠ j → i < length l →
  <[j := a]> (<[i := b]> l) ≡ₚ <[i := a]> l.
Proof.
  intros Hj Hne Hi.
  rewrite <- (list_insert_insert_eq l i b a).
  apply insert_swap_perm; [|by rewrite list_lookup_insert_ne|done].
  by apply list_lookup_insert_eq.
Qed.

Context (lt : T → T → bool).

Lemma _siftdown_loop_perm fuel heap startpos pos x :
  pos < length heap →
  _siftdown_loop lt fuel heap startpos pos x ≡ₚ <[pos := x]> heap.
Proof.
  revert heap pos; induction fuel as [|fuel IH]; intros heap pos Hpos;
    simpl; [done|].
  destruct (Nat.ltb_spec startpos pos) as [Hlt|]; [|done].
  destruct (heap !! Nat.div2 (pos - 1)) as [parent|] eqn:Hp; [|done].
  destruct (lt x parent); [|done].
  assert (Nat.div2 (pos - 1) < pos) as Hdiv.
  { pose proof (Nat.div2_decr (pos - 1) (pos - 1)). lia. }
  rewrite IH by (rewrite length_insert; lia).
  apply move_hole_perm; [done|lia|done].
Qed.

Lemma _siftdown_perm heap startpos pos :
  _siftdown lt heap startpos pos ≡ₚ heap.
Proof.
  unfold _siftdown. destruct (heap !! pos) as [x|] eqn:Hx; [|done].
  rewrite _siftdown_loop_perm by (by eapply lookup_lt_Some).
  by rewrite list_insert_id.
Qed.

(** [heappush] adds exactly the pushed item *)
Lemma heappush_perm heap x : heappush lt heap x ≡ₚ x :: heap.
Proof.
  unfold heappush. rewrite _siftdown_perm.
  by rewrite Permutation_app_comm.
Qed.

Lemma heappush_elem heap x : x ∈ heappush lt heap x.
Proof. rewrite heappush_perm. left. Qed.

Lemma heappush_length heap x :
  length (heappush lt heap x) = S (length heap).
Proof. by rewrite heappush_perm. Qed.

(** the number of turns of the loop of [_siftdown] is at most [pos] *)
Lemma _siftdown_loop_fuel fuel heap startpos pos x :
  pos ≤ fuel →
  _siftdown_loop lt fuel heap startpos pos x
  = _siftdown_loop lt pos heap startpos pos x.
Proof.
  revert fuel heap. induction (lt_wf pos) as [pos _ IH].
  intros fuel heap Hfuel. destruct pos as [|pos].
  { by destruct fuel. }
  destruct fuel as [|fuel]; [lia|]. simpl.
  destruct (Nat.ltb startpos (S pos)); [|done].
  destruct (heap !! Nat.div2 (pos - 0)) as [parent|]; [|done].
  destruct (lt x parent); [|done].
  assert (Nat.div2 (pos - 0) ≤ pos) as Hdiv.
  { pose proof (Nat.div2_decr (pos - 0) pos). lia. }
  rewrite (IH (Nat.div2 (pos - 0))) by lia.
  symmetry. apply IH; lia.
Qed.

Lemma _siftup_loop_perm fuel heap pos x :
  pos < length heap →
  pos ≤ (_siftup_loop lt fuel heap pos).2
  ∧ (_siftup_loop lt fuel heap pos).2
    < length (_siftup_loop lt fuel heap pos).1
  ∧ <[(_siftup_loop lt fuel heap pos).2 := x]>
      (_siftup_loop lt fuel heap pos).1 ≡ₚ <[pos := x]> heap.
Proof.
  revert heap pos; induction fuel as [|fuel IH]; intros heap pos Hpos;
    simpl; [done|].
  destruct (Nat.ltb_spec (pos + (pos + 0) + 1) (length heap)) as [Hc|];
    [|done].
  assert (∀ child c, pos < child → heap !! child = Some c →
            pos ≤ (_siftup_loop lt fuel (<[pos := c]> heap) child).2
            ∧ (_siftup_loop lt fuel (<[pos := c]> heap) child).2
              < length (_siftup_loop lt fuel (<[pos := c]> heap) child).1
            ∧ <[(_siftup_loop lt fuel (<[pos := c]> heap) child).2 := x]>
                (_siftup_loop lt fuel (<[pos := c]> heap) child).1
              ≡ₚ <[pos := x]> heap) as Hstep.
  { intros child c Hlt Hchild.
    destruct (IH (<[pos := c]> heap) child) as (Hle & Hlen & Hperm).
    { rewrite length_insert. by eapply lookup_lt_Some. }
    split; [lia|]. split; [done|].
    rewrite Hperm. apply move_hole_perm; [done|lia|done]. }
  destruct (heap !! (pos + (pos + 0) + 1)) as [c|] eqn:Hl;
    [|apply lookup_ge_None in Hl; lia].
  destruct (heap !! (pos + (pos + 0) + 1 + 1)) as [r|] eqn:Hr.
  - destruct (negb (lt c r)).
    + rewrite Hr. apply Hstep; [lia|done].
    + rewrite Hl. apply Hstep; [lia|done].
  - rewrite Hl. apply Hstep; [lia|done].
Qed.

Lemma _siftup_perm heap pos : _siftup lt heap pos ≡ₚ heap.
Proof.
  unfold _siftup. destruct (heap !! pos) as [x|] eqn:Hx; [|done].
  pose proof (_siftup_loop_perm (length heap) heap pos x
                (lookup_lt_Some _ _ _ Hx)) as (_ & _ & Hperm).
  destruct (_siftup_loop lt (length heap) heap pos) as [heap' pos'].
  simpl in Hperm. rewrite _siftdown_perm, Hperm. by rewrite list_insert_id.
Qed.

(** the loop of [_siftup] makes at most [length heap - pos] turns *)
Lemma _siftup_loop_fuel fuel fuel' heap pos :
  length heap - pos ≤ fuel → length heap - pos ≤ fuel' →
  _siftup_loop lt fuel heap pos = _siftup_loop lt fuel' heap pos.
Proof.
  revert fuel' heap pos; induction fuel as [|fuel IH];
    intros fuel' heap pos Hf Hf'.
  - destruct fuel' as [|fuel']; [done|]. simpl.
    by destruct (Nat.ltb_spec (pos + (pos + 0) + 1) (length heap)); [lia|].
  - destruct fuel' as [|fuel']; simpl.
    { by destruct (Nat.ltb_spec (pos + (pos + 0) + 1) (length heap));
        [lia|]. }
    destruct (Nat.ltb_spec (pos + (pos + 0) + 1) (length heap)); [|done].
    assert (∀ child c, pos < child →
              _siftup_loop lt fuel (<[pos := c]> heap) child
              = _siftup_loop lt fuel' (<[pos := c]> heap) child) as Hstep.
    { intros child c Hlt. apply IH; rewrite length_insert; lia. }
    destruct (heap !! (pos + (pos + 0) + 1)) as [c|] eqn:Hl;
      [|apply lookup_ge_None in Hl; lia].
    destruct (heap !! (pos + (pos + 0) + 1 + 1)) as [r|] eqn:Hr.
    + destruct (negb (lt c r)).
      * rewrite Hr. apply Hstep. lia.
      * rewrite Hl. apply Hstep. lia.
    + rewrite Hl. apply Hstep. lia.
Qed.

(** [heappop] takes exactly the returned item out, and only fails on an
    empty heap *)
Lemma heappop_perm heap x heap' :
  heappop lt heap = Ret (x, heap') → heap ≡ₚ x :: heap'.
Proof.
  unfold heappop. destruct (last heap) as [lastelt|] eqn:Hlast; [|done].
  apply last_Some in Hlast as [l ->]. rewrite removelast_last.
  destruct l as [|returnitem rest]; intros [= <- <-]; [done|].
  rewrite _siftup_perm. simpl. f_equiv. by rewrite Permutation_app_comm.
Qed.

Lemma heappop_nonempty heap :
  heap ≠ [] → ∃ x heap', heappop lt heap = Ret (x, heap').
Proof.
  intros Hne. unfold heappop.
  destruct (last heap) as [lastelt|] eqn:Hlast.
  - destruct (removelast heap); eauto.
  - by apply last_None in Hlast.
Qed.

Lemma heappop_length heap x heap' :
  heappop lt heap = Ret (x, heap') → length heap = S (length heap').
Proof. intros Hp%heappop_perm. by rewrite Hp. Qed.

Context `{EqDecision T}.

Lemma list_remove_elem l x : x ∈ l → ∃ l', list_remove x l = Ret l'.
Proof.
  induction l as [|y l IH]; [by intros ?%not_elem_of_nil|].
  intros Hx. simpl. destruct (decide (y = x)); [by eauto|].
  apply elem_of_cons in Hx as [->|Hx]; [done|].
  destruct (IH Hx) as [l' ->]. eauto.
Qed.

Lemma list_remove_perm l x l' : list_remove x l = Ret l' → l ≡ₚ x :: l'.
Proof.
  revert l'; induction l as [|y l IH]; intros l'; simpl; [done|].
  destruct (decide (y = x)) as [->|]; [by intros [= ->]|].
  destruct (list_remove x l) as [r|] eqn:Hr; [|done].
  intros [= <-]. rewrite (IH r eq_refl). apply Permutation_swap.
Qed.

Lemma list_remove_not_elem l x : x ∉ l → list_remove x l = Raise ValueError.
Proof.
  induction l as [|y l IH]; [done|].
  intros [? ?]%not_elem_of_cons. simpl.
  destruct (decide (y = x)); [done|]. by rewrite IH.
Qed.
End runtime_facts.

Section sha1_facts.
(** the block loop never needs more turns than there are bytes *)
Lemma sha1_blocks_fuel fuel fuel' h bs :
  length bs ≤ fuel → length bs ≤ fuel' →
  sha1_blocks fuel h bs = sha1_blocks fuel' h bs.
Proof.
  remember (length bs) as n eqn:Hn.
  assert (length bs ≤ n) as Hle by lia. clear Hn.
  revert bs fuel fuel' h Hle. induction n as [|n IH];
    intros bs fuel fuel' h Hle Hf Hf'.
  { destruct bs; [|simpl in Hle; lia]. by destruct fuel, fuel'. }
  destruct bs as [|b bs]; [by destruct fuel, fuel'|].
  destruct fuel as [|fuel]; [lia|]. destruct fuel' as [|fuel']; [lia|].
  cbn [sha1_blocks].
  assert (length (drop 64 (b :: bs)) ≤ n) as Hd.
  { rewrite length_drop. simpl in *. lia. }
  apply IH; simpl in *; lia.
Qed.

(** the test vectors of the standard for the empty message and ["abc"] *)
Lemma sha1_test_vectors :
  sha1_hexdigest "" = "da39a3ee5e6b4b0d3255bfef95601890afd80709"
  ∧ sha1_hexdigest "abc" = "a9993e364706816aba3e25717850c26c9cd0d89d".
Proof. vm_compute. done. Qed.
End sha1_facts.

Section monad_facts.
Context {St A B : Type}.

Lemma bind_run (m : M St A) (k : A → M St B) s :
  (m ≫= k) s = match m s with
               | (Ret a, s') => k a s'
               | (Raise e, s') => (Raise e, s')
               end.
Proof. reflexivity. Qed.

Lemma bind_Ret_inv (m : M St A) (k : A → M St B) s b s' :
  (m ≫= k) s = (Ret b, s') →
  ∃ a s1, m s = (Ret a, s1) ∧ k a s1 = (Ret b, s').
Proof.
  rewrite bind_run. destruct (m s) as [[a|e] s1]; [eauto|done].
Qed.
End monad_facts.

Ltac inv_bind H :=
  let a := fresh "a" in
  let s := fresh "s" in
  let H1 := fresh "Hrun" in
  apply bind_Ret_inv in H as (a & s & H1 & H).

(** ** RamCache *)

Module RamCacheFacts.
Import RamCache.


#[local] Instance same_config_refl : Reflexive same_config.
Proof. by intros c. Qed.
#[local] Instance same_config_trans : Transitive same_config.
Proof. intros a b c (?&?&?) (?&?&?). repeat split; congruence. Qed.


Lemma keeps_config_bind {A B} (m : M t A) (k : A → M t B) :
  keeps_config m → (∀ a, keeps_config (k a)) → keeps_config (m ≫= k).
Proof.
  intros Hm Hk c. rewrite bind_run. specialize (Hm c).
  destruct (m c) as [[a|e] c1]; simpl in *; [|done].
  etrans; [exact Hm|apply Hk].
Qed.

Lemma keeps_config_ret {A} (a : A) : keeps_config (mret a).
Proof. by intros c. Qed.
Lemma keeps_config_gets {A} (f : t → A) : keeps_config (gets f).
Proof. by intros c. Qed.
Lemma keeps_config_lift {A} (r : res A) : keeps_config (lift r).
Proof. by intros c. Qed.
Lemma keeps_config_data_getitem k : keeps_config (data_getitem k).
Proof. intros c. unfold data_getitem. by destruct (data c !! k). Qed.
Lemma keeps_config_data_delitem k : keeps_config (data_delitem k).
Proof. intros c. unfold data_delitem. by destruct (data c !! k). Qed.
Lemma keeps_config_data_setitem k e : keeps_config (data_setitem k e).
Proof. by intros c. Qed.
Lemma keeps_config_heappop_exp : keeps_config heappop_exp.
Proof.
  intros c. unfold heappop_exp.
  by destruct (heappop tuple_lt (_heap_exp c)) as [[??]|].
Qed.
Lemma keeps_config_heappop_acc : keeps_config heappop_acc.
Proof.
  intros c. unfold heappop_acc.
  by destruct (heappop tuple_lt (_heap_acc c)) as [[??]|].
Qed.
Lemma keeps_config_heappush_exp x : keeps_config (heappush_exp x).
Proof. by intros c. Qed.
Lemma keeps_config_heappush_acc x : keeps_config (heappush_acc x).
Proof. by intros c. Qed.
Lemma keeps_config_heap_exp_remove x : keeps_config (heap_exp_remove x).
Proof.
  intros c. unfold heap_exp_remove. by destruct (list_remove x (_heap_exp c)).
Qed.
Lemma keeps_config_heap_acc_remove x : keeps_config (heap_acc_remove x).
Proof.
  intros c. unfold heap_acc_remove. by destruct (list_remove x (_heap_acc c)).
Qed.

Create HintDb keeps_config discriminated.
#[local] Hint Resolve keeps_config_ret keeps_config_gets keeps_config_lift
  keeps_config_data_getitem keeps_config_data_delitem
  keeps_config_data_setitem keeps_config_heappop_exp
  keeps_config_heappop_acc keeps_config_heappush_exp
  keeps_config_heappush_acc keeps_config_heap_exp_remove
  keeps_config_heap_acc_remove : keeps_config.

Lemma keeps_config__prune_expired fuel now :
  keeps_config (_prune_expired fuel now).
Proof.
  induction fuel as [|fuel IH]; simpl; [auto with keeps_config|].
  apply keeps_config_bind; [auto with keeps_config|]. intros [|x h].
  { auto with keeps_config. }
  apply keeps_config_bind; [auto with keeps_config|]. intros [exp_ rk].
  destruct (exp_ <? now)%Z; [|auto with keeps_config].
  repeat (apply keeps_config_bind; [auto with keeps_config|]; intros ?).
  exact IH.
Qed.

Lemma keeps_config__prune_exceeding fuel :
  keeps_config (_prune_exceeding fuel).
Proof.
  induction fuel as [|fuel IH]; simpl; [auto with keeps_config|].
  apply keeps_config_bind; [auto with keeps_config|]. intros n.
  apply keeps_config_bind; [auto with keeps_config|]. intros th.
  destruct (th <? n)%Z; [|auto with keeps_config].
  apply keeps_config_bind; [auto with keeps_config|]. intros [? rk].
  repeat (apply keeps_config_bind; [auto with keeps_config|]; intros ?).
  exact IH.
Qed.

Lemma keeps_config__prune now : keeps_config (_prune now).
Proof.
  unfold _prune.
  apply keeps_config_bind; [auto with keeps_config|]. intros n1.
  apply keeps_config_bind; [apply keeps_config__prune_expired|]. intros _.
  apply keeps_config_bind; [auto with keeps_config|]. intros n2.
  apply keeps_config__prune_exceeding.
Qed.

#[local] Arguments heappop : simpl never.
#[local] Arguments heappush : simpl never.
#[local] Arguments list_remove : simpl never.
#[local] Arguments heappop_acc : simpl never.
#[local] Arguments heappop_exp : simpl never.
#[local] Arguments heap_acc_remove : simpl never.
#[local] Arguments heap_exp_remove : simpl never.
#[local] Arguments data_getitem : simpl never.
#[local] Arguments data_delitem : simpl never.

Ltac mstep := rewrite bind_run; simpl.
Tactic Notation "mstep" "in" hyp(H) := rewrite bind_run in H; simpl in H.

(** the second loop of [_prune] ends with at most [_threshold] entries *)
Lemma _prune_exceeding_size fuel c c' :
  size (data c) < fuel →
  _prune_exceeding fuel c = (Ret tt, c') →
  (Z.of_nat (size (data c')) ≤ _threshold c')%Z.
Proof.
  revert c; induction fuel as [|fuel IH]; intros c Hfuel; [lia|].
  simpl. do 2 mstep.
  destruct (Z.ltb_spec (_threshold c) (Z.of_nat (size (data c))))
    as [Hgt|Hle]; [|by intros [= <-]].
  mstep. unfold heappop_acc at 1.
  destruct (heappop tuple_lt (_heap_acc c)) as [[[? rk] h]|]; [|done].
  mstep. unfold data_getitem at 1. simpl.
  destruct (data c !! rk) as [el|] eqn:Hrk; [|done].
  mstep. unfold heap_exp_remove at 1. simpl.
  destruct (list_remove (exp el, rk) (_heap_exp c)) as [h'|]; [|done].
  mstep. unfold data_delitem at 1. simpl. rewrite Hrk.
  apply IH. simpl.
  pose proof (map_size_delete rk (data c)) as Hs. rewrite Hrk in Hs.
  simpl in Hs. assert (size (data c) ≠ 0); [|lia].
  intros Hz%map_size_empty_inv. by rewrite Hz in Hrk.
Qed.

Lemma _prune_size now c c' :
  _prune now c = (Ret tt, c') →
  (Z.of_nat (size (data c')) ≤ _threshold c)%Z.
Proof.
  intros Hrun. pose proof (keeps_config__prune now c) as (_ & Hth & _).
  rewrite Hrun in Hth. simpl in Hth. rewrite <- Hth. clear Hth.
  unfold _prune in Hrun. inv_bind Hrun. inv_bind Hrun. inv_bind Hrun.
  unfold gets in *. simplify_eq.
  eapply _prune_exceeding_size; [|exact Hrun]. lia.
Qed.

(** what a [set] that returns has done *)
Lemma set_Ret_inv key val d now pnow c c' :
  set key val d now pnow c = (Ret tt, c') →
  ∃ kw cp,
    _convert_duration_ (_default_expire c) d now = Ret kw
    ∧ _prune pnow c = (Ret tt, cp)
    ∧ c' = with_data
             (<[_prefix c +:+ key :=
                  {| value := val; exp := kw_expiration kw;
                     acc := kw_now kw |}]>)
             (with_heap_acc
                (heappush tuple_lt (_heap_acc cp)
                   (kw_now kw, _prefix c +:+ key))
                (with_heap_exp
                   (heappush tuple_lt (_heap_exp cp)
                      (kw_expiration kw, _prefix c +:+ key)) cp)).
Proof.
  unfold set. intros Hrun. do 2 mstep in Hrun.
  destruct (_convert_duration_ (_default_expire c) d now) as [kw|] eqn:Hkw;
    [|done].
  rewrite bind_run in Hrun. simpl in Hrun.
  rewrite bind_run in Hrun.
  destruct (_prune pnow c) as [[[]|] cp] eqn:Hp; [|done].
  exists kw, cp. split; [done|]. split; [done|].
  by injection Hrun as <-.
Qed.

(** a [set] that returns makes the value readable until it expires *)
Lemma ram_get_after_set key val d now pnow c c' now' :
  set key val d now pnow c = (Ret tt, c') →
  (now' ≤ now + match d with
                | DNone => one_year
                | DStr _ => _default_expire c
                | DNum z => z
                end)%Z →
  (get key now' c').1 = Ret val.
Proof.
  intros (kw & cp & Hkw & Hp & ->)%set_Ret_inv Hnow.
  pose proof (keeps_config__prune pnow c) as (Hpfx & _ & _).
  rewrite Hp in Hpfx. simpl in Hpfx.
  assert (kw_now kw = now ∧ (now' ≤ kw_expiration kw)%Z) as [Hn Hexp].
  { unfold _convert_duration_ in Hkw.
    destruct d as [|s|z]; simpl in Hkw; [| |by simplify_eq/=].
    - by simplify_eq/=.
    - destruct (decide (s = "default")); by simplify_eq/=. }
  unfold get. mstep. rewrite Hpfx. unfold try_except.
  mstep. unfold data_getitem at 1. simpl. rewrite lookup_insert_eq. simpl.
  destruct (Z.ltb_spec (kw_expiration kw) now') as [|_]; [lia|].
  mstep. unfold heap_acc_remove at 1. simpl.
  destruct (list_remove_elem
              (heappush tuple_lt (_heap_acc cp) (kw_now kw, _prefix c +:+ key))
              (kw_now kw, _prefix c +:+ key)) as [h' ->];
    [apply heappush_elem|].
  by repeat mstep.
Qed.

(** a [set] that returns leaves at most [_threshold + 1] entries: the
    pruning pass runs first and stops at [_threshold] *)
Lemma set_size key val d now pnow c c' :
  set key val d now pnow c = (Ret tt, c') →
  (Z.of_nat (size (data c')) ≤ _threshold c + 1)%Z.
Proof.
  intros (kw & cp & Hkw & Hp & ->)%set_Ret_inv. simpl.
  apply _prune_size in Hp.
  pose proof (map_size_insert (_prefix c +:+ key)
    {| value := val; exp := kw_expiration kw; acc := kw_now kw |} (data cp))
    as Hs.
  rewrite Hs. destruct (data cp !! (_prefix c +:+ key)); simpl; lia.
Qed.

(** [get] on a key that is not in [data] is a miss *)
Lemma get_miss key now c :
  data c !! (_prefix c +:+ key) = None → get key now c = (Ret PNone, c).
Proof.
  intros Hk. unfold get. mstep. unfold try_except. mstep.
  unfold data_getitem at 1. by rewrite Hk.
Qed.

(** after a [set] of [None] that returns, [get] gives [None] at any time *)
Lemma get_None_after_set key d now pnow c c' now' :
  set key PNone d now pnow c = (Ret tt, c') →
  (get key now' c').1 = Ret PNone.
Proof.
  intros Hset.
  destruct (Z.le_gt_cases now'
              (now + match d with
                     | DNone => one_year
                     | DStr _ => _default_expire c
                     | DNum z => z
                     end)) as [Hle|Hgt].
  { by eapply ram_get_after_set. }
  apply set_Ret_inv in Hset as (kw & cp & Hkw & Hp & ->).
  pose proof (keeps_config__prune pnow c) as (Hpfx & _ & _).
  rewrite Hp in Hpfx. simpl in Hpfx.
  assert (kw_expiration kw < now')%Z as Hexp.
  { unfold _convert_duration_ in Hkw.
    destruct d as [|s|z]; simpl in Hkw; [| |by simplify_eq/=].
    - by simplify_eq/=.
    - destruct (decide (s = "default")); by simplify_eq/=. }
  unfold get. mstep. rewrite Hpfx. unfold try_except.
  mstep. unfold data_getitem at 1. simpl.
  rewrite lookup_insert_eq. simpl.
  destruct (Z.ltb_spec (kw_expiration kw) now'); [done|lia].
Qed.

(** *** The bounds on the number of turns of the two loops *)

(** each turn of the first loop shortens [_heap_exp]: more turns than
    its length are never used *)
Lemma _prune_expired_fuel fuel fuel' now c :
  length (_heap_exp c) < fuel → length (_heap_exp c) < fuel' →
  _prune_expired fuel now c = _prune_expired fuel' now c.
Proof.
  revert fuel' c; induction fuel as [|fuel IH]; intros fuel' c Hf Hf';
    [lia|].
  destruct fuel' as [|fuel']; [lia|]. simpl. repeat mstep.
  destruct (_heap_exp c) as [|x0 h0] eqn:Hheap; [done|].
  repeat mstep. unfold heappop_exp. rewrite Hheap.
  destruct (heappop tuple_lt (x0 :: h0)) as [[[exp_ rk] h]|] eqn:Hpop;
    [|done].
  apply heappop_length in Hpop. simpl in Hpop, Hf, Hf'.
  destruct (exp_ <? now)%Z; [|done].
  repeat mstep. unfold data_getitem. simpl.
  destruct (data c !! rk) as [el|] eqn:Hrk; [|done].
  repeat mstep. unfold heap_acc_remove. simpl.
  destruct (list_remove (acc el, rk) (_heap_acc c)) as [hacc|]; [|done].
  repeat mstep. unfold data_delitem. simpl. rewrite Hrk.
  apply IH; simpl; lia.
Qed.

(** each turn of the second loop removes an entry: more turns than the
    size of the map are never used *)
Lemma _prune_exceeding_fuel fuel fuel' c :
  size (data c) < fuel → size (data c) < fuel' →
  _prune_exceeding fuel c = _prune_exceeding fuel' c.
Proof.
  revert fuel' c; induction fuel as [|fuel IH]; intros fuel' c Hf Hf';
    [lia|].
  destruct fuel' as [|fuel']; [lia|]. simpl. repeat mstep.
  destruct (_threshold c <? Z.of_nat (size (data c)))%Z; [|done].
  repeat mstep. unfold heappop_acc.
  destruct (heappop tuple_lt (_heap_acc c)) as [[[? rk] h]|]; [|done].
  repeat mstep. unfold data_getitem. simpl.
  destruct (data c !! rk) as [el|] eqn:Hrk; [|done].
  repeat mstep. unfold heap_exp_remove. simpl.
  destruct (list_remove (exp el, rk) (_heap_exp c)) as [hexp|]; [|done].
  repeat mstep. unfold data_delitem. simpl. rewrite Hrk.
  pose proof (map_size_delete rk (data c)) as Hs. rewrite Hrk in Hs.
  simpl in Hs.
  assert (size (data c) ≠ 0).
  { intros Hz%map_size_empty_inv. by rewrite Hz in Hrk. }
  apply IH; simpl; lia.
Qed.

(** *** The state in which each heap holds one tuple per entry *)

Lemma tuples_of_elem f m t k :
  (t, k) ∈ tuples_of f m ↔ ∃ e, m !! k = Some e ∧ f e = t.
Proof.
  unfold tuples_of. rewrite list_elem_of_fmap. split.
  - intros ([k' e] & [= -> ->] & Hin%elem_of_map_to_list). eauto.
  - intros (e & Hk & <-). exists (k, e). split; [done|].
    by apply elem_of_map_to_list.
Qed.

Lemma tuples_of_delete f m k e :
  m !! k = Some e → tuples_of f m ≡ₚ (f e, k) :: tuples_of f (delete k m).
Proof.
  intros Hk. unfold tuples_of. by rewrite <- (map_to_list_delete m k e Hk).
Qed.

Lemma tuples_of_insert_fresh f m k e :
  m !! k = None → tuples_of f (<[k := e]> m) ≡ₚ (f e, k) :: tuples_of f m.
Proof.
  intros Hk. unfold tuples_of. by rewrite (map_to_list_insert m k e Hk).
Qed.

Lemma tuples_of_insert f m k e :
  tuples_of f (<[k := e]> m) ≡ₚ (f e, k) :: tuples_of f (delete k m).
Proof.
  rewrite <- insert_delete_eq. apply tuples_of_insert_fresh.
  apply lookup_delete_eq.
Qed.

Lemma tuples_of_empty f : tuples_of f ∅ = [].
Proof. unfold tuples_of. by rewrite map_to_list_empty. Qed.

Lemma consistent_init prefix threshold default_expire :
  consistent (init prefix threshold default_expire).
Proof. split; simpl; by rewrite tuples_of_empty. Qed.

(** dropping an entry together with its two tuples *)
Lemma consistent_delete c k e hexp hacc :
  consistent c → data c !! k = Some e →
  _heap_exp c ≡ₚ (exp e, k) :: hexp →
  _heap_acc c ≡ₚ (acc e, k) :: hacc →
  consistent (with_data (delete k) (with_heap_acc hacc (with_heap_exp hexp c))).
Proof.
  intros [He Ha] Hk Hexp Hacc. split; simpl.
  - rewrite (tuples_of_delete exp _ k e Hk), Hexp in He.
    by apply Permutation_cons_inv in He.
  - rewrite (tuples_of_delete acc _ k e Hk), Hacc in Ha.
    by apply Permutation_cons_inv in Ha.
Qed.

Lemma consistent_tuple_exp c t k :
  consistent c → (t, k) ∈ _heap_exp c →
  ∃ e, data c !! k = Some e ∧ exp e = t ∧ (acc e, k) ∈ _heap_acc c.
Proof.
  intros [He Ha] Hin. rewrite He in Hin.
  apply tuples_of_elem in Hin as (e & Hk & <-). exists e.
  split; [done|]. split; [done|]. rewrite Ha. apply tuples_of_elem. eauto.
Qed.

Lemma consistent_tuple_acc c t k :
  consistent c → (t, k) ∈ _heap_acc c →
  ∃ e, data c !! k = Some e ∧ acc e = t ∧ (exp e, k) ∈ _heap_exp c.
Proof.
  intros [He Ha] Hin. rewrite Ha in Hin.
  apply tuples_of_elem in Hin as (e & Hk & <-). exists e.
  split; [done|]. split; [done|]. rewrite He. apply tuples_of_elem. eauto.
Qed.

(** from such a state the first loop of [_prune] runs to its end and
    keeps the state such *)
Lemma _prune_expired_consistent fuel now c :
  consistent c →
  ∃ c', _prune_expired fuel now c = (Ret tt, c') ∧ consistent c'.
Proof.
  revert c; induction fuel as [|fuel IH]; intros c Hc; simpl.
  { by exists c. }
  mstep. destruct (_heap_exp c) as [|x0 h0] eqn:Hheap.
  { by exists c. }
  mstep. unfold heappop_exp at 1. rewrite Hheap.
  destruct (heappop_nonempty tuple_lt (x0 :: h0)) as ([exp_ rk] & h & Hpop);
    [done|].
  rewrite Hpop. simpl.
  pose proof (heappop_perm _ _ _ _ Hpop) as Hperm. rewrite <- Hheap in Hperm.
  destruct (consistent_tuple_exp c exp_ rk Hc) as (e & Hk & <- & Hacc).
  { rewrite Hperm. left. }
  destruct (Z.ltb_spec (exp e) now) as [Hexp|Hlive].
  - mstep. unfold data_getitem at 1. simpl. rewrite Hk. simpl.
    mstep. unfold heap_acc_remove at 1. simpl.
    destruct (list_remove_elem _ _ Hacc) as [hacc Hrem]. rewrite Hrem. simpl.
    mstep. unfold data_delitem at 1. simpl. rewrite Hk. simpl.
    apply IH.
    apply (consistent_delete c rk e h hacc Hc Hk Hperm).
    by apply list_remove_perm.
  - eexists. split; [done|]. destruct Hc as [He Ha]. split; simpl; [|done].
    by rewrite heappush_perm, <- Hperm.
Qed.

(** so does the second loop, for a threshold that is not negative *)
Lemma _prune_exceeding_consistent fuel c :
  consistent c → (0 ≤ _threshold c)%Z →
  ∃ c', _prune_exceeding fuel c = (Ret tt, c') ∧ consistent c'.
Proof.
  revert c; induction fuel as [|fuel IH]; intros c Hc Hth; simpl.
  { by exists c. }
  do 2 mstep.
  destruct (Z.ltb_spec (_threshold c) (Z.of_nat (size (data c))))
    as [Hgt|Hle]; [|by exists c].
  assert (_heap_acc c ≠ []) as Hne.
  { destruct Hc as [_ Ha]. intros Hnil. rewrite Hnil in Ha.
    symmetry in Ha. apply Permutation_nil_r in Ha.
    unfold tuples_of in Ha. apply fmap_nil_inv in Ha.
    apply map_to_list_empty_iff in Ha. rewrite Ha, map_size_empty in Hgt.
    lia. }
  mstep. unfold heappop_acc at 1.
  destruct (heappop_nonempty tuple_lt _ Hne) as ([acc_ rk] & h & Hpop).
  rewrite Hpop. simpl.
  pose proof (heappop_perm _ _ _ _ Hpop) as Hperm.
  destruct (consistent_tuple_acc c acc_ rk Hc) as (e & Hk & <- & Hexp).
  { rewrite Hperm. left. }
  mstep. unfold data_getitem at 1. simpl. rewrite Hk. simpl.
  mstep. unfold heap_exp_remove at 1. simpl.
  destruct (list_remove_elem _ _ Hexp) as [hexp Hrem]. rewrite Hrem. simpl.
  mstep. unfold data_delitem at 1. simpl. rewrite Hk. simpl.
  apply IH; [|done].
  pose proof (consistent_delete c rk e hexp h Hc Hk
                (list_remove_perm _ _ _ Hrem) Hperm) as Hc'.
  destruct Hc' as [He' Ha']. by split.
Qed.

Lemma _prune_consistent now c :
  consistent c → (0 ≤ _threshold c)%Z →
  ∃ c', _prune now c = (Ret tt, c') ∧ consistent c'.
Proof.
  intros Hc Hth. unfold _prune. rewrite bind_run. unfold gets at 1.
  generalize (S (length (_heap_exp c))). intros n1.
  destruct (_prune_expired_consistent n1 now c Hc) as (c1 & Hrun1 & Hc1).
  rewrite bind_run, Hrun1. rewrite bind_run. unfold gets at 1.
  generalize (S (size (data c1))). intros n2.
  apply _prune_exceeding_consistent; [done|].
  pose proof (keeps_config__prune_expired n1 now c) as (_ & Hth1 & _).
  rewrite Hrun1 in Hth1. simpl in Hth1. by rewrite Hth1.
Qed.

#[local] Arguments _prune : simpl never.

(** from such a state, with a valid duration and a threshold that is not
    negative, [set] returns *)
Lemma ram_set_returns key val d now pnow c kw :
  consistent c → (0 ≤ _threshold c)%Z →
  _convert_duration_ (_default_expire c) d now = Ret kw →
  ∃ c', set key val d now pnow c = (Ret tt, c').
Proof.
  intros Hc Hth Hkw. unfold set. do 2 mstep. rewrite Hkw.
  destruct (_prune_consistent pnow c Hc Hth) as (cp & Hp & _).
  do 2 mstep. rewrite Hp. repeat mstep. by eexists.
Qed.

(** [get] keeps the state such and does not raise *)
Lemma get_consistent key now c :
  consistent c →
  ∃ v c', get key now c = (Ret v, c') ∧ consistent c'.
Proof.
  intros Hc. unfold get. mstep. unfold try_except. mstep.
  unfold data_getitem at 1. simpl.
  destruct (data c !! (_prefix c +:+ key)) as [e|] eqn:Hk; [|by eauto].
  simpl. destruct (exp e <? now)%Z; [by eauto|].
  mstep. unfold heap_acc_remove at 1. simpl.
  assert ((acc e, _prefix c +:+ key) ∈ _heap_acc c) as Hin.
  { destruct Hc as [_ ->]. apply tuples_of_elem. eauto. }
  destruct (list_remove_elem _ _ Hin) as [hacc Hrem]. rewrite Hrem. simpl.
  repeat mstep. do 2 eexists. split; [done|].
  destruct Hc as [He Ha]. apply list_remove_perm in Hrem.
  unfold set_acc. split; simpl.
  - rewrite alter_alt, Hk, tuples_of_insert, He.
    by rewrite (tuples_of_delete exp _ _ e Hk).
  - rewrite alter_alt, Hk, tuples_of_insert, heappush_perm. simpl.
    f_equiv. rewrite (tuples_of_delete acc _ _ e Hk), Hrem in Ha.
    by apply Permutation_cons_inv in Ha.
Qed.

(** so does [clear] *)
Lemma clear_consistent key c :
  consistent c →
  ∃ c', clear key c = (Ret tt, c') ∧ consistent c'.
Proof.
  intros Hc. unfold clear. mstep. destruct key as [key|]; simpl.
  - unfold try_except. mstep. unfold data_getitem at 1. simpl.
    destruct (data c !! (_prefix c +:+ key)) as [e|] eqn:Hk; [|by eauto].
    simpl. mstep. unfold heap_acc_remove at 1. simpl.
    assert ((acc e, _prefix c +:+ key) ∈ _heap_acc c) as Hina.
    { destruct Hc as [_ ->]. apply tuples_of_elem. eauto. }
    assert ((exp e, _prefix c +:+ key) ∈ _heap_exp c) as Hine.
    { destruct Hc as [-> _]. apply tuples_of_elem. eauto. }
    destruct (list_remove_elem _ _ Hina) as [hacc Hrema]. rewrite Hrema.
    simpl. mstep. unfold heap_exp_remove at 1. simpl.
    destruct (list_remove_elem _ _ Hine) as [hexp Hreme]. rewrite Hreme.
    simpl. unfold data_delitem. simpl. rewrite Hk. eexists. split; [done|].
    pose proof (consistent_delete c _ e hexp hacc Hc Hk
                  (list_remove_perm _ _ _ Hreme)
                  (list_remove_perm _ _ _ Hrema)) as [He' Ha'].
    by split.
  - repeat mstep. eexists. split; [done|].
    split; simpl; by rewrite tuples_of_empty.
Qed.

(** and so does a [set] of a key that is not in the map once [_prune]
    has run *)
Lemma set_fresh_consistent key val d now pnow c c' :
  consistent c → (0 ≤ _threshold c)%Z →
  set key val d now pnow c = (Ret tt, c') →
  data (exec (_prune pnow) c) !! (_prefix c +:+ key) = None →
  consistent c'.
Proof.
  intros Hc Hth (kw & cp & Hkw & Hp & ->)%set_Ret_inv Hfresh.
  unfold exec in Hfresh. rewrite Hp in Hfresh. simpl in Hfresh.
  destruct (_prune_consistent pnow c Hc Hth) as (cp' & Hp' & [He Ha]).
  assert (cp' = cp) as -> by congruence.
  split; simpl.
  - by rewrite heappush_perm, tuples_of_insert_fresh, He.
  - by rewrite heappush_perm, tuples_of_insert_fresh, Ha.
Qed.

End RamCacheFacts.


(** ** Claims on the memory backend *)

Module RamCacheClaims.
Import RamCache RamCacheFacts Runs.

(** C2 (memory backend invariant: both heaps and the map hold the same
    keys, one tuple per live key in each heap).  The code breaks it when a
    [set] replaces a key: [set("a",1,100)] then [set("a",2,100)] leaves two
    tuples for ["a"] in each heap and one entry in the map (the old tuples
    are never removed), so the heaps no longer hold one tuple per entry;
    once both tuples have expired the next [set] raises [KeyError] out of
    [_prune]. *)
Theorem C2_replacing_set_keeps_stale_tuples :
  _heap_exp replaced_key = [(100, "a"); (101, "a")]%Z
  ∧ _heap_acc replaced_key = [(0, "a"); (1, "a")]%Z
  ∧ map_keys replaced_key = ["a"]
  ∧ ¬ consistent replaced_key
  ∧ eval (set "b" (PInt 3) (DNum 100) 200 200) replaced_key = Raise KeyError.
Proof.
  split; [by vm_compute|]. split; [by vm_compute|]. split; [by vm_compute|].
  split; [|by vm_compute].
  intros [He _]. apply Permutation_length in He.
  vm_compute in He. discriminate.
Qed.

(** Apart from that, the invariant of C2 is kept: it holds of a new
    instance, [get] and [clear] keep it without raising, and so does a
    [set] of a key that is not in the map once [_prune] has run. *)
Lemma invariant_kept_elsewhere :
  (∀ prefix threshold default_expire,
     consistent (init prefix threshold default_expire))
  ∧ (∀ key now c, consistent c →
       ∃ v c', get key now c = (Ret v, c') ∧ consistent c')
  ∧ (∀ key c, consistent c →
       ∃ c', clear key c = (Ret tt, c') ∧ consistent c')
  ∧ (∀ key val d now pnow c c',
       consistent c → (0 ≤ _threshold c)%Z →
       set key val d now pnow c = (Ret tt, c') →
       data (exec (_prune pnow) c) !! (_prefix c +:+ key) = None →
       consistent c').
Proof.
  split; [apply consistent_init|]. split; [apply get_consistent|].
  split; [apply clear_consistent|]. apply set_fresh_consistent.
Qed.

(** Eviction does not always take the least recently accessed entry:
    [list.remove] on the heap arrays does not restore the heap order.
    In this run ["k4"] (last accessed at time 4) is evicted while ["k3"]
    (last accessed at time 3) stays. *)
Lemma eviction_out_of_order :
  eval (get "k4" 9) recency_scenario = Ret PNone
  ∧ eval (get "k3" 9) recency_scenario = Ret (PInt 3)
  ∧ length (map_keys recency_scenario) = 5.
Proof. vm_compute. done. Qed.

(** C3, as stated, fails on its own scenario: with threshold 2, after
    [set a], [set b], [get a], [set c] the map holds three entries and
    [get("b")] still returns 2. *)
Lemma C3_scenario_keeps_b :
  _threshold lru_scenario = 2%Z
  ∧ size (data lru_scenario) ≠ 2
  ∧ eval (get "b" 4) lru_scenario ≠ Ret PNone
  ∧ eval (get "b" 4) lru_scenario = Ret (PInt 2).
Proof. vm_compute. by repeat split. Qed.

(** C3, amended: pruning runs at the start of [set], before the insertion,
    and stops as soon as the map holds at most [_threshold] entries; so a
    [set] that returns leaves at most [_threshold + 1] entries.  In the
    scenario with threshold 2 nothing is evicted by [set("c",3,100)]: the
    map holds ["a"], ["b"], ["c"] and all three are readable; the next
    insertion evicts ["b"], and [get("b")] is then a miss while ["a"],
    ["c"] and the new key are readable. *)
Theorem C3_capacity_eviction :
  (∀ key val d now pnow c c',
     set key val d now pnow c = (Ret tt, c') →
     (Z.of_nat (size (data c')) ≤ _threshold c + 1)%Z)
  ∧ (size (data lru_scenario) = 3
     ∧ eval (get "a" 4) lru_scenario = Ret (PInt 1)
     ∧ eval (get "b" 4) lru_scenario = Ret (PInt 2)
     ∧ eval (get "c" 4) lru_scenario = Ret (PInt 3))
  ∧ (size (data lru_scenario_next) = 3
     ∧ eval (get "b" 5) lru_scenario_next = Ret PNone
     ∧ eval (get "a" 5) lru_scenario_next = Ret (PInt 1)
     ∧ eval (get "c" 5) lru_scenario_next = Ret (PInt 3)
     ∧ eval (get "d" 5) lru_scenario_next = Ret (PInt 4)).
Proof.
  split; [intros *; apply set_size|]. vm_compute. by repeat split.
Qed.

Lemma C3_capacity_eviction_witness :
  (Z.of_nat (size (data lru_scenario_next)) ≤ _threshold lru_scenario + 1)%Z.
Proof.
  apply (proj1 C3_capacity_eviction "d" (PInt 4) (DNum 100) 4%Z 4%Z
           lru_scenario lru_scenario_next).
  vm_compute. reflexivity.
Defined.

End RamCacheClaims.

(** ** Claims on CacheHandler *)

Module CacheHandlerClaims.
Import RamCache RamCacheFacts Producer.

(** C9 (duration normalisation): for [None], the sentinel ["default"] or
    a non-negative number, with a non-negative configured default, the
    wrapper hands the method a duration of one year of seconds, the
    configured default, or the number itself; that duration is [>= 0] and
    the expiration is [now + duration]. *)
Theorem C9_convert_duration (dflt now : Z) (d : duration) :
  (0 ≤ dflt)%Z →
  (∀ z, d = DNum z → 0 ≤ z)%Z →
  (∀ s, d = DStr s → s = "default") →
  ∃ kw,
    _convert_duration_ dflt d now = Ret kw
    ∧ kw_duration kw = match d with
                       | DNone => 31536000%Z
                       | DStr _ => dflt
                       | DNum z => z
                       end
    ∧ (0 ≤ kw_duration kw)%Z
    ∧ kw_now kw = now
    ∧ kw_expiration kw = (now + kw_duration kw)%Z.
Proof.
  intros Hd Hnum Hstr. destruct d as [|s|z]; simpl.
  - eexists; repeat split; simpl; done.
  - rewrite (Hstr s eq_refl). eexists; repeat split; simpl; done.
  - eexists; repeat split; simpl; auto.
Qed.

Lemma C9_convert_duration_witness :
  ∃ kw,
    _convert_duration_ 300 (DStr "default") 1000 = Ret kw
    ∧ kw_duration kw = 300%Z
    ∧ (0 ≤ kw_duration kw)%Z
    ∧ kw_now kw = 1000%Z
    ∧ kw_expiration kw = (1000 + kw_duration kw)%Z.
Proof.
  apply (C9_convert_duration 300 1000 (DStr "default")).
  - lia.
  - intros z [=].
  - by intros s [= <-].
Defined.

(** [get_or_set] calls the producer exactly when [get] gave [None] *)
Lemma get_or_set_calls {St E W} `{!Backend St E} (eg es : E) key
    (function : M W pyobj) d (s : St) (w : W) v s1 :
  backend_get eg key s = (Ret v, s1) →
  (exec (get_or_set eg es key function d) (s, w)).2
  = if is_none v then exec function w else w.
Proof.
  intros Hget. unfold exec, get_or_set. rewrite bind_run.
  unfold on_fst at 1. simpl. rewrite Hget.
  destruct v; simpl; try done.
  rewrite bind_run. unfold on_snd at 1. simpl.
  destruct (function w) as [[v|e] w'] eqn:Hf; simpl; [|done].
  rewrite bind_run. unfold on_fst at 1. simpl.
  by destruct (backend_set es key v d s1) as [[[]|?] ?].
Qed.

(** C10 (a stored [None] is a miss).  On the memory backend, after
    [set(k, None, d)] has returned, [get(k)] gives [None], which is what
    it gives for a key that was never set; [get_or_set] calls the producer
    whenever [get] gave [None]; hence a call of [get_or_set] that returns
    [None] has called the producer, stored its [None], and every later
    call calls the producer again. *)
Theorem C10_none_is_a_miss :
  (∀ key d now pnow c c' now',
     set key PNone d now pnow c = (Ret tt, c') →
     eval (get key now') c' = Ret PNone)
  ∧ (∀ key now c,
       data c !! (_prefix c +:+ key) = None →
       eval (get key now) c = Ret PNone)
  ∧ (∀ (eg es : ram_env) key (function : M calls pyobj) d c n c1,
       get key (t_now eg) c = (Ret PNone, c1) →
       (exec (get_or_set eg es key function d) (c, n)).2 = exec function n)
  ∧ (∀ (eg es : ram_env) key (function : M calls pyobj) d c n c' n',
       get_or_set eg es key function d (c, n) = (Ret PNone, (c', n')) →
       function n = (Ret PNone, n')
       ∧ ∀ (eg' es' : ram_env),
           (exec (get_or_set eg' es' key function d) (c', n')).2
           = exec function n').
Proof.
  split; [|split; [|split]].
  - intros key d now pnow c c' now' Hset. by eapply get_None_after_set.
  - intros key now c Hk. unfold eval. by rewrite get_miss.
  - intros eg es key function d c n c1 Hget.
    by rewrite (get_or_set_calls (Backend0 := RamCache_backend)
                 eg es key function d c n PNone c1 Hget).
  - intros eg es key function d c n c' n' Hrun.
    unfold get_or_set in Hrun. rewrite bind_run in Hrun.
    unfold on_fst at 1 in Hrun. simpl in Hrun.
    destruct (get key (t_now eg) c) as [[v0|e] c1] eqn:Hget; [|done].
    destruct v0; simpl in Hrun; try (by injection Hrun).
    rewrite bind_run in Hrun. unfold on_snd at 1 in Hrun. simpl in Hrun.
    destruct (function n) as [[v|e] n1] eqn:Hf; [|done].
    rewrite bind_run in Hrun. unfold on_fst at 1 in Hrun. simpl in Hrun.
    destruct (set key v d (t_now es) (t_prune es) c1)
      as [[[]|?] c2] eqn:Hset; [|done].
    injection Hrun as -> -> ->.
    split; [done|]. intros eg' es'.
    assert (∃ c2, get key (t_now eg') c' = (Ret PNone, c2)) as [c2 Hget2].
    { pose proof (get_None_after_set _ _ _ _ _ _ (t_now eg') Hset) as Hg.
      destruct (get key (t_now eg') c') as [r c2]. exists c2.
      simpl in Hg. by subst r. }
    by rewrite (get_or_set_calls (Backend0 := RamCache_backend)
                 eg' es' key function d c' n' PNone c2 Hget2).
Qed.

Lemma C10_none_is_a_miss_witness :
  returning PNone 0 = (Ret PNone, 1)
  ∧ ∀ eg' es' : ram_env,
      (exec (get_or_set eg' es' "k" (returning PNone) (DNum 60))
         (exec (set "k" PNone (DNum 60) 0 0) (init "" 500 300), 1)).2
      = exec (returning PNone) 1.
Proof.
  apply (proj2 (proj2 (proj2 C10_none_is_a_miss))
           {| t_now := 0; t_prune := 0 |} {| t_now := 0; t_prune := 0 |}
           "k" (returning PNone) (DNum 60) (init "" 500 300) 0).
  vm_compute. reflexivity.
Defined.

End CacheHandlerClaims.

(** ** Decimal text of integers *)

Section int_text_facts.
Lemma is_digit_not_space c : is_digit c = true → is_space c = false.
Proof.
  unfold is_digit, is_space.
  intros [H1%Nat.leb_le H2%Nat.leb_le]%andb_true_iff.
  apply orb_false_iff. split.
  - apply Nat.eqb_neq. lia.
  - apply andb_false_iff. right. apply Nat.leb_gt. lia.
Qed.

Lemma split_sign_digit c r :
  is_digit c = true → split_sign (String c r) = (false, String c r).
Proof.
  destruct c as [[] [] [] [] [] [] [] []]; try reflexivity;
    by intros [=].
Qed.

Lemma string_of_uint_digits d :
  all_digits (NilEmpty.string_of_uint d) = true.
Proof. induction d; simpl; auto. Qed.

Lemma lstrip_digits s : all_digits s = true → lstrip s = s.
Proof.
  destruct s as [|c s]; [done|]. simpl.
  intros [Hc _]%andb_true_iff. by rewrite (is_digit_not_space c Hc).
Qed.

Lemma rstrip_digits s : all_digits s = true → rstrip s = s.
Proof.
  induction s as [|c s IH]; [done|]. simpl.
  intros [Hc Hs]%andb_true_iff. rewrite (IH Hs).
  destruct s; [|done]. by rewrite (is_digit_not_space c Hc).
Qed.

Lemma string_of_uint_head d :
  d ≠ Decimal.Nil →
  ∃ c r, NilEmpty.string_of_uint d = String c r ∧ is_digit c = true.
Proof. destruct d; [done|..]; intros _; simpl; eauto. Qed.

Lemma int_of_digits d :
  d ≠ Decimal.Nil →
  int_of_bytes (NilEmpty.string_of_uint d) = Ret (Z.of_uint d).
Proof.
  intros Hd. unfold int_of_bytes.
  rewrite lstrip_digits, rstrip_digits by apply string_of_uint_digits.
  destruct (string_of_uint_head d Hd) as (c & r & Hs & Hc).
  rewrite Hs, (split_sign_digit c r Hc), <- Hs.
  replace (NilEmpty.string_of_uint d) with (NilZero.string_of_uint d)
    by (by destruct d).
  by rewrite NilZero.usu.
Qed.

Lemma int_of_minus_digits d :
  d ≠ Decimal.Nil →
  int_of_bytes (String "-" (NilEmpty.string_of_uint d))
  = Ret (- Z.of_uint d)%Z.
Proof.
  intros Hd. unfold int_of_bytes.
  change (lstrip (String "-" ?s)) with (String "-" s).
  assert (rstrip (String "-" (NilEmpty.string_of_uint d))
          = String "-" (NilEmpty.string_of_uint d)) as ->.
  { simpl. rewrite rstrip_digits by apply string_of_uint_digits.
    by destruct (NilEmpty.string_of_uint d). }
  simpl.
  replace (NilEmpty.string_of_uint d) with (NilZero.string_of_uint d)
    by (by destruct d).
  by rewrite NilZero.usu.
Qed.

(** [int(str(z).encode('ascii')) == z] *)
Lemma int_of_str z : int_of_bytes (str_of_int z) = Ret z.
Proof.
  unfold str_of_int. destruct z as [|p|p]; simpl.
  - reflexivity.
  - pose proof (DecimalPos.Unsigned.to_uint_nonnil p) as Hp.
    replace (NilZero.string_of_uint (Pos.to_uint p))
      with (NilEmpty.string_of_uint (Pos.to_uint p))
      by (by destruct (Pos.to_uint p)).
    rewrite int_of_digits by done.
    unfold Z.of_uint. by rewrite DecimalPos.Unsigned.of_to.
  - pose proof (DecimalPos.Unsigned.to_uint_nonnil p) as Hp.
    replace (NilZero.string_of_uint (Pos.to_uint p))
      with (NilEmpty.string_of_uint (Pos.to_uint p))
      by (by destruct (Pos.to_uint p)).
    rewrite int_of_minus_digits by done.
    unfold Z.of_uint. by rewrite DecimalPos.Unsigned.of_to.
Qed.

(** the text of an integer starts with a digit or a minus sign *)
Lemma str_of_int_head z :
  ∃ c r, str_of_int z = String c r
         ∧ (is_digit c = true ∨ c = "-"%char).
Proof.
  unfold str_of_int. destruct z as [|p|p]; simpl.
  - eexists _, _. split; [reflexivity|by left].
  - pose proof (DecimalPos.Unsigned.to_uint_nonnil p) as Hp.
    destruct (string_of_uint_head _ Hp) as (c & r & Hs & Hc).
    exists c, r. split; [|by left]. rewrite <- Hs.
    by destruct (Pos.to_uint p).
  - eexists _, _. split; [reflexivity|by right].
Qed.
End int_text_facts.

(** ** RedisCache *)

Module RedisCacheFacts.
Import RedisCache.

#[local] Arguments _convert_duration_ : simpl never.
#[local] Arguments cache_setex : simpl never.
#[local] Arguments cache_delete : simpl never.
#[local] Arguments cache_keys : simpl never.
#[local] Arguments DiskCache.endswith : simpl never.
#[local] Arguments _load_obj : simpl never.
#[local] Arguments _dump_obj : simpl never.

Ltac msteps := repeat (rewrite bind_run; simpl).

Section with_pickle.
Context {pickle : Pickle}.

Lemma _load_obj_no_marker s :
  (∀ r, s ≠ String "!" r) →
  _load_obj (Some s) = match int_of_bytes s with
                       | Ret z => Ret (PInt z)
                       | Raise ValueError => Ret PNone
                       | Raise e => Raise e
                       end.
Proof.
  destruct s as [|c r]; [done|].
  destruct c as [[] [] [] [] [] [] [] []]; try done.
  intros Hs. by destruct (Hs r).
Qed.

Lemma str_of_int_no_marker z r : str_of_int z ≠ String "!" r.
Proof.
  destruct (str_of_int_head z) as (c & r' & -> & [Hc| ->]);
    intros [= -> _]; done.
Qed.

(** the integer path: decimal text, no marker byte *)
Lemma _load_dump_int z : _load_obj (Some (_dump_obj (PInt z))) = Ret (PInt z).
Proof.
  change (_dump_obj (PInt z)) with (str_of_int z).
  rewrite _load_obj_no_marker by apply str_of_int_no_marker.
  by rewrite int_of_str.
Qed.

(** the marker path, for a value the serialiser gives back *)
Lemma _load_dump_pickled v :
  (∀ z, v ≠ PInt z) →
  pickle_loads (pickle_dumps DEFAULT_PROTOCOL v) = Ret v →
  _dump_obj v = "!" +:+ pickle_dumps DEFAULT_PROTOCOL v
  ∧ _load_obj (Some (_dump_obj v)) = Ret v.
Proof.
  intros Hv Hrt.
  assert (_dump_obj v = "!" +:+ pickle_dumps DEFAULT_PROTOCOL v) as ->.
  { destruct v; try done. by destruct (Hv z). }
  split; [done|].
  change (match pickle_loads (pickle_dumps DEFAULT_PROTOCOL v) with
          | Raise PickleError => Ret PNone
          | r => r
          end = Ret v).
  by rewrite Hrt.
Qed.

(** what [set] stores *)
Lemma set_run e key v d kw c :
  _convert_duration_ (_default_expire c) d (now e) = Ret kw →
  (0 < kw_duration kw)%Z →
  set e key v d c
  = (Ret tt,
     with_cache (<[_prefix c +:+ key :=
                     {| payload := _dump_obj v;
                        expires_at := rnow e + kw_duration kw |}]>) c).
Proof.
  intros Hkw Hd. unfold set. msteps. unfold lift. rewrite Hkw.
  unfold cache_setex.
  destruct (Z.leb_spec (kw_duration kw) 0); [lia|done].
Qed.

Lemma redis_get_after_set e e' key v d kw c :
  _convert_duration_ (_default_expire c) d (now e) = Ret kw →
  (0 < kw_duration kw)%Z →
  (rnow e' < rnow e + kw_duration kw)%Z →
  eval (get e' key) (exec (set e key v d) c)
  = _load_obj (Some (_dump_obj v)).
Proof.
  intros Hkw Hd Hlive. unfold eval, exec.
  rewrite (set_run e key v d kw c Hkw Hd). simpl.
  unfold get. msteps. rewrite lookup_insert_eq.
  unfold live. simpl.
  by destruct (Z.ltb_spec (rnow e') (rnow e + kw_duration kw)); [|lia].
Qed.

(** with a strict client the wildcard branch of [clear] always raises
    and deletes nothing *)
Lemma clear_wildcard_strict e key c :
  strict_args c = true →
  DiskCache.endswith (_prefix c +:+ key) "*" = true →
  clear e (Some key) c = (Raise DataError, c).
Proof.
  intros Hs Hw. unfold clear. msteps. rewrite Hw. msteps.
  unfold cache_delete. msteps. by rewrite Hs.
Qed.
End with_pickle.

End RedisCacheFacts.

Module RedisCacheClaims.
Import RedisCache RedisCacheFacts RedisRuns.

(** C6 (remote value round trip).  An integer is encoded as its decimal
    text, which never starts with the marker byte, and decodes to itself;
    any other value that the serialiser gives back is encoded as the
    marker byte followed by its serialisation and decodes to itself.  On
    a store: 42 is kept as ["42"] and read back as 42, ["hi"] is kept
    behind the marker and read back as ["hi"]. *)
Theorem C6_value_round_trip :
  (∀ (P : Pickle) z,
     _dump_obj (PInt z) = str_of_int z
     ∧ (∀ r, _dump_obj (PInt z) ≠ String "!" r)
     ∧ _load_obj (Some (_dump_obj (PInt z))) = Ret (PInt z))
  ∧ (∀ (P : Pickle) v,
       (∀ z, v ≠ PInt z) →
       pickle_loads (pickle_dumps DEFAULT_PROTOCOL v) = Ret v →
       _dump_obj v = "!" +:+ pickle_dumps DEFAULT_PROTOCOL v
       ∧ _load_obj (Some (_dump_obj v)) = Ret v)
  ∧ (payload <$> _cache (three_keys true) !! "cache:a1" = Some "42"
     ∧ eval (get (pickle := TinyPickle.instance) (at_time 1) "a1")
         (three_keys true) = Ret (PInt 42)
     ∧ payload <$> _cache (three_keys true) !! "cache:a2" = Some "!S2:hi"
     ∧ eval (get (pickle := TinyPickle.instance) (at_time 1) "a2")
         (three_keys true) = Ret (PStr "hi")).
Proof.
  split; [|split].
  - intros P z. split; [done|]. split.
    + intros r. simpl. apply str_of_int_no_marker.
    + apply _load_dump_int.
  - intros P v. apply _load_dump_pickled.
  - vm_compute. done.
Qed.

Lemma C6_value_round_trip_witness :
  _dump_obj (pickle := TinyPickle.instance) (PStr "hi") = "!S2:hi"
  ∧ _load_obj (pickle := TinyPickle.instance)
      (Some (_dump_obj (pickle := TinyPickle.instance) (PStr "hi")))
    = Ret (PStr "hi").
Proof.
  apply (proj1 (proj2 C6_value_round_trip) TinyPickle.instance (PStr "hi")).
  - intros z. discriminate.
  - vm_compute. reflexivity.
Defined.

(** C8 (remote [clear]).  The wildcard branch hands the list returned by
    [keys] to [delete] as one argument and then tests the count it gets
    back, so the matching keys are not deleted: with a client that sends
    the text of the list, [clear("a*")] returns and the store still holds
    ["cache:a1"] and ["cache:a2"]; with a strict client it raises
    [DataError], the store unchanged.  (The branch for an omitted key does
    delete every key under the prefix.) *)
Theorem C8_wildcard_clear_keeps_matching_keys :
  stored_keys (three_keys false) = ["cache:a1"; "cache:a2"; "cache:b"]
  ∧ run (clear (at_time 1) (Some "a*"))
      (three_keys false) = (Ret tt, three_keys false)
  ∧ run (clear (at_time 1) (Some "a*"))
      (three_keys true) = (Raise DataError, three_keys true)
  ∧ stored_keys (exec (clear (at_time 1) None)
                   (three_keys false)) = [].
Proof. vm_compute. done. Qed.

End RedisCacheClaims.

(** ** DiskCache *)

Module DiskCacheFacts.
Import DiskCache.

#[local] Arguments _convert_duration_ : simpl never.
#[local] Arguments endswith : simpl never.
#[local] Arguments fs_lookup : simpl never.
#[local] Arguments fs_write : simpl never.
#[local] Arguments fs_remove : simpl never.
#[local] Arguments sha1_hexdigest : simpl never.
#[local] Arguments pickle_load : simpl never.
#[local] Arguments pickle_dumps : simpl never.
#[local] Arguments as_number : simpl never.
#[local] Arguments String.append : simpl never.
#[local] Arguments Nat.modulo : simpl never.

Ltac msteps := repeat (rewrite bind_run; simpl).

Lemma endswith_refl s : endswith s s = true.
Proof. destruct s; unfold endswith; fold endswith; by rewrite String.eqb_refl. Qed.

Lemma endswith_app a suffix : endswith (a +:+ suffix) suffix = true.
Proof.
  induction a as [|c a IH]; [apply endswith_refl|].
  change (String c a +:+ suffix) with (String c (a +:+ suffix)).
  unfold endswith; fold endswith.
  by destruct (String.eqb (String c (a +:+ suffix)) suffix).
Qed.

Lemma tmp_not_cache_file base :
  is_cache_file (base +:+ _fs_transaction_suffix) = false.
Proof. unfold is_cache_file. by rewrite endswith_app. Qed.

Section fs.
Implicit Types (d : list (string * file)) (n m : string) (f : file).

Lemma fs_lookup_write_eq d n f : fs_lookup (fs_write d n f) n = Some f.
Proof.
  induction d as [|[k g] d IH]; unfold fs_lookup, fs_write;
    fold fs_lookup; fold fs_write.
  - by rewrite decide_True.
  - destruct (decide (k = n)) as [->|Hne];
      unfold fs_lookup; fold fs_lookup.
    + by rewrite decide_True.
    + by rewrite decide_False.
Qed.

Lemma fs_lookup_write_ne d n m f :
  n ≠ m → fs_lookup (fs_write d n f) m = fs_lookup d m.
Proof.
  intros Hnm. induction d as [|[k g] d IH]; unfold fs_lookup, fs_write;
    fold fs_lookup; fold fs_write.
  - by rewrite decide_False.
  - destruct (decide (k = n)) as [->|Hne];
      unfold fs_lookup; fold fs_lookup.
    + by rewrite !decide_False.
    + by rewrite IH.
Qed.

Lemma fs_lookup_remove_eq d n : fs_lookup (fs_remove d n) n = None.
Proof.
  induction d as [|[k g] d IH]; [done|].
  unfold fs_remove. rewrite filter_cons. simpl.
  destruct (decide (k ≠ n)) as [Hne|Heq]; [|exact IH].
  unfold fs_lookup; fold fs_lookup. rewrite decide_False by done.
  exact IH.
Qed.

Lemma fs_lookup_remove_ne d n m :
  n ≠ m → fs_lookup (fs_remove d n) m = fs_lookup d m.
Proof.
  intros Hnm. induction d as [|[k g] d IH]; [done|].
  unfold fs_remove. rewrite filter_cons. simpl.
  destruct (decide (k ≠ n)) as [Hne|Heq].
  - unfold fs_lookup; fold fs_lookup. fold (fs_remove d n).
    by rewrite IH.
  - fold (fs_remove d n). rewrite IH. apply dec_stable in Heq as ->.
    unfold fs_lookup at 2; fold fs_lookup. by rewrite decide_False.
Qed.

Lemma fs_lookup_Some_elem d n f :
  fs_lookup d n = Some f → n ∈ d.*1.
Proof.
  induction d as [|[k g] d IH]; [done|].
  unfold fs_lookup; fold fs_lookup.
  destruct (decide (k = n)) as [->|]; [intros _; left|].
  intros ?%IH. by right.
Qed.

Lemma fs_lookup_elem d n : n ∈ d.*1 → is_Some (fs_lookup d n).
Proof.
  induction d as [|[k g] d IH]; [by intros ?%not_elem_of_nil|].
  unfold fs_lookup; fold fs_lookup. simpl.
  destruct (decide (k = n)) as [->|]; [by eauto|].
  intros [?|?]%elem_of_cons; [done|]. by apply IH.
Qed.

(** temporary files are invisible in the listing of cache files *)
Lemma cache_files_write_tmp d n f :
  is_cache_file n = false →
  cache_files (fs_write d n f) = cache_files d.
Proof.
  intros Hn. induction d as [|[k g] d IH]; unfold fs_write;
    fold fs_write; unfold cache_files.
  - rewrite filter_cons. simpl. rewrite decide_False; [done|].
    by rewrite Hn.
  - destruct (decide (k = n)) as [->|Hne].
    + rewrite !filter_cons. simpl. rewrite !decide_False; [done|..];
        by rewrite Hn.
    + rewrite !filter_cons. simpl. fold (cache_files (fs_write d n f)).
      fold (cache_files d). by rewrite IH.
Qed.

Lemma cache_files_remove_tmp d n :
  is_cache_file n = false →
  cache_files (fs_remove d n) = cache_files d.
Proof.
  intros Hn. induction d as [|[k g] d IH]; [done|].
  unfold fs_remove, cache_files in *. rewrite !filter_cons. simpl.
  destruct (decide (k ≠ n)) as [Hne|Heq].
  - rewrite filter_cons. simpl. by rewrite IH.
  - rewrite IH. apply dec_stable in Heq as ->.
    rewrite decide_False; [done|]. by rewrite Hn.
Qed.
End fs.


Section with_pickle.
Context {pickle : Pickle}.
Implicit Types (d : list (string * file)) (c : t) (n name : string).

Lemma read_expiry_remove_ne d n name :
  n ≠ name → read_expiry (fs_remove d n) name = read_expiry d name.
Proof. intros Hne. unfold read_expiry. by rewrite fs_lookup_remove_ne. Qed.

Lemma first_error_remove d n entries :
  n ∉ entries →
  first_error (fs_remove d n) entries = first_error d entries.
Proof.
  induction entries as [|m entries IH]; [done|].
  intros [Hnm Hn]%not_elem_of_cons. simpl.
  rewrite read_expiry_remove_ne by done. by rewrite IH.
Qed.

(** one turn of the loop on a file whose header reads as [x]: the file
    goes when the rule asks for it and [os.remove] does not refuse *)
Lemma _prune_scan_step e i n entries now c x :
  read_expiry (files c) n = Ret x →
  _prune_scan e i (n :: entries) now c
  = _prune_scan e (S i) entries now
      (if ((x <=? now)%Z || (i mod 3 =? 0))
          && negb (bool_decide (n ∈ remove_refused e))
       then with_files (λ d, fs_remove d n) c else c).
Proof.
  unfold read_expiry. intros Hx.
  destruct (fs_lookup (files c) n) as [f|] eqn:Hf; [|done].
  destruct (readable f) eqn:Hr; [|done].
  destruct (pickle_load (body f)) as [[o rest]|] eqn:Hl; [|done].
  simpl in Hx.
  cbn [_prune_scan]. rewrite bind_run. unfold open_rb at 1.
  rewrite Hf, Hr. rewrite bind_run. unfold lift at 1. rewrite Hl.
  rewrite bind_run. unfold lift at 1. rewrite Hx. rewrite bind_run.
  destruct ((x <=? now)%Z || (i mod 3 =? 0)); [|done].
  unfold _del_file, try_except, os_remove. rewrite Hf.
  by destruct (bool_decide (n ∈ remove_refused e)).
Qed.

(** the loop stops, with nothing done, on a file whose header cannot
    be read *)
Lemma _prune_scan_stop e i n entries now c err :
  read_expiry (files c) n = Raise err →
  ∃ err', _prune_scan e i (n :: entries) now c = (Raise err', c).
Proof.
  unfold read_expiry. intros Hx.
  cbn [_prune_scan]. rewrite bind_run. unfold open_rb at 1.
  destruct (fs_lookup (files c) n) as [f|] eqn:Hf; [|by eauto].
  destruct (readable f) eqn:Hr; [|by eauto].
  rewrite bind_run. unfold lift at 1.
  destruct (pickle_load (body f)) as [[o rest]|] eqn:Hl; [|by eauto].
  simpl in Hx. rewrite bind_run. unfold lift at 1. rewrite Hx. eauto.
Qed.

Lemma _prune_scan_spec' e entries : ∀ i now c,
  _threshold (_prune_scan e i entries now c).2 = _threshold c
  ∧ _default_expire (_prune_scan e i entries now c).2 = _default_expire c.
Proof.
  induction entries as [|n entries IH]; intros i now c; [done|].
  destruct (read_expiry (files c) n) as [x|err] eqn:Hx.
  - rewrite (_prune_scan_step e i n entries now c x Hx).
    destruct (IH (S i) now
                (if ((x <=? now)%Z || (i mod 3 =? 0))
                    && negb (bool_decide (n ∈ remove_refused e))
                 then with_files (λ d, fs_remove d n) c else c))
      as [-> ->].
    by destruct (((x <=? now)%Z || (i mod 3 =? 0)) && _).
  - destruct (_prune_scan_stop e i n entries now c err Hx) as [e' ->]. done.
Qed.

(** the pass over distinct [entries], started at index [i] *)
Lemma _prune_scan_spec e entries : ∀ i now c,
  NoDup entries →
  ∃ r c',
    _prune_scan e i entries now c = (r, c')
    ∧ _threshold c' = _threshold c
    ∧ _default_expire c' = _default_expire c
    ∧ (∀ name, name ∉ entries →
         fs_lookup (files c') name = fs_lookup (files c) name)
    ∧ (∀ k name, entries !! k = Some name →
         fs_lookup (files c') name
         = if removed_by_rule (files c) entries now i k name
              && negb (bool_decide (name ∈ remove_refused e))
           then None else fs_lookup (files c) name).
Proof.
  induction entries as [|n entries IH]; intros i now c Hnd.
  { exists (Ret tt), c. by repeat split. }
  apply NoDup_cons in Hnd as [Hn Hnd].
  destruct (read_expiry (files c) n) as [x|err] eqn:Hx.
  - rewrite (_prune_scan_step e i n entries now c x Hx).
    set (gone := ((x <=? now)%Z || (i mod 3 =? 0))
                 && negb (bool_decide (n ∈ remove_refused e))).
    set (c1 := if gone then with_files (λ d, fs_remove d n) c else c).
    assert (_threshold c1 = _threshold c
            ∧ _default_expire c1 = _default_expire c) as [Hth Hde].
    { unfold c1. by destruct gone. }
    assert (∀ name, n ≠ name →
              fs_lookup (files c1) name = fs_lookup (files c) name) as Hother.
    { intros name Hne. unfold c1. destruct gone; [|done].
      simpl. by apply fs_lookup_remove_ne. }
    assert (first_error (files c1) entries = first_error (files c) entries)
      as Hfe.
    { unfold c1. destruct gone; [|done].
      simpl. by apply first_error_remove. }
    destruct (IH (S i) now c1 Hnd) as (r & c' & Hrun & Hth' & Hde' & Hout & Hin).
    exists r, c'. split; [done|]. split; [congruence|].
    split; [congruence|]. split.
    + intros name [Hne Hname]%not_elem_of_cons.
      rewrite (Hout name Hname). by apply Hother.
    + intros [|k] name Hk; simpl in Hk.
      * injection Hk as <-. rewrite (Hout n Hn).
        unfold removed_by_rule. simpl. rewrite Hx, Nat.add_0_r.
        change (0 <? S (first_error (files c) entries)) with true.
        cbn [andb]. fold gone. unfold c1. destruct gone; [|done].
        simpl. apply fs_lookup_remove_eq.
      * assert (n ≠ name) as Hne.
        { intros ->. apply Hn. by eapply list_elem_of_lookup_2. }
        rewrite (Hin k name Hk), (Hother name Hne).
        unfold removed_by_rule. simpl. rewrite Hx, Hfe.
        unfold read_expiry. rewrite (Hother name Hne).
        by replace (i + S k) with (S i + k) by lia.
  - destruct (_prune_scan_stop e i n entries now c err Hx) as [e' Hrun].
    exists (Raise e'), c. split; [done|]. do 3 (split; [done|]).
    intros k name Hk. unfold removed_by_rule. simpl. rewrite Hx.
    by destruct k.
Qed.

Lemma _list_dir_run e c :
  listdir_ok e = true →
  _list_dir e c = (Ret (cache_files (files c)).*1, c).
Proof.
  intros Hok. unfold _list_dir. rewrite bind_run. unfold os_listdir.
  rewrite Hok. unfold mret, M_ret, ret. do 2 f_equal.
  unfold cache_files. induction (files c) as [|[k g] d IH]; [done|].
  simpl. rewrite !filter_cons. simpl.
  destruct (decide (is_cache_file k = true)); simpl; by rewrite IH.
Qed.

(** [_prune] never raises once the directory could be listed *)
Lemma _prune_returns e c :
  listdir_ok e = true →
  ∃ c', _prune e c = (Ret tt, c')
        ∧ _threshold c' = _threshold c
        ∧ _default_expire c' = _default_expire c.
Proof.
  intros Hok. unfold _prune. rewrite bind_run, (_list_dir_run e c Hok).
  rewrite bind_run. simpl.
  destruct (_threshold c <? _)%Z; [|by eauto].
  unfold try_except.
  destruct (_prune_scan e 0 (cache_files (files c)).*1 (pnow e) c)
    as [[[]|?] c'] eqn:Hs; exists c'.
  all: destruct (_prune_scan_spec' e (cache_files (files c)).*1 0 (pnow e) c)
    as (Hth & Hde); rewrite Hs in Hth, Hde; by repeat split.
Qed.
End with_pickle.


Lemma try_except_pass {St} (m : M St unit) (s : St) :
  ∃ s', try_except m (λ _, mret tt) s = (Ret tt, s').
Proof.
  unfold try_except. destruct (m s) as [[[]|e] s']; by exists s'.
Qed.

Lemma try_except_Ret {St A} (m : M St A) h (s s' : St) a :
  m s = (Ret a, s') → try_except m h s = (Ret a, s').
Proof. unfold try_except. by intros ->. Qed.

Lemma try_except_Raise {St A} (m : M St A) h (s s' : St) e :
  m s = (Raise e, s') → try_except m h s = h e s'.
Proof. unfold try_except. by intros ->. Qed.

Lemma step_ok_pass e s c : fault e ≠ Some s → step_ok e s c = (Ret tt, c).
Proof. intros Hf. unfold step_ok. by rewrite decide_False. Qed.

Lemma step_ok_fail e s c :
  fault e = Some s → step_ok e s c = (Raise OSError, c).
Proof. intros Hf. unfold step_ok. by rewrite decide_True. Qed.

Lemma write_run name b c f :
  fs_lookup (files c) name = Some f →
  write name b c
  = (Ret tt, with_files (λ d, fs_write d name
                                {| readable := readable f;
                                   body := body f +:+ b |}) c).
Proof. intros Hf. unfold write. by rewrite Hf. Qed.

Section with_pickle_set_get.
Context {pickle : Pickle}.
Implicit Types (d : list (string * file)) (c : t).

(** [get] never raises and leaves the directory alone *)
Lemma get_total e key c : ∃ v, get e key c = (Ret v, c).
Proof.
  unfold get, try_except. rewrite bind_run. unfold open_rb at 1.
  destruct (fs_lookup (files c) (_get_filename key)) as [f|];
    [|by eauto].
  destruct (readable f); [|by eauto].
  rewrite bind_run. unfold lift at 1.
  destruct (pickle_load (body f)) as [[o rest]|]; [|by eauto].
  rewrite bind_run. unfold lift at 1.
  destruct (as_number o) as [x|]; [|by eauto].
  destruct (x <? now e)%Z; [by eauto|].
  rewrite bind_run. unfold lift at 1.
  destruct (pickle_load rest) as [[val ?]|]; by eauto.
Qed.

(** the value [get] gives, read off the file *)
Lemma get_run e key c f o rest x val rest' :
  fs_lookup (files c) (_get_filename key) = Some f →
  readable f = true →
  pickle_load (body f) = Ret (o, rest) →
  as_number o = Ret x →
  (now e ≤ x)%Z →
  pickle_load rest = Ret (val, rest') →
  get e key c = (Ret val, c).
Proof.
  intros Hf Hr Hl Hx Hnow Hv.
  unfold get, try_except. rewrite bind_run. unfold open_rb at 1.
  rewrite Hf, Hr. rewrite bind_run. unfold lift at 1. rewrite Hl.
  rewrite bind_run. unfold lift at 1. rewrite Hx.
  destruct (Z.ltb_spec x (now e)); [lia|].
  rewrite bind_run. unfold lift at 1. by rewrite Hv.
Qed.

Lemma get_no_value e key c :
  no_value e c key → get e key c = (Ret PNone, c).
Proof.
  unfold no_value, get, try_except. rewrite bind_run. unfold open_rb at 1.
  destruct (fs_lookup (files c) (_get_filename key)) as [f|]; [|done].
  intros [Hr|[[err Hl]|(o & rest & Hl & Hcase)]].
  - by rewrite Hr.
  - destruct (readable f); [|done].
    rewrite bind_run. unfold lift at 1. by rewrite Hl.
  - destruct (readable f); [|done].
    rewrite bind_run. unfold lift at 1. rewrite Hl.
    rewrite bind_run. unfold lift at 1.
    destruct Hcase as [[err ->]|[(x & -> & Hx)|[err Hv]]]; [done| |].
    + by destruct (Z.ltb_spec x (now e)); [|lia].
    + destruct (as_number o) as [x|]; [|done].
      destruct (x <? now e)%Z; [done|].
      rewrite bind_run. unfold lift at 1. by rewrite Hv.
Qed.

(** [set] with a valid duration and a listable directory never raises *)
Lemma set_returns e key v dur c kw :
  listdir_ok e = true →
  _convert_duration_ (_default_expire c) dur (now e) = Ret kw →
  ∃ c', set e key v dur c = (Ret tt, c').
Proof.
  intros Hok Hkw. unfold set. rewrite bind_run. simpl.
  rewrite bind_run. unfold lift at 1. rewrite Hkw. rewrite bind_run.
  destruct (_prune_returns e c Hok) as (cp & -> & _).
  apply try_except_pass.
Qed.

(** the only exception [set] lets through, the directory being
    listable, is the [TypeError] of an invalid duration *)
Lemma set_raises e key v dur c c' ex :
  listdir_ok e = true →
  set e key v dur c = (Raise ex, c') →
  ex = TypeError ∧ c' = c
  ∧ _convert_duration_ (_default_expire c) dur (now e) = Raise TypeError.
Proof.
  intros Hok Hrun.
  destruct (_convert_duration_ (_default_expire c) dur (now e))
    as [kw|ex'] eqn:Hkw.
  - destruct (set_returns e key v dur c kw Hok Hkw) as [c'' Hret].
    congruence.
  - assert (ex' = TypeError) as ->.
    { unfold _convert_duration_ in Hkw.
      destruct dur as [|s|z]; simpl in Hkw; [done| |done].
      destruct (decide (s = "default")); simpl in Hkw; congruence. }
    unfold set in Hrun. rewrite bind_run in Hrun. simpl in Hrun.
    rewrite bind_run in Hrun. unfold lift at 1 in Hrun.
    rewrite Hkw in Hrun. by injection Hrun as <- <-.
Qed.
End with_pickle_set_get.


Section write_sequence.
Context {pickle : Pickle}.
Implicit Types (d : list (string * file)) (c : t).

Lemma set_unfold e key v dur c kw cp :
  _convert_duration_ (_default_expire c) dur (now e) = Ret kw →
  _prune e c = (Ret tt, cp) →
  set e key v dur c
  = try_except (write_sequence e (_get_filename key) v kw)
      (λ _, mret tt) cp.
Proof.
  intros Hkw Hp. unfold set. rewrite bind_run. simpl.
  rewrite bind_run. unfold lift at 1. rewrite Hkw.
  by rewrite bind_run, Hp.
Qed.

Lemma mkstemp_run e c :
  fault e ≠ Some Mkstemp →
  mkstemp e c
  = (Ret (tmp_base e +:+ _fs_transaction_suffix),
     with_files (λ d, fs_write d (tmp_base e +:+ _fs_transaction_suffix)
                        {| readable := true; body := "" |}) c).
Proof.
  intros Hf. unfold mkstemp. by rewrite bind_run, step_ok_pass.
Qed.

(** without a fault the record is in place under the file name of the
    key, readable *)
Lemma write_sequence_ok e filename v kw c :
  fault e = None →
  ∃ c',
    write_sequence e filename v kw c = (Ret tt, c')
    ∧ _threshold c' = _threshold c
    ∧ _default_expire c' = _default_expire c
    ∧ fs_lookup (files c') filename
      = Some {| readable := true;
                body := pickle_dumps (Protocol 1) (PInt (kw_expiration kw))
                        +:+ pickle_dumps HIGHEST_PROTOCOL v |}.
Proof.
  intros Hf. unfold write_sequence.
  rewrite bind_run, mkstemp_run by (by rewrite Hf).
  set (tmp := tmp_base e +:+ _fs_transaction_suffix).
  do 2 (rewrite bind_run, step_ok_pass by (by rewrite Hf)).
  rewrite bind_run.
  erewrite write_run by (simpl; apply fs_lookup_write_eq).
  rewrite bind_run, step_ok_pass by (by rewrite Hf).
  rewrite bind_run.
  erewrite write_run by (simpl; apply fs_lookup_write_eq).
  rewrite bind_run, step_ok_pass by (by rewrite Hf).
  rewrite bind_run. unfold os_rename at 1. simpl.
  rewrite fs_lookup_write_eq.
  unfold chmod. rewrite bind_run, step_ok_pass by (by rewrite Hf).
  unfold set_mode. simpl. rewrite fs_lookup_write_eq.
  eexists. split; [done|]. simpl. do 2 (split; [done|]).
  by rewrite fs_lookup_write_eq.
Qed.

(** a fault before [os.chmod] leaves the cache files as they were *)
Lemma write_sequence_fault e filename v kw c s :
  fault e = Some s → s ≠ Chmod →
  ∃ r c',
    write_sequence e filename v kw c = (r, c')
    ∧ cache_files (files c') = cache_files (files c).
Proof.
  intros Hf Hs. unfold write_sequence.
  set (tmp := tmp_base e +:+ _fs_transaction_suffix).
  assert (is_cache_file tmp = false) as Htmp by apply tmp_not_cache_file.
  destruct (decide (s = Mkstemp)) as [->|?].
  { unfold mkstemp. rewrite !bind_run, step_ok_fail by done. by eauto. }
  rewrite bind_run, mkstemp_run by (rewrite Hf; congruence). fold tmp.
  destruct (decide (s = Fdopen)) as [->|?].
  { rewrite bind_run, step_ok_fail by done. do 2 eexists.
    split; [done|]. simpl. by apply cache_files_write_tmp. }
  rewrite bind_run, step_ok_pass by (rewrite Hf; congruence).
  destruct (decide (s = DumpExpiration)) as [->|?].
  { rewrite bind_run, step_ok_fail by done. do 2 eexists.
    split; [done|]. simpl. by apply cache_files_write_tmp. }
  rewrite bind_run, step_ok_pass by (rewrite Hf; congruence).
  rewrite bind_run.
  erewrite write_run by (simpl; apply fs_lookup_write_eq).
  destruct (decide (s = DumpValue)) as [->|?].
  { rewrite bind_run, step_ok_fail by done. do 2 eexists.
    split; [done|]. simpl. by rewrite !cache_files_write_tmp. }
  rewrite bind_run, step_ok_pass by (rewrite Hf; congruence).
  rewrite bind_run.
  erewrite write_run by (simpl; apply fs_lookup_write_eq).
  assert (s = Rename) as -> by (by destruct s).
  rewrite bind_run, step_ok_fail by done. do 2 eexists.
  split; [done|]. simpl. by rewrite !cache_files_write_tmp.
Qed.
End write_sequence.

Section clear_facts.
Context {pickle : Pickle}.

Lemma _del_files_returns e names c :
  ∃ c', _del_files e names c = (Ret tt, c').
Proof.
  revert c; induction names as [|n names IH]; intros c; simpl; [by eauto|].
  rewrite bind_run. unfold _del_file.
  destruct (try_except_pass (os_remove e n) c) as [c1 ->]. apply IH.
Qed.

(** [clear] raises nothing once the directory could be listed *)
Lemma clear_returns e key c :
  listdir_ok e = true → ∃ c', clear e key c = (Ret tt, c').
Proof.
  intros Hok. destruct key as [key|]; simpl.
  - apply try_except_pass.
  - rewrite bind_run, (_list_dir_run e c Hok). apply _del_files_returns.
Qed.
End clear_facts.

Section set_then_get.
Context {pickle : Pickle}.

(** a [set] without fault makes the value readable until it expires *)
Lemma disk_get_after_set e e' key val dur c kw :
  listdir_ok e = true → fault e = None →
  _convert_duration_ (_default_expire c) dur (now e) = Ret kw →
  record_readable (kw_expiration kw) val →
  (now e' ≤ kw_expiration kw)%Z →
  eval (set e key val dur) c = Ret tt
  ∧ eval (get e' key) (exec (set e key val dur) c) = Ret val.
Proof.
  intros Hok Hf Hkw [Hexp [rest Hval]] Hnow.
  destruct (_prune_returns e c Hok) as (cp & Hp & _).
  destruct (write_sequence_ok e (_get_filename key) val kw cp Hf)
    as (c' & Hrun & _ & _ & Hfile).
  unfold eval, exec. rewrite (set_unfold e key val dur c kw cp Hkw Hp).
  rewrite (try_except_Ret _ _ _ _ _ Hrun). split; [done|]. simpl.
  by erewrite get_run.
Qed.
End set_then_get.

End DiskCacheFacts.

Module DiskCacheClaims.
Import DiskCache DiskCacheFacts DiskRuns.

#[local] Arguments Nat.modulo : simpl never.

Section first_error.
Context {pickle : Pickle}.

Lemma first_error_before d entries i name :
  entries !! i = Some name → i < first_error d entries →
  ∃ x, read_expiry d name = Ret x.
Proof.
  revert i; induction entries as [|n entries IH]; intros i; [done|].
  simpl. destruct (read_expiry d n) as [x|] eqn:Hx; [|lia].
  destruct i as [|i]; simpl.
  - intros [= <-] _. eauto.
  - intros Hi Hlt. apply (IH i Hi). lia.
Qed.

Lemma first_error_at d entries name :
  entries !! first_error d entries = Some name →
  ∃ err, read_expiry d name = Raise err.
Proof.
  induction entries as [|n entries IH]; [done|]. simpl.
  destruct (read_expiry d n) as [x|err] eqn:Hx; simpl; [done|].
  intros [= <-]. eauto.
Qed.

Lemma removed_by_rule_true d entries now i name :
  removed_by_rule d entries now 0 i name = true
  ↔ i < first_error d entries
    ∧ ∃ x, read_expiry d name = Ret x ∧ ((x ≤ now)%Z ∨ i mod 3 = 0).
Proof.
  unfold removed_by_rule. rewrite andb_true_iff, Nat.ltb_lt. simpl.
  apply and_iff_compat_l.
  destruct (read_expiry d name) as [x|err].
  - rewrite orb_true_iff, Z.leb_le, Nat.eqb_eq. split.
    + intros [?|Hm]; exists x; split; auto.
    + intros (? & [= <-] & [?|?]); [by left|by right].
  - split; [done|]. by intros (? & ? & _).
Qed.
End first_error.

(** C7, as stated, fails where [os.remove] is refused: the file meets
    the rule and stays, and the error does not stop the pass.  With
    threshold 2 and three files, all of them expired at time 200, a pass
    in which the removal of the first file is refused returns normally,
    leaves that file in place and deletes the two files after it. *)
Lemma C7_refused_removal_is_ignored :
  (cache_files (files three_files)).*1
  = [_get_filename "k1"; _get_filename "k2"; _get_filename "k3"]
  ∧ read_expiry (pickle := TinyPickle.instance) (files three_files)
      (_get_filename "k1") = Ret 100%Z
  ∧ _prune (pickle := TinyPickle.instance)
      (refusing [_get_filename "k1"] 200) three_files
    = (Ret tt, with_files (take 1) three_files).
Proof. vm_compute. done. Qed.

(** C7, amended (disk pruning rule).  The directory being listable and
    its file names distinct, let [entries] be the listing without
    temporary files.  If their number does not exceed the threshold,
    [_prune] changes nothing.  Otherwise [_prune] returns without raising,
    and the file at position [i] of the listing is gone afterwards exactly
    when the pass reached it (every header up to it could be read), its
    stored expiry is [<= now] or [i mod 3 = 0], and [os.remove] does not
    refuse it; a file that is still there is unchanged, as is every file
    outside the listing.  The pass stops at the first file that cannot be
    opened or whose header cannot be read; a refused removal does not
    stop it. *)
Theorem C7_disk_pruning_rule {pickle : Pickle} (e : env) (c : t) :
  listdir_ok e = true →
  NoDup (files c).*1 →
  let entries := (cache_files (files c)).*1 in
  ((Z.of_nat (length entries) ≤ _threshold c)%Z → _prune e c = (Ret tt, c))
  ∧ ((_threshold c < Z.of_nat (length entries))%Z →
     ∃ c',
       _prune e c = (Ret tt, c')
       ∧ (∀ i name, entries !! i = Some name →
            (fs_lookup (files c') name = None
             ↔ i < first_error (files c) entries
               ∧ (∃ x, read_expiry (files c) name = Ret x
                       ∧ ((x ≤ pnow e)%Z ∨ i mod 3 = 0))
               ∧ name ∉ remove_refused e)
            ∧ (fs_lookup (files c') name ≠ None →
               fs_lookup (files c') name = fs_lookup (files c) name))
       ∧ (∀ name, name ∉ entries →
            fs_lookup (files c') name = fs_lookup (files c) name)
       ∧ (∀ i name, entries !! i = Some name →
            i < first_error (files c) entries →
            ∃ x, read_expiry (files c) name = Ret x)
       ∧ (∀ name, entries !! first_error (files c) entries = Some name →
            ∃ err, read_expiry (files c) name = Raise err)).
Proof.
  intros Hok Hnd entries.
  assert (entries `sublist_of` (files c).*1) as Hsub.
  { unfold entries, cache_files. apply fmap_sublist, sublist_filter. }
  assert (NoDup entries) as Hnd' by (by eapply sublist_NoDup).
  assert (∀ name, name ∈ entries → fs_lookup (files c) name ≠ None) as Hex.
  { intros name Hin.
    assert (name ∈ (files c).*1) as Hin' by (by eapply elem_of_sublist).
    apply fs_lookup_elem in Hin' as [f ->]. done. }
  split.
  - intros Hle. unfold _prune.
    rewrite bind_run, (_list_dir_run e c Hok). rewrite bind_run. simpl.
    fold entries. by destruct (Z.ltb_spec (_threshold c)
                                 (Z.of_nat (length entries))); [lia|].
  - intros Hgt.
    destruct (_prune_scan_spec e entries 0 (pnow e) c Hnd')
      as (r & c' & Hrun & _ & _ & Hout & Hin).
    exists c'. split; [|split; [|split; [|split]]].
    + unfold _prune.
      rewrite bind_run, (_list_dir_run e c Hok). rewrite bind_run. simpl.
      fold entries.
      destruct (Z.ltb_spec (_threshold c) (Z.of_nat (length entries)));
        [|lia].
      unfold try_except. rewrite Hrun. by destruct r as [[]|].
    + intros i name Hi. rewrite (Hin i name Hi).
      pose proof (removed_by_rule_true (files c) entries (pnow e) i name)
        as Hrule.
      pose proof (Hex name (list_elem_of_lookup_2 _ _ _ Hi)) as Hname.
      destruct (removed_by_rule (files c) entries (pnow e) 0 i name).
      * cbn [andb].
        destruct (bool_decide_reflect (name ∈ remove_refused e)) as [Hr|Hr];
          cbn [negb]; (split; [|done]).
        -- split; [done|]. by intros (_ & _ & ?).
        -- split; [|done]. intros _.
           destruct (proj1 Hrule eq_refl) as [? ?]. by repeat split.
      * cbn [andb]. split; [|done]. split; [done|].
        intros (Hlt & Hx & _).
        pose proof (proj2 Hrule (conj Hlt Hx)) as Hf. discriminate Hf.
    + exact Hout.
    + intros i name. apply first_error_before.
    + intros name. apply first_error_at.
Qed.

Lemma C7_disk_pruning_rule_witness :
  ∃ c',
    _prune (pickle := TinyPickle.instance) (at_time 1 None) three_files
    = (Ret tt, c')
    ∧ (files c').*1 = (drop 1 (files three_files)).*1.
Proof.
  destruct (C7_disk_pruning_rule (pickle := TinyPickle.instance)
              (at_time 1 None) three_files) as [_ Hover].
  - reflexivity.
  - apply (bool_decide_unpack _). vm_compute. reflexivity.
  - destruct Hover as (c' & Hrun & _); [vm_compute; reflexivity|].
    exists c'. split; [exact Hrun|].
    assert (c' = exec (_prune (pickle := TinyPickle.instance)
                         (at_time 1 None)) three_files) as ->.
    { unfold exec. by rewrite Hrun. }
    vm_compute. reflexivity.
Defined.


(** C4, as stated, fails: a [set] whose write fails does not leave the
    cache as if it had not happened.  With threshold 2 and three files,
    a [set] whose [mkstemp] fails returns normally, yet the pruning pass
    that ran first has deleted the file of ["k1"], which was readable
    before; and a [set] whose [chmod] fails returns normally with the new
    record already renamed into place. *)
Lemma C4_failed_set_is_visible :
  eval (get (pickle := TinyPickle.instance) (at_time 1 None) "k1")
    three_files = Ret (PStr "one")
  ∧ eval (set (pickle := TinyPickle.instance) (at_time 1 (Some Mkstemp))
            "j" (PInt 3) (DNum 100)) three_files = Ret tt
  ∧ eval (get (pickle := TinyPickle.instance) (at_time 1 None) "k1")
      after_failed_mkstemp = Ret PNone
  ∧ eval (get (pickle := TinyPickle.instance) (at_time 1 None) "j")
      three_files = Ret PNone
  ∧ eval (set (pickle := TinyPickle.instance) (at_time 1 (Some Chmod))
            "j" (PInt 3) (DNum 100)) three_files = Ret tt
  ∧ eval (get (pickle := TinyPickle.instance) (at_time 1 None) "j")
      after_failed_chmod = Ret (PInt 3).
Proof. vm_compute. done. Qed.

(** C4, amended (disk error absorption).  [get] never raises and leaves
    the directory alone; it gives [None] when the file of the key is
    missing, unreadable, has a header or a payload that does not
    deserialise, or is expired.  The directory being listable and the
    duration valid, a [set] one of whose write steps fails raises nothing;
    when the failing step comes before [os.chmod], the cache files are
    those the pruning pass at the start of [set] left.  The directory
    being listable, the only exception [set] raises is the [TypeError] of
    an invalid duration, before anything is touched, and [clear] raises
    nothing. *)
Theorem C4_disk_error_absorption {pickle : Pickle} :
  (∀ e key c,
     ∃ v, get e key c = (Ret v, c) ∧ (no_value e c key → v = PNone))
  ∧ (∀ e key v dur c kw s,
       listdir_ok e = true →
       _convert_duration_ (_default_expire c) dur (now e) = Ret kw →
       fault e = Some s →
       ∃ c', set e key v dur c = (Ret tt, c')
             ∧ (s ≠ Chmod →
                cache_files (files c')
                = cache_files (files (exec (_prune e) c))))
  ∧ (∀ e key v dur c c' ex,
       listdir_ok e = true →
       set e key v dur c = (Raise ex, c') →
       ex = TypeError ∧ c' = c
       ∧ _convert_duration_ (_default_expire c) dur (now e)
         = Raise TypeError)
  ∧ (∀ e key c, listdir_ok e = true → ∃ c', clear e key c = (Ret tt, c')).
Proof.
  split; [|split; [|split]]; [| | |apply @clear_returns].
  - intros e key c. destruct (get_total e key c) as [v Hv].
    exists v. split; [done|]. intros Hno.
    rewrite (get_no_value e key c Hno) in Hv. congruence.
  - intros e key v dur c kw s Hok Hkw Hf.
    destruct (_prune_returns e c Hok) as (cp & Hp & _).
    rewrite (set_unfold e key v dur c kw cp Hkw Hp).
    unfold exec. rewrite Hp. simpl.
    destruct (decide (s = Chmod)) as [->|Hs].
    + destruct (try_except_pass (write_sequence e (_get_filename key) v kw)
                  cp) as [c' ->].
      exists c'. by split.
    + destruct (write_sequence_fault e (_get_filename key) v kw cp s Hf Hs)
        as (r & c' & Hrun & Hview).
      exists c'. split; [|done].
      unfold try_except. rewrite Hrun. by destruct r as [[]|].
  - intros e key v dur c c' ex. apply set_raises.
Qed.

Lemma C4_disk_error_absorption_witness :
  ∃ c', set (pickle := TinyPickle.instance) (at_time 1 (Some DumpValue))
          "j" (PInt 3) (DNum 100) three_files = (Ret tt, c')
        ∧ (DumpValue ≠ Chmod →
           cache_files (files c')
           = cache_files
               (files (exec (_prune (pickle := TinyPickle.instance)
                               (at_time 1 (Some DumpValue))) three_files))).
Proof.
  apply (proj1 (proj2 (C4_disk_error_absorption
                         (pickle := TinyPickle.instance)))
           (at_time 1 (Some DumpValue)) "j" (PInt 3) (DNum 100) three_files
           {| kw_now := 1; kw_duration := 100; kw_expiration := 101 |}
           DumpValue).
  - reflexivity.
  - reflexivity.
  - reflexivity.
Defined.

End DiskCacheClaims.

(** ** CacheHashMixin *)

Module CacheHashMixinFacts.
Import HashRuns.

Lemma append_nil_r s : s +:+ "" = s.
Proof.
  induction s as [|c s IH]; [done|].
  change (String c (s +:+ "") = String c s). by rewrite IH.
Qed.

Lemma append_assoc s1 s2 s3 : (s1 +:+ s2) +:+ s3 = s1 +:+ s2 +:+ s3.
Proof.
  induction s1 as [|c s1 IH]; [done|].
  change (String c ((s1 +:+ s2) +:+ s3) = String c (s1 +:+ s2 +:+ s3)).
  by rewrite IH.
Qed.

Lemma list_ascii_of_append s1 s2 :
  list_ascii_of_string (s1 +:+ s2)
  = list_ascii_of_string s1 ++ list_ascii_of_string s2.
Proof.
  induction s1 as [|c s1 IH]; [done|].
  change (c :: list_ascii_of_string (s1 +:+ s2)
          = c :: list_ascii_of_string s1 ++ list_ascii_of_string s2).
  by rewrite IH.
Qed.

Lemma append_inv_tail s1 s2 t : s1 +:+ t = s2 +:+ t → s1 = s2.
Proof.
  intros Heq. apply (f_equal list_ascii_of_string) in Heq.
  rewrite !list_ascii_of_append in Heq. apply app_inv_tail in Heq.
  apply (f_equal string_of_list_ascii) in Heq.
  by rewrite !string_of_list_ascii_of_string in Heq.
Qed.

(** the joined string around one of its components *)
Lemma concat_middle sep (l1 l2 : list string) :
  ∃ p q, ∀ x, String.concat sep (l1 ++ x :: l2) = p +:+ x +:+ q.
Proof.
  induction l1 as [|a l1 (p & q & IH)].
  - exists "". destruct l2 as [|b l2].
    + exists "". intros x. change (x = x +:+ ""). by rewrite append_nil_r.
    + exists (sep +:+ String.concat sep (b :: l2)). by intros x.
  - exists (a +:+ sep +:+ p), q. intros x.
    change ((a :: l1) ++ x :: l2) with (a :: (l1 ++ x :: l2)).
    assert (∀ l, l ≠ [] → String.concat sep (a :: l)
                         = a +:+ sep +:+ String.concat sep l) as Hc.
    { by intros [|??]. }
    rewrite Hc by (by destruct l1). rewrite IH.
    by rewrite !append_assoc.
Qed.

Lemma _hash_component_eq key c :
  _hash_component key c = key +:+ "{" +:+ repr c +:+ "}".
Proof. reflexivity. Qed.

Lemma _hash_component_inj key c1 c2 :
  _hash_component key c1 = _hash_component key c2 ↔ repr c1 = repr c2.
Proof.
  rewrite !_hash_component_eq. split; [|by intros ->].
  intros Heq. apply (inj (String.append key)) in Heq.
  apply (inj (String.append "{")) in Heq.
  by apply append_inv_tail in Heq.
Qed.

Lemma _components_app ss1 ss2 data :
  _components (ss1 ++ ss2) data
  = (c1 ← _components ss1 data;
     c2 ← _components ss2 data;
     Ret (c1 ++ c2)).
Proof.
  induction ss1 as [|[k st] ss1 IH]; simpl.
  - by destruct (_components ss2 data).
  - destruct (dict_getitem data k) as [v|]; simpl; [|done].
    destruct (st v) as [c|]; simpl; [|done].
    rewrite IH. destruct (_components ss1 data); simpl; [|done].
    by destruct (_components ss2 data).
Qed.

Lemma _components_agree ss data1 data2 :
  (∀ k, k ∈ ss.*1 → dict_getitem data1 k = dict_getitem data2 k) →
  _components ss data1 = _components ss data2.
Proof.
  induction ss as [|[k st] ss IH]; intros Hag; simpl; [done|].
  rewrite (Hag k) by left. rewrite IH; [done|].
  intros k' Hk'. apply Hag. by right.
Qed.

(** same names, same order, same canonicalisers: same components *)
Lemma _components_ext ss1 ss2 data :
  same_strategies ss1 ss2 → _components ss1 data = _components ss2 data.
Proof.
  induction 1 as [|[k1 st1] [k2 st2] ss1 ss2 [Hk Hst] _ IH]; [done|].
  simpl in *. subst k2. rewrite IH.
  destruct (dict_getitem data k1) as [v|]; simpl; [|done].
  by rewrite Hst.
Qed.

Lemma dict_getitem_Ret {V} (d : list (string * V)) k v :
  dict_getitem d k = Ret v → (k, v) ∈ d.
Proof.
  induction d as [|[k' v'] d IH]; [done|]. simpl.
  destruct (decide (k' = k)) as [->|]; [intros [= ->]; left|].
  intros ?%IH. by right.
Qed.

Lemma dict_getitem_Raise {V} (d : list (string * V)) k e :
  dict_getitem d k = Raise e → e = KeyError ∧ k ∉ d.*1.
Proof.
  induction d as [|[k' v'] d IH]; simpl.
  - intros [= <-]. split; [done|]. apply not_elem_of_nil.
  - destruct (decide (k' = k)) as [->|Hne]; [done|].
    intros [-> Hk]%IH. split; [done|].
    apply not_elem_of_cons. by split.
Qed.

Lemma dict_getitem_elem {V} (d : list (string * V)) k v :
  NoDup d.*1 → (k, v) ∈ d → dict_getitem d k = Ret v.
Proof.
  induction d as [|[k' v'] d IH]; [by intros _ ?%not_elem_of_nil|].
  simpl. intros [Hk' Hnd]%NoDup_cons [Heq|Hin]%elem_of_cons.
  - injection Heq as -> ->. by rewrite decide_True.
  - destruct (decide (k' = k)) as [->|]; [|by apply IH].
    destruct Hk'. apply list_elem_of_fmap. by exists (k, v).
Qed.

(** a mapping gives the same values whatever its iteration order *)
Lemma dict_getitem_perm {V} (d1 d2 : list (string * V)) k :
  NoDup d1.*1 → d1 ≡ₚ d2 → dict_getitem d1 k = dict_getitem d2 k.
Proof.
  intros Hnd Hp.
  assert (NoDup d2.*1) as Hnd2 by (by rewrite <- Hp).
  destruct (dict_getitem d1 k) as [v|e] eqn:H1.
  - apply dict_getitem_Ret in H1. rewrite Hp in H1.
    by rewrite (dict_getitem_elem d2 k v Hnd2 H1).
  - apply dict_getitem_Raise in H1 as [-> Hk].
    destruct (dict_getitem d2 k) as [v|e] eqn:H2.
    + apply dict_getitem_Ret in H2. destruct Hk.
      apply list_elem_of_fmap. exists (k, v). by rewrite Hp.
    + by apply dict_getitem_Raise in H2 as [-> _].
Qed.

Lemma sorted_perm l1 l2 : l1 ≡ₚ l2 → sorted l1 = sorted l2.
Proof.
  intros Hp. unfold sorted. apply (Sorted_unique String.le).
  - apply Sorted_merge_sort, _.
  - apply Sorted_merge_sort, _.
  - by rewrite !merge_sort_Permutation.
Qed.

Lemma traverse_ext {A B} (f g : A → res B) l :
  (∀ x, f x = g x) → traverse f l = traverse g l.
Proof.
  intros Hfg. induction l as [|x l IH]; [done|]. simpl.
  by rewrite Hfg, IH.
Qed.

(** [dict_strategy] does not see the iteration order of the mapping *)
Lemma dict_strategy_perm d1 d2 :
  NoDup d1.*1 → d1 ≡ₚ d2 →
  dict_strategy (PDict d1) = dict_strategy (PDict d2).
Proof.
  intros Hnd Hp. unfold dict_strategy.
  rewrite (sorted_perm d1.*1 d2.*1) by (by rewrite Hp).
  f_equal. apply traverse_ext. intros key.
  by rewrite (dict_getitem_perm d1 d2 key Hnd Hp).
Qed.

End CacheHashMixinFacts.

(** ** [repr] can be read back

    The text [repr] gives for a value determines the value: strings by
    undoing the escapes up to the closing quote, integers up to the first
    character that is not a digit, sequences element by element. *)

Module ReprFacts.
Import ReprSpec CacheHashMixinFacts.

#[local] Arguments String.append : simpl never.
#[local] Arguments dict_strategy : simpl never.
#[local] Arguments sha1_hexdigest : simpl never.

Lemma append_cons c s t : String c s +:+ t = String c (s +:+ t).
Proof. reflexivity. Qed.

Lemma append_nil_l s : "" +:+ s = s.
Proof. reflexivity. Qed.

Lemma unrepr_repr_char q c r :
  q = "'"%char ∨ q = dquote →
  unrepr_char q (repr_char q c +:+ r) = Some (c, r).
Proof.
  intros [->| ->]; destruct c as [[] [] [] [] [] [] [] []]; reflexivity.
Qed.

Lemma unrepr_quote q r :
  q = "'"%char ∨ q = dquote → unrepr_char q (String q r) = None.
Proof. by intros [->| ->]. Qed.

Lemma repr_chars_inj q s1 :
  q = "'"%char ∨ q = dquote →
  ∀ s2 t1 t2,
    repr_chars q s1 +:+ String q t1 = repr_chars q s2 +:+ String q t2 →
    s1 = s2 ∧ t1 = t2.
Proof.
  intros Hq. induction s1 as [|c1 s1 IH]; intros [|c2 s2] t1 t2;
    cbn [repr_chars]; rewrite ?append_nil_l.
  - by intros [= ->].
  - rewrite append_assoc. intros Heq.
    apply (f_equal (unrepr_char q)) in Heq.
    by rewrite unrepr_quote, unrepr_repr_char in Heq.
  - rewrite append_assoc. intros Heq.
    apply (f_equal (unrepr_char q)) in Heq.
    by rewrite unrepr_quote, unrepr_repr_char in Heq.
  - rewrite !append_assoc. intros Heq.
    apply (f_equal (unrepr_char q)) in Heq.
    rewrite !unrepr_repr_char in Heq by done.
    injection Heq as -> Heq. by destruct (IH _ _ _ Heq) as [-> ->].
Qed.

Lemma repr_str_quote s :
  ∃ q r, repr_str s = String q r ∧ (q = "'"%char ∨ q = dquote)
         ∧ r = repr_chars q s +:+ String q "".
Proof.
  unfold repr_str.
  destruct (contains_char "'" s && negb (contains_char dquote s));
    eexists _, _; (split; [reflexivity|]); split; auto.
Qed.

(** the text of a string can be read back, whatever follows it *)
Lemma repr_str_inj s1 s2 t1 t2 :
  repr_str s1 +:+ t1 = repr_str s2 +:+ t2 → s1 = s2 ∧ t1 = t2.
Proof.
  destruct (repr_str_quote s1) as (q1 & r1 & -> & Hq1 & ->).
  destruct (repr_str_quote s2) as (q2 & r2 & -> & Hq2 & ->).
  rewrite !append_cons, !append_assoc, !append_cons.
  rewrite !append_nil_l. intros [= <- Heq].
  by apply (repr_chars_inj q1 s1 Hq1).
Qed.

Lemma digit_not_closes c : is_digit c = true → closes c = false.
Proof. destruct c as [[] [] [] [] [] [] [] []]; by vm_compute. Qed.

Lemma digits_tail a1 : ∀ a2 t1 t2,
  all_digits a1 = true → all_digits a2 = true →
  delimited t1 = true → delimited t2 = true →
  a1 +:+ t1 = a2 +:+ t2 → a1 = a2 ∧ t1 = t2.
Proof.
  induction a1 as [|c1 a1 IH]; intros [|c2 a2] t1 t2; simpl.
  - rewrite !append_nil_l. by intros _ _ _ _ ->.
  - intros _ [Hc _]%andb_true_iff Ht _. rewrite append_nil_l.
    rewrite append_cons. intros ->. simpl in Ht.
    by rewrite (digit_not_closes c2 Hc) in Ht.
  - intros [Hc _]%andb_true_iff _ _ Ht. rewrite append_nil_l.
    rewrite append_cons. intros <-. simpl in Ht.
    by rewrite (digit_not_closes c1 Hc) in Ht.
  - intros [_ H1]%andb_true_iff [_ H2]%andb_true_iff Ht1 Ht2.
    rewrite !append_cons. intros [= -> Heq].
    by destruct (IH a2 t1 t2 H1 H2 Ht1 Ht2 Heq) as [-> ->].
Qed.

Lemma str_of_int_form z :
  ∃ s, all_digits s = true
       ∧ (str_of_int z = s ∨ str_of_int z = String "-" s)
       ∧ ∃ c r, s = String c r.
Proof.
  unfold str_of_int. destruct z as [|p|p]; simpl.
  - exists "0". split; [done|]. split; [by left|by eauto].
  - pose proof (DecimalPos.Unsigned.to_uint_nonnil p) as Hp.
    destruct (string_of_uint_head _ Hp) as (c & r & Hs & Hc).
    exists (NilEmpty.string_of_uint (Pos.to_uint p)).
    split; [apply string_of_uint_digits|]. split; [|by eauto].
    left. by destruct (Pos.to_uint p).
  - pose proof (DecimalPos.Unsigned.to_uint_nonnil p) as Hp.
    destruct (string_of_uint_head _ Hp) as (c & r & Hs & Hc).
    exists (NilEmpty.string_of_uint (Pos.to_uint p)).
    split; [apply string_of_uint_digits|]. split; [|by eauto].
    right. by destruct (Pos.to_uint p).
Qed.

Lemma str_of_int_inj z1 z2 : str_of_int z1 = str_of_int z2 → z1 = z2.
Proof.
  intros Heq. pose proof (int_of_str z1) as H1.
  rewrite Heq, int_of_str in H1. congruence.
Qed.

(** the text of an integer can be read back when what follows it is
    not a digit *)
Lemma str_of_int_tail z1 z2 t1 t2 :
  delimited t1 = true → delimited t2 = true →
  str_of_int z1 +:+ t1 = str_of_int z2 +:+ t2 → z1 = z2 ∧ t1 = t2.
Proof.
  intros Ht1 Ht2 Heq.
  cut (str_of_int z1 = str_of_int z2 ∧ t1 = t2).
  { intros [?%str_of_int_inj ?]. by split. }
  destruct (str_of_int_form z1) as (s1 & Hd1 & Hs1 & c1 & r1 & Hc1).
  destruct (str_of_int_form z2) as (s2 & Hd2 & Hs2 & c2 & r2 & Hc2).
  assert (is_digit c1 = true) as Hdc1.
  { rewrite Hc1 in Hd1. simpl in Hd1. by apply andb_true_iff in Hd1 as []. }
  assert (is_digit c2 = true) as Hdc2.
  { rewrite Hc2 in Hd2. simpl in Hd2. by apply andb_true_iff in Hd2 as []. }
  destruct Hs1 as [Hs1|Hs1], Hs2 as [Hs2|Hs2]; rewrite Hs1, Hs2 in Heq |- *.
  - by destruct (digits_tail s1 s2 t1 t2 Hd1 Hd2 Ht1 Ht2 Heq) as [-> ->].
  - rewrite Hc1, !append_cons in Heq. injection Heq as -> _.
    by vm_compute in Hdc1.
  - rewrite Hc2, !append_cons in Heq. injection Heq as <- _.
    by vm_compute in Hdc2.
  - rewrite !append_cons in Heq. injection Heq as Heq.
    by destruct (digits_tail s1 s2 t1 t2 Hd1 Hd2 Ht1 Ht2 Heq) as [-> ->].
Qed.


(** the first character of a [repr] tells the kind of value *)
Lemma repr_head_class o :
  ∃ c r, repr o = String c r ∧ head_class c = class_of o.
Proof.
  destruct o as [|[]|z|s|l|l|l].
  - by eexists _, _.
  - by eexists _, _.
  - by eexists _, _.
  - destruct (str_of_int_head z) as (c & r & Hz & Hc).
    exists c, r. split; [exact Hz|].
    destruct Hc as [Hc| ->]; [|done].
    destruct c as [[] [] [] [] [] [] [] []]; by vm_compute in Hc.
  - destruct (repr_str_quote s) as (q & r & Hs & [->| ->] & _);
      eexists _, _; (split; [exact Hs|reflexivity]).
  - destruct l as [|x [|y l]]; by eexists _, _.
  - by eexists _, _.
  - by eexists _, _.
Qed.

Lemma repr_class_eq o1 o2 t1 t2 :
  repr o1 +:+ t1 = repr o2 +:+ t2 → class_of o1 = class_of o2.
Proof.
  destruct (repr_head_class o1) as (c1 & r1 & -> & <-).
  destruct (repr_head_class o2) as (c2 & r2 & -> & <-).
  rewrite !append_cons. by intros [= -> _].
Qed.

Lemma repr_head_open o :
  ∃ c r, repr o = String c r ∧ closes c = false.
Proof.
  destruct (repr_head_class o) as (c & r & Hr & Hc).
  exists c, r. split; [done|].
  destruct (closes c) eqn:Hcl; [|done].
  unfold closes in Hcl.
  repeat (apply orb_true_iff in Hcl as [Hcl|Hcl]);
    apply Ascii.eqb_eq in Hcl as ->; by destruct o as [|[]| | | | |].
Qed.

Lemma String_inj c s1 s2 : String c s1 = String c s2 → s1 = s2.
Proof. by intros [=]. Qed.

Lemma repr_not_closer o t c u :
  closes c = true → repr o +:+ t ≠ String c u.
Proof.
  intros Hc. destruct (repr_head_open o) as (c' & r & -> & Hc').
  rewrite append_cons. intros [= -> _]. congruence.
Qed.

Lemma concat_nil sep : String.concat sep [] = "".
Proof. reflexivity. Qed.

Lemma concat_cons2 sep (x y : string) l :
  String.concat sep (x :: y :: l) = x +:+ sep +:+ String.concat sep (y :: l).
Proof. reflexivity. Qed.

Section concat_inj.
Context {A : Type} (pr : A → string).
Hypothesis pr_head : ∀ x, ∃ c r, pr x = String c r ∧ closes c = false.

(** a comma-separated sequence followed by its closing character can be
    read back when each element can *)
Lemma concat_inj cl l1 :
  closes cl = true → cl ≠ ","%char →
  Forall (λ x, ∀ y t1 t2, delimited t1 = true → delimited t2 = true →
                 pr x +:+ t1 = pr y +:+ t2 → x = y ∧ t1 = t2) l1 →
  ∀ l2 t1 t2,
    String.concat ", " (map pr l1) +:+ String cl t1
    = String.concat ", " (map pr l2) +:+ String cl t2 →
    l1 = l2 ∧ t1 = t2.
Proof.
  intros Hcl Hcomma Hall.
  induction Hall as [|x1 l1 Hx1 Hall IH]; intros [|x2 l2] t1 t2.
  - simpl. rewrite !append_nil_l. by intros [= ->].
  - simpl map. cbn [String.concat]. rewrite append_nil_l.
    destruct (pr_head x2) as (c & r & Hx2 & Hc).
    destruct l2 as [|y2 l2]; simpl map; cbn [String.concat];
      rewrite Hx2, !append_cons; intros [= -> _]; congruence.
  - simpl map. cbn [String.concat]. rewrite append_nil_l.
    destruct (pr_head x1) as (c & r & Hx & Hc).
    destruct l1 as [|y1 l1]; simpl map; cbn [String.concat];
      rewrite Hx, !append_cons; intros [= <- _]; congruence.
  - destruct l1 as [|y1 l1], l2 as [|y2 l2]; simpl map.
    + cbn [String.concat]. intros Heq.
      apply Hx1 in Heq as [-> [= ->]]; done.
    + rewrite concat_cons2. cbn [String.concat map]. fold (map pr l2).
      rewrite !append_assoc. intros Heq.
      apply Hx1 in Heq as [_ [= ? _]]; [congruence|exact Hcl|reflexivity].
    + rewrite concat_cons2. cbn [String.concat map]. fold (map pr l1).
      rewrite !append_assoc. intros Heq.
      apply Hx1 in Heq as [_ [= ? _]]; [congruence|reflexivity|exact Hcl].
    + rewrite !concat_cons2, !append_assoc. intros Heq.
      apply Hx1 in Heq as [-> Heq']; [|reflexivity..].
      rewrite !append_cons, !append_nil_l in Heq'.
      injection Heq' as Heq'.
      by destruct (IH (y2 :: l2) t1 t2 Heq') as [-> ->].
Qed.
End concat_inj.

(** induction on values, through the sequences they hold *)
Lemma pyobj_nested_ind (P : pyobj → Prop) :
  P PNone → (∀ b, P (PBool b)) → (∀ z, P (PInt z)) → (∀ s, P (PStr s)) →
  (∀ l, Forall P l → P (PTuple l)) →
  (∀ l, Forall P l → P (PList l)) →
  (∀ l, Forall (λ kv, P kv.2) l → P (PDict l)) →
  ∀ o, P o.
Proof.
  intros HN HB HI HS HT HL HD. fix IH 1. intros [|b|z|s|l|l|l].
  - exact HN.
  - apply HB.
  - apply HI.
  - apply HS.
  - apply HT. induction l as [|x l IHl]; constructor; [apply IH|exact IHl].
  - apply HL. induction l as [|x l IHl]; constructor; [apply IH|exact IHl].
  - apply HD. induction l as [|[k v] l IHl]; constructor;
      [apply IH|exact IHl].
Qed.

(** [repr] can be read back: two values with the same text, followed by
    whatever can follow a value, are the same value *)
Lemma repr_tail_inj o1 : ∀ o2 t1 t2,
  delimited t1 = true → delimited t2 = true →
  repr o1 +:+ t1 = repr o2 +:+ t2 → o1 = o2 ∧ t1 = t2.
Proof.
  induction o1 as [|b1|z1|s1|l1 IH|l1 IH|l1 IH] using pyobj_nested_ind;
    intros o2 t1 t2 Ht1 Ht2 Heq;
    pose proof (repr_class_eq _ _ _ _ Heq) as Hclass;
    destruct o2 as [|b2|z2|s2|l2|l2|l2];
    try (by destruct b1); try (by destruct b2); try done.
  - cbn [repr] in Heq. rewrite !append_cons, !append_nil_l in Heq.
    by injection Heq as ->.
  - destruct b1, b2; try done; cbn [repr] in Heq;
      rewrite !append_cons, !append_nil_l in Heq; by injection Heq as ->.
  - cbn [repr] in Heq.
    by destruct (str_of_int_tail z1 z2 t1 t2 Ht1 Ht2 Heq) as [-> ->].
  - cbn [repr] in Heq.
    by destruct (repr_str_inj s1 s2 t1 t2 Heq) as [-> ->].
  - (* tuples *)
    assert (∀ l t,
              repr (PTuple l) +:+ t
              = match l with
                | [x] => String "(" (repr x +:+ String "," (String ")" t))
                | _ => String "(" (String.concat ", " (map repr l)
                                     +:+ String ")" t)
                end) as Htuple.
    { intros l t. destruct l as [|x [|y l]]; cbn [repr];
        by rewrite !append_cons, !append_nil_l, ?append_assoc. }
    rewrite !Htuple in Heq.
    assert (∀ x y l u,
              String.concat ", " (map repr (x :: y :: l)) +:+ u
              = repr x +:+ ", " +:+ String.concat ", " (map repr (y :: l))
                +:+ u) as Hlong.
    { intros x y l u. cbn [map]. by rewrite concat_cons2, !append_assoc. }
    destruct l1 as [|x1 [|y1 l1]], l2 as [|x2 [|y2 l2]];
      apply String_inj in Heq;
      rewrite ?concat_nil, ?append_nil_l in Heq.
    + by injection Heq as ->.
    + symmetry in Heq. by apply repr_not_closer in Heq.
    + rewrite Hlong in Heq. symmetry in Heq.
      by apply repr_not_closer in Heq.
    + by apply repr_not_closer in Heq.
    + apply Forall_inv in IH.
      apply IH in Heq as [-> [= ->]]; done.
    + rewrite Hlong in Heq. apply Forall_inv in IH.
      apply IH in Heq as [_ [=]]; done.
    + rewrite Hlong in Heq. by apply repr_not_closer in Heq.
    + rewrite Hlong in Heq. apply Forall_inv in IH.
      apply IH in Heq as [_ [=]]; done.
    + by destruct (concat_inj repr repr_head_open ")" (x1 :: y1 :: l1)
                     eq_refl ltac:(done) IH (x2 :: y2 :: l2) t1 t2 Heq)
        as [-> ->].
  - (* lists *)
    cbn [repr] in Heq. rewrite !append_cons, !append_nil_l in Heq.
    injection Heq as Heq. rewrite !append_assoc, !append_cons in Heq.
    rewrite !append_nil_l in Heq.
    by destruct (concat_inj repr repr_head_open "]" l1
                   eq_refl ltac:(done) IH l2 t1 t2 Heq) as [-> ->].
  - (* mappings *)
    cbn [repr] in Heq. rewrite !append_cons, !append_nil_l in Heq.
    injection Heq as Heq. rewrite !append_assoc, !append_cons in Heq.
    rewrite !append_nil_l in Heq.
    assert (∀ kv : string * pyobj,
              ∃ c r, repr_str kv.1 +:+ ": " +:+ repr kv.2 = String c r
                     ∧ closes c = false) as Hhead.
    { intros [k v]. simpl.
      destruct (repr_str_quote k) as (q & r & -> & [->| ->] & _);
        rewrite append_cons; by eexists _, _. }
    assert (Forall
              (λ x : string * pyobj, ∀ y u1 u2,
                 delimited u1 = true → delimited u2 = true →
                 (repr_str x.1 +:+ ": " +:+ repr x.2) +:+ u1
                 = (repr_str y.1 +:+ ": " +:+ repr y.2) +:+ u2 →
                 x = y ∧ u1 = u2) l1) as Hall.
    { eapply Forall_impl; [exact IH|].
      intros [k1 v1] Hv [k2 v2] u1 u2 Hu1 Hu2.
      simpl in Hv |- *. rewrite !append_assoc. intros Hkv.
      apply repr_str_inj in Hkv as [-> Hkv].
      rewrite !append_cons, !append_nil_l in Hkv. injection Hkv as Hkv.
      by destruct (Hv v2 u1 u2 Hu1 Hu2 Hkv) as [-> ->]. }
    by destruct (concat_inj
                   (λ kv : string * pyobj,
                      repr_str kv.1 +:+ ": " +:+ repr kv.2)
                   Hhead "}" l1 eq_refl ltac:(done) Hall l2 t1 t2 Heq)
      as [-> ->].
Qed.

(** [repr] is injective on the values of the model *)
Lemma repr_inj o1 o2 : repr o1 = repr o2 → o1 = o2.
Proof.
  intros Heq.
  destruct (repr_tail_inj o1 o2 "" "" eq_refl eq_refl) as [-> _]; [|done].
  by rewrite !append_nil_r, Heq.
Qed.

(** what [dict_strategy] returns: one pair for each key it was given *)
Lemma traverse_items_spec (d : list (string * pyobj)) ks items :
  traverse (λ key, v ← dict_getitem d key; Ret (PTuple [PStr key; v])) ks
  = Ret items →
  Forall2 (λ k item, ∃ v, dict_getitem d k = Ret v
                          ∧ item = PTuple [PStr k; v]) ks items.
Proof.
  revert items. induction ks as [|k ks IH]; intros items; simpl.
  - intros [= <-]. constructor.
  - destruct (dict_getitem d k) as [v|] eqn:Hv; simpl; [|done].
    destruct (traverse _ ks) as [items'|] eqn:Ht; simpl; [|done].
    intros [= <-]. constructor; [by eauto|]. by apply IH.
Qed.

Lemma traverse_items_returns (d : list (string * pyobj)) ks :
  (∀ k, k ∈ ks → k ∈ d.*1) →
  ∃ items,
    traverse (λ key, v ← dict_getitem d key; Ret (PTuple [PStr key; v])) ks
    = Ret items.
Proof.
  induction ks as [|k ks IH]; intros Hin; simpl; [by eauto|].
  destruct (dict_getitem d k) as [v|e] eqn:Hv; simpl.
  - destruct IH as [items ->]; [intros k' Hk'; apply Hin; by right|].
    simpl. by eauto.
  - apply dict_getitem_Raise in Hv as [_ Hk]. destruct Hk. apply Hin. left.
Qed.

(** [dict_strategy] accepts every mapping *)
Lemma dict_strategy_returns d :
  ∃ items, dict_strategy (PDict d) = Ret (PList items).
Proof.
  unfold dict_strategy.
  destruct (traverse_items_returns d (sorted d.*1)) as [items ->];
    [|by eauto].
  intros k Hk. unfold sorted in Hk. by rewrite merge_sort_Permutation in Hk.
Qed.

(** the same pairs come from the same keys with the same values *)
Lemma items_agree (d1 d2 : list (string * pyobj)) ks1 : ∀ ks2 items,
  Forall2 (λ k item, ∃ v, dict_getitem d1 k = Ret v
                          ∧ item = PTuple [PStr k; v]) ks1 items →
  Forall2 (λ k item, ∃ v, dict_getitem d2 k = Ret v
                          ∧ item = PTuple [PStr k; v]) ks2 items →
  ks1 = ks2 ∧ ∀ k, k ∈ ks1 → dict_getitem d1 k = dict_getitem d2 k.
Proof.
  induction ks1 as [|k1 ks1 IH]; intros ks2 items H1 H2.
  - apply Forall2_nil_inv_l in H1 as ->.
    apply Forall2_nil_inv_r in H2 as ->. split; [done|].
    by intros k ?%not_elem_of_nil.
  - apply Forall2_cons_inv_l in H1 as (item & items' & (v1 & Hv1 & ->) & H1 & ->).
    apply Forall2_cons_inv_r in H2 as (k2 & ks2' & (v2 & Hv2 & [= <- <-]) & H2 & ->).
    destruct (IH ks2' items' H1 H2) as [-> Hag]. split; [done|].
    intros k [->|Hk]%elem_of_cons; [congruence|by apply Hag].
Qed.

(** [dict_strategy] tells two mappings apart unless they hold the same
    pairs *)
Lemma dict_strategy_inj d1 d2 :
  NoDup d1.*1 → NoDup d2.*1 →
  dict_strategy (PDict d1) = dict_strategy (PDict d2) → d1 ≡ₚ d2.
Proof.
  intros Hnd1 Hnd2 Heq.
  destruct (dict_strategy_returns d1) as [items H1].
  assert (dict_strategy (PDict d2) = Ret (PList items)) as H2 by congruence.
  unfold dict_strategy in H1, H2.
  destruct (traverse _ (sorted d1.*1)) as [i1|] eqn:Ht1; [|done].
  destruct (traverse _ (sorted d2.*1)) as [i2|] eqn:Ht2; [|done].
  simpl in H1, H2. injection H1 as ->. injection H2 as ->.
  apply traverse_items_spec in Ht1, Ht2.
  destruct (items_agree d1 d2 _ _ _ Ht1 Ht2) as [Hks Hag].
  assert (∀ k, k ∈ d1.*1 → dict_getitem d1 k = dict_getitem d2 k) as Hag1.
  { intros k Hk. apply Hag. unfold sorted.
    by rewrite merge_sort_Permutation. }
  assert (d1.*1 ≡ₚ d2.*1) as Hkeys.
  { unfold sorted in Hks.
    rewrite <- (merge_sort_Permutation String.le d1.*1), Hks.
    apply merge_sort_Permutation. }
  apply NoDup_Permutation.
  - by eapply NoDup_fmap_1.
  - by eapply NoDup_fmap_1.
  - intros [k v]. split; intros Hin.
    + apply dict_getitem_Ret. rewrite <- Hag1.
      * by apply dict_getitem_elem.
      * apply list_elem_of_fmap. by exists (k, v).
    + apply dict_getitem_Ret. rewrite Hag1.
      * by apply dict_getitem_elem.
      * rewrite Hkeys. apply list_elem_of_fmap. by exists (k, v).
Qed.

Lemma _hash_input_one_dict a d :
  _hash_input (add_strategy [] a dict_strategy) [(a, PDict d)]
  = (c ← dict_strategy (PDict d); Ret (_hash_component a c)).
Proof.
  unfold _hash_input. simpl. rewrite decide_True by done.
  change (Ret ?v ≫= ?k) with (k v). cbv beta.
  by destruct (dict_strategy (PDict d)).
Qed.

End ReprFacts.

Module CacheHashMixinClaims.
Import CacheHashMixinFacts ReprFacts HashRuns.

#[local] Arguments dict_strategy : simpl never.
#[local] Arguments sha1_hexdigest : simpl never.

(** the string fed to the hash changes with one component exactly when
    the canonical form of that component changes *)
Lemma _hash_input_one_component pre a st post data1 data2 v1 v2 c1 c2 s1 s2 :
  (∀ k, k ∈ (pre ++ post).*1 →
        dict_getitem data1 k = dict_getitem data2 k) →
  dict_getitem data1 a = Ret v1 → dict_getitem data2 a = Ret v2 →
  st v1 = Ret c1 → st v2 = Ret c2 →
  _hash_input (pre ++ (a, st) :: post) data1 = Ret s1 →
  _hash_input (pre ++ (a, st) :: post) data2 = Ret s2 →
  s1 = s2 ↔ c1 = c2.
Proof.
  intros Hag Hv1 Hv2 Hc1 Hc2. unfold _hash_input.
  rewrite !_components_app. simpl. rewrite Hv1, Hv2. simpl.
  rewrite Hc1, Hc2. simpl.
  rewrite <- (_components_agree pre data1 data2), <- (_components_agree post data1 data2).
  2:{ intros k Hk. apply Hag. rewrite fmap_app. apply elem_of_app. by right. }
  2:{ intros k Hk. apply Hag. rewrite fmap_app. apply elem_of_app. by left. }
  destruct (_components pre data1) as [cpre|]; simpl; [|done].
  destruct (_components post data1) as [cpost|]; simpl; [|done].
  destruct (concat_middle ":" cpre cpost) as (p & q & Hpq).
  rewrite !Hpq. intros [= <-] [= <-]. split; [|by intros ->].
  intros Heq. apply (inj (String.append p)) in Heq.
  apply append_inv_tail in Heq.
  by apply _hash_component_inj, repr_inj in Heq.
Qed.

(** a mapping that does not hold the same pairs gives another string *)
Lemma _hash_input_dict_change a d1 d2 :
  NoDup d1.*1 → NoDup d2.*1 → ¬ d1 ≡ₚ d2 →
  ∃ s1 s2,
    _hash_input (add_strategy [] a dict_strategy) [(a, PDict d1)] = Ret s1
    ∧ _hash_input (add_strategy [] a dict_strategy) [(a, PDict d2)] = Ret s2
    ∧ s1 ≠ s2.
Proof.
  intros Hnd1 Hnd2 Hne. rewrite !_hash_input_one_dict.
  destruct (dict_strategy_returns d1) as [i1 H1].
  destruct (dict_strategy_returns d2) as [i2 H2].
  rewrite H1, H2. simpl. eexists _, _. split; [done|]. split; [done|].
  intros Heq. apply _hash_component_inj, repr_inj in Heq. apply Hne.
  apply dict_strategy_inj; congruence.
Qed.


(** [dict_strategy] sorts the mapping it is given, not the mappings
    inside it: there the iteration order still shows in the digest. *)
Lemma nested_mapping_order_shows :
  _build_hash one_dict ctx_nested_xy ≠ _build_hash one_dict ctx_nested_yx.
Proof. vm_compute. by intros [=]. Qed.


End CacheHashMixinClaims.

(** ** Set, then get *)

Module SetThenGet.
Import DiskRuns.

(** C1, as stated, fails on the disk backend: a [set] whose write fails
    returns normally and a [get] of the same key right after it, well
    within the duration, gives [None]. *)
Lemma C1_failed_write_then_get :
  eval (DiskCache.set (pickle := TinyPickle.instance)
          (at_time 1 (Some DiskCache.Mkstemp)) "j" (PInt 3) (DNum 100))
    three_files = Ret tt
  ∧ eval (DiskCache.get (pickle := TinyPickle.instance) (at_time 1 None) "j")
      (exec (DiskCache.set (pickle := TinyPickle.instance)
               (at_time 1 (Some DiskCache.Mkstemp)) "j" (PInt 3) (DNum 100))
         three_files)
    = Ret PNone
  ∧ PNone ≠ PInt 3.
Proof. vm_compute. by repeat split. Qed.

(** C1, amended (set, then get).  Let [kw] be the normalised duration
    of the call.  Memory backend: whatever the operations before, a [set]
    that returns is followed by a [get] of the same key that gives the
    value, as long as the clock has not passed the expiration; and [set]
    does return when each heap holds one tuple per entry and the
    threshold is not negative.  Disk
    backend: the same holds of a [set] whose directory listing and write
    steps meet no fault, for a record that the serialiser gives back.
    Remote backend: the same holds for a positive duration, strictly
    before the store's expiry, for an integer or a value that the
    serialiser gives back. *)
Theorem C1_set_then_get {pickle : Pickle} :
  (∀ key val d now pnow c c' kw now',
     RamCache.set key val d now pnow c = (Ret tt, c') →
     _convert_duration_ (RamCache._default_expire c) d now = Ret kw →
     (now' ≤ kw_expiration kw)%Z →
     eval (RamCache.get key now') c' = Ret val)
  ∧ (∀ key val d now pnow c kw,
       RamCache.consistent c → (0 ≤ RamCache._threshold c)%Z →
       _convert_duration_ (RamCache._default_expire c) d now = Ret kw →
       ∃ c', RamCache.set key val d now pnow c = (Ret tt, c'))
  ∧ (∀ e e' key val d c kw,
       DiskCache.listdir_ok e = true → DiskCache.fault e = None →
       _convert_duration_ (DiskCache._default_expire c) d (DiskCache.now e)
       = Ret kw →
       DiskCache.record_readable (kw_expiration kw) val →
       (DiskCache.now e' ≤ kw_expiration kw)%Z →
       eval (DiskCache.set e key val d) c = Ret tt
       ∧ eval (DiskCache.get e' key) (exec (DiskCache.set e key val d) c)
         = Ret val)
  ∧ (∀ e e' key val d c kw,
       _convert_duration_ (RedisCache._default_expire c) d (RedisCache.now e)
       = Ret kw →
       (0 < kw_duration kw)%Z →
       (RedisCache.rnow e' < RedisCache.rnow e + kw_duration kw)%Z →
       (∃ z, val = PInt z)
       ∨ pickle_loads (pickle_dumps DEFAULT_PROTOCOL val) = Ret val →
       eval (RedisCache.set e key val d) c = Ret tt
       ∧ eval (RedisCache.get e' key) (exec (RedisCache.set e key val d) c)
         = Ret val).
Proof.
  split; [|split; [|split]].
  - intros key val d now pnow c c' kw now' Hset Hkw Hnow. unfold eval.
    eapply RamCacheFacts.ram_get_after_set; [exact Hset|].
    unfold _convert_duration_ in Hkw.
    destruct d as [|s|z]; simpl in Hkw; [| |by simplify_eq/=].
    + by simplify_eq/=.
    + destruct (decide (s = "default")); by simplify_eq/=.
  - intros key val d now pnow c kw. apply RamCacheFacts.ram_set_returns.
  - intros e e' key val d c kw. apply DiskCacheFacts.disk_get_after_set.
  - intros e e' key val d c kw Hkw Hd Hlive Hval. split.
    + unfold eval. by rewrite (RedisCacheFacts.set_run e key val d kw c).
    + rewrite (RedisCacheFacts.redis_get_after_set e e' key val d kw c) by done.
      destruct Hval as [[z ->]|Hrt].
      * apply RedisCacheFacts._load_dump_int.
      * destruct val; try (by apply RedisCacheFacts._load_dump_pickled).
        apply RedisCacheFacts._load_dump_int.
Qed.

Lemma C1_set_then_get_witness :
  eval (RamCache.get "d" 50) Runs.lru_scenario_next = Ret (PInt 4)
  ∧ (eval (DiskCache.set (pickle := TinyPickle.instance) (at_time 1 None)
             "j" (PStr "v") (DNum 100)) three_files = Ret tt
     ∧ eval (DiskCache.get (pickle := TinyPickle.instance) (at_time 50 None)
               "j")
         (exec (DiskCache.set (pickle := TinyPickle.instance)
                  (at_time 1 None) "j" (PStr "v") (DNum 100)) three_files)
       = Ret (PStr "v"))
  ∧ (eval (RedisCache.set (pickle := TinyPickle.instance)
             (RedisRuns.at_time 1) "j" (PStr "v") (DNum 100))
        (RedisRuns.three_keys true) = Ret tt
     ∧ eval (RedisCache.get (pickle := TinyPickle.instance)
               (RedisRuns.at_time 50) "j")
         (exec (RedisCache.set (pickle := TinyPickle.instance)
                  (RedisRuns.at_time 1) "j" (PStr "v") (DNum 100))
            (RedisRuns.three_keys true))
       = Ret (PStr "v")).
Proof.
  destruct (C1_set_then_get (pickle := TinyPickle.instance))
    as (Hram & _ & Hdisk & Hredis).
  split; [|split].
  - apply (Hram "d" (PInt 4) (DNum 100) 4%Z 4%Z Runs.lru_scenario
             Runs.lru_scenario_next
             {| kw_now := 4; kw_duration := 100; kw_expiration := 104 |}).
    + vm_compute. reflexivity.
    + reflexivity.
    + simpl. lia.
  - apply (Hdisk (at_time 1 None) (at_time 50 None) "j" (PStr "v") (DNum 100)
             three_files
             {| kw_now := 1; kw_duration := 100; kw_expiration := 101 |}).
    + reflexivity.
    + reflexivity.
    + reflexivity.
    + split; [vm_compute; reflexivity|]. exists "". vm_compute. reflexivity.
    + simpl. lia.
  - apply (Hredis (RedisRuns.at_time 1) (RedisRuns.at_time 50) "j" (PStr "v")
             (DNum 100) (RedisRuns.three_keys true)
             {| kw_now := 1; kw_duration := 100; kw_expiration := 101 |}).
    + reflexivity.
    + simpl. lia.
    + simpl. lia.
    + right. vm_compute. reflexivity.
Defined.

End SetThenGet.

(** * Further properties *)

(** ** The memory backend, one instance *)

Module RamCacheBehaviour.
Import RamCache RamCacheFacts MoreRuns BackendSpec.

#[local] Arguments heappop : simpl never.
#[local] Arguments heappush : simpl never.
#[local] Arguments list_remove : simpl never.
#[local] Arguments heappop_acc : simpl never.
#[local] Arguments heappop_exp : simpl never.
#[local] Arguments heap_acc_remove : simpl never.
#[local] Arguments heap_exp_remove : simpl never.
#[local] Arguments data_getitem : simpl never.
#[local] Arguments data_delitem : simpl never.
#[local] Arguments _prune : simpl never.
#[local] Arguments _convert_duration_ : simpl never.

(** a hit: the entry is there, not expired, and its access tuple can be
    removed from the access heap *)
Lemma get_hit key now c el hacc :
  data c !! (_prefix c +:+ key) = Some el →
  (now ≤ exp el)%Z →
  list_remove (acc el, _prefix c +:+ key) (_heap_acc c) = Ret hacc →
  ∃ c', get key now c = (Ret (value el), c')
        ∧ data c' = <[_prefix c +:+ key := touched now el]> (data c)
        ∧ _heap_exp c' = _heap_exp c
        ∧ _heap_acc c' = heappush tuple_lt hacc (now, _prefix c +:+ key)
        ∧ same_config c c'.
Proof.
  intros Hk Hnow Hrem. unfold get. mstep. unfold try_except. mstep.
  unfold data_getitem at 1. simpl. rewrite Hk. simpl.
  destruct (Z.ltb_spec (exp el) now) as [|_]; [lia|].
  mstep. unfold heap_acc_remove at 1. simpl. rewrite Hrem. simpl.
  repeat mstep. eexists. split; [done|]. simpl.
  unfold set_acc. rewrite alter_alt, Hk. by repeat split.
Qed.

(** an entry that has expired is a miss and stays where it is *)
Lemma get_expired key now c el :
  data c !! (_prefix c +:+ key) = Some el → (exp el < now)%Z →
  get key now c = (Ret PNone, c).
Proof.
  intros Hk Hexp. unfold get. mstep. unfold try_except. mstep.
  unfold data_getitem at 1. simpl. rewrite Hk. simpl.
  by destruct (Z.ltb_spec (exp el) now) as [_|]; [|lia].
Qed.

(** what a [set] that returns leaves for its key *)
Lemma set_result key val d now pnow c c2 kw :
  set key val d now pnow c = (Ret tt, c2) →
  _convert_duration_ (_default_expire c) d now = Ret kw →
  same_config c c2
  ∧ data c2 !! (_prefix c +:+ key)
    = Some {| value := val; exp := kw_expiration kw;
              acc := kw_now kw |}
  ∧ (kw_now kw, _prefix c +:+ key) ∈ _heap_acc c2.
Proof.
  intros (kw' & cp & Hkw' & Hp & ->)%set_Ret_inv Hkw.
  assert (kw' = kw) as -> by congruence.
  pose proof (keeps_config__prune pnow c) as Hcfg.
  rewrite Hp in Hcfg. simpl in Hcfg.
  split; [exact Hcfg|]. simpl. split; [apply lookup_insert_eq|].
  apply heappush_elem.
Qed.

(** [get] leaves the configuration alone *)
Lemma get_keeps_config key now c : same_config c (get key now c).2.
Proof.
  unfold get. mstep. unfold try_except. mstep.
  unfold data_getitem at 1. simpl.
  destruct (data c !! (_prefix c +:+ key)) as [e|]; [|done].
  simpl. destruct (exp e <? now)%Z; [done|].
  mstep. unfold heap_acc_remove at 1. simpl.
  destruct (list_remove (acc e, _prefix c +:+ key) (_heap_acc c))
    as [h|e0]; [|by destruct e0].
  by repeat mstep.
Qed.

(** X1.  [get] on a state in which each heap holds one tuple per entry:
    it never raises and keeps the state such; it returns the stored value
    as long as the clock has not passed the expiration ([exp < now] is
    the test, so the value is still returned at [now = exp]) and [None]
    otherwise; a miss or an expired entry leaves the state untouched (the
    expired entry is not removed); a hit changes nothing but the access
    time of that entry, which becomes [now]. *)
Theorem get_on_consistent_state key now c :
  consistent c →
  ∃ v c',
    get key now c = (Ret v, c')
    ∧ consistent c'
    ∧ match data c !! (_prefix c +:+ key) with
      | None => v = PNone ∧ c' = c
      | Some el =>
          if (exp el <? now)%Z then v = PNone ∧ c' = c
          else v = value el
               ∧ data c' = <[_prefix c +:+ key := touched now el]> (data c)
      end.
Proof.
  intros Hc.
  destruct (data c !! (_prefix c +:+ key)) as [el|] eqn:Hk.
  - destruct (Z.ltb_spec (exp el) now) as [Hexp|Hlive].
    + exists PNone, c. by rewrite (get_expired key now c el).
    + assert ((acc el, _prefix c +:+ key) ∈ _heap_acc c) as Hin.
      { destruct Hc as [_ ->]. apply tuples_of_elem. eauto. }
      destruct (list_remove_elem _ _ Hin) as [hacc Hrem].
      destruct (get_hit key now c el hacc Hk Hlive Hrem)
        as (c' & Hrun & Hdata & Hexp & Hacc & _).
      exists (value el), c'. split; [done|]. split; [|done].
      destruct (get_consistent key now c Hc) as (v2 & c2 & Hrun2 & Hc2).
      congruence.
  - exists PNone, c. by rewrite get_miss.
Qed.

Lemma get_on_consistent_state_witness :
  ∃ v c',
    get "a" 100 one_entry = (Ret v, c')
    ∧ consistent c'
    ∧ match data one_entry !! (_prefix one_entry +:+ "a") with
      | None => v = PNone ∧ c' = one_entry
      | Some el =>
          if (exp el <? 100)%Z then v = PNone ∧ c' = one_entry
          else v = value el
               ∧ data c' = <[_prefix one_entry +:+ "a" := touched 100 el]>
                             (data one_entry)
      end.
Proof.
  apply (get_on_consistent_state "a" 100 one_entry).
  split; vm_compute; reflexivity.
Defined.

(** X2.  [clear].  Whatever the state, [clear(key)] and [clear()] raise
    nothing, and [clear()] leaves an empty map and empty heaps, after
    which every [get] is a miss.  On a state in which each heap holds one
    tuple per entry, [clear(key)] removes that entry and no other, keeps
    the state such, and a [get] of the key is then a miss. *)
Theorem clear_behaviour :
  (∀ key c, ∃ c', clear key c = (Ret tt, c') ∧ same_config c c')
  ∧ (∀ c, data (exec (clear None) c) = ∅
          ∧ _heap_exp (exec (clear None) c) = []
          ∧ _heap_acc (exec (clear None) c) = []
          ∧ ∀ key now, eval (get key now) (exec (clear None) c) = Ret PNone)
  ∧ (∀ key c,
       consistent c →
       data (exec (clear (Some key)) c)
       = delete (_prefix c +:+ key) (data c)
       ∧ consistent (exec (clear (Some key)) c)
       ∧ ∀ now, eval (get key now) (exec (clear (Some key)) c) = Ret PNone).
Proof.
  split; [|split].
  - intros key c. unfold clear. mstep. destruct key as [key|]; simpl.
    + unfold try_except. mstep. unfold data_getitem at 1. simpl.
      destruct (data c !! (_prefix c +:+ key)) as [e|] eqn:Hk;
        [|by exists c].
      simpl. mstep. unfold heap_acc_remove at 1. simpl.
      destruct (list_remove (acc e, _prefix c +:+ key) (_heap_acc c))
        as [hacc|]; [|by exists c].
      simpl. mstep. unfold heap_exp_remove at 1. simpl.
      destruct (list_remove (exp e, _prefix c +:+ key) (_heap_exp c))
        as [hexp|]; [|by eexists].
      simpl. unfold data_delitem. simpl. rewrite Hk. by eexists.
    + repeat mstep. by eexists.
  - intros c. unfold exec, eval, clear. repeat mstep.
    do 3 (split; [done|]). intros key now. by rewrite get_miss.
  - intros key c Hc.
    assert (∃ c', clear (Some key) c = (Ret tt, c')
                  ∧ data c' = delete (_prefix c +:+ key) (data c)
                  ∧ _prefix c' = _prefix c) as (c' & Hrun & Hdata & Hpfx).
    { unfold clear. mstep. unfold try_except. mstep.
      unfold data_getitem at 1. simpl.
      destruct (data c !! (_prefix c +:+ key)) as [e|] eqn:Hk.
      2:{ exists c. split; [done|]. by rewrite delete_id. }
      simpl. mstep. unfold heap_acc_remove at 1. simpl.
      assert ((acc e, _prefix c +:+ key) ∈ _heap_acc c) as Hina.
      { destruct Hc as [_ ->]. apply tuples_of_elem. eauto. }
      assert ((exp e, _prefix c +:+ key) ∈ _heap_exp c) as Hine.
      { destruct Hc as [-> _]. apply tuples_of_elem. eauto. }
      destruct (list_remove_elem _ _ Hina) as [hacc ->]. simpl.
      mstep. unfold heap_exp_remove at 1. simpl.
      destruct (list_remove_elem _ _ Hine) as [hexp ->]. simpl.
      unfold data_delitem. simpl. rewrite Hk. by eexists. }
    destruct (clear_consistent (Some key) c Hc) as (c2 & Hrun2 & Hc2).
    assert (c2 = c') as -> by congruence.
    unfold exec, eval. rewrite Hrun. simpl. split; [done|]. split; [done|].
    intros now. rewrite get_miss; [done|].
    rewrite Hdata, Hpfx. apply lookup_delete_eq.
Qed.

Lemma clear_behaviour_witness :
  data (exec (clear (Some "a"))
          one_entry)
  = delete "a"
      (data one_entry)
  ∧ consistent
      (exec (clear (Some "a"))
         one_entry)
  ∧ ∀ now, eval (get "a" now)
             (exec (clear (Some "a"))
                one_entry)
           = Ret PNone.
Proof.
  apply (proj2 (proj2 clear_behaviour) "a"
           one_entry).
  split; vm_compute; reflexivity.
Defined.

(** *** What the pruning pass leaves *)

(** the first loop removes expired entries only *)
Lemma _prune_expired_keeps fuel now c c' :
  consistent c →
  _prune_expired fuel now c = (Ret tt, c') →
  data c' ⊆ data c
  ∧ ∀ k el, data c !! k = Some el → (now ≤ exp el)%Z →
            data c' !! k = Some el.
Proof.
  revert c; induction fuel as [|fuel IH]; intros c Hc; simpl.
  { by intros [= <-]. }
  mstep. destruct (_heap_exp c) as [|x0 h0] eqn:Hheap.
  { by intros [= <-]. }
  mstep. unfold heappop_exp at 1. rewrite Hheap.
  destruct (heappop_nonempty tuple_lt (x0 :: h0)) as ([exp_ rk] & h & Hpop);
    [done|].
  rewrite Hpop. simpl.
  pose proof (heappop_perm _ _ _ _ Hpop) as Hperm. rewrite <- Hheap in Hperm.
  destruct (consistent_tuple_exp c exp_ rk Hc) as (e & Hk & <- & Hacc).
  { rewrite Hperm. left. }
  destruct (Z.ltb_spec (exp e) now) as [Hexp|Hlive].
  - mstep. unfold data_getitem at 1. simpl. rewrite Hk. simpl.
    mstep. unfold heap_acc_remove at 1. simpl.
    destruct (list_remove_elem _ _ Hacc) as [hacc Hrem]. rewrite Hrem. simpl.
    mstep. unfold data_delitem at 1. simpl. rewrite Hk. simpl.
    intros Hrun. apply IH in Hrun as [Hsub Hkeep].
    2:{ apply (consistent_delete c rk e h hacc Hc Hk Hperm).
        by apply list_remove_perm. }
    simpl in Hsub, Hkeep. split.
    + etrans; [exact Hsub|]. apply delete_subseteq.
    + intros k el Hkel Hn. apply Hkeep; [|done].
      rewrite lookup_delete_ne; [done|]. intros ->.
      rewrite Hk in Hkel. injection Hkel as ->. lia.
  - intros [= <-]. simpl. done.
Qed.

(** the second loop does nothing while the map holds at most
    [_threshold] entries *)
Lemma _prune_exceeding_below fuel c :
  (Z.of_nat (size (data c)) ≤ _threshold c)%Z →
  _prune_exceeding fuel c = (Ret tt, c).
Proof.
  intros Hle. destruct fuel as [|fuel]; [done|]. simpl. do 2 mstep.
  by destruct (Z.ltb_spec (_threshold c) (Z.of_nat (size (data c))));
    [lia|].
Qed.

Lemma _prune_below now c :
  consistent c → (Z.of_nat (size (data c)) ≤ _threshold c)%Z →
  ∃ c', _prune now c = (Ret tt, c')
        ∧ consistent c'
        ∧ same_config c c'
        ∧ data c' ⊆ data c
        ∧ ∀ k el, data c !! k = Some el → (now ≤ exp el)%Z →
                  data c' !! k = Some el.
Proof.
  intros Hc Hle. unfold _prune. rewrite bind_run. unfold gets at 1.
  generalize (S (length (_heap_exp c))). intros n1.
  destruct (_prune_expired_consistent n1 now c Hc) as (c1 & Hrun1 & Hc1).
  destruct (_prune_expired_keeps n1 now c c1 Hc Hrun1) as [Hsub Hkeep].
  pose proof (keeps_config__prune_expired n1 now c) as Hcfg.
  rewrite Hrun1 in Hcfg. simpl in Hcfg.
  rewrite bind_run, Hrun1. rewrite bind_run. unfold gets at 1.
  generalize (S (size (data c1))). intros n2.
  exists c1. split; [|done].
  apply _prune_exceeding_below.
  destruct Hcfg as (_ & -> & _).
  apply map_subseteq_size in Hsub. lia.
Qed.

(** X3.  Below capacity a [set] disturbs no other live entry.  From a
    state in which each heap holds one tuple per entry and the map holds
    at most [_threshold] entries, a [set] with a valid duration returns;
    the entries of the map afterwards are the new one and entries that
    were there before; every other entry that has not expired at the
    time of the pruning pass is still there, and a [get] of it gives its
    value until it expires. *)
Theorem set_below_capacity key val d now pnow c kw :
  consistent c →
  (Z.of_nat (size (data c)) ≤ _threshold c)%Z →
  _convert_duration_ (_default_expire c) d now = Ret kw →
  ∃ c',
    set key val d now pnow c = (Ret tt, c')
    ∧ (∀ k el, data c' !! k = Some el →
               k = _prefix c +:+ key ∨ data c !! k = Some el)
    ∧ (∀ k el, k ≠ _prefix c +:+ key → data c !! k = Some el →
               (pnow ≤ exp el)%Z → data c' !! k = Some el)
    ∧ (∀ key' el now',
         _prefix c +:+ key' ≠ _prefix c +:+ key →
         data c !! (_prefix c +:+ key') = Some el →
         (pnow ≤ exp el)%Z → (now' ≤ exp el)%Z →
         eval (get key' now') c' = Ret (value el)).
Proof.
  intros Hc Hle Hkw.
  destruct (_prune_below pnow c Hc Hle)
    as (cp & Hp & Hcp & (Hpfx & _ & _) & Hsub & Hkeep).
  assert (0 ≤ _threshold c)%Z as Hth by lia.
  destruct (ram_set_returns key val d now pnow c kw Hc Hth Hkw) as [c' Hset].
  exists c'. split; [done|].
  apply set_Ret_inv in Hset as (kw' & cp' & Hkw' & Hp' & ->).
  assert (cp' = cp) as -> by congruence. clear Hp'.
  simpl. split; [|split].
  - intros k el. destruct (decide (k = _prefix c +:+ key)) as [->|Hne];
      [by left|].
    rewrite lookup_insert_ne by done. intros Hk. right.
    by eapply lookup_weaken.
  - intros k el Hne Hk Hlive. rewrite lookup_insert_ne by done.
    by apply Hkeep.
  - intros key' el now' Hne Hk Hlive Hnow.
    pose proof (Hkeep _ _ Hk Hlive) as Hk'.
    assert ((acc el, _prefix c +:+ key') ∈ _heap_acc cp) as Hin.
    { destruct Hcp as [_ ->]. apply tuples_of_elem. eauto. }
    set (c2 := with_data _ _).
    assert (_prefix c2 = _prefix c) as Hpfx2 by (by rewrite <- Hpfx).
    destruct (list_remove_elem
                (_heap_acc c2) (acc el, _prefix c2 +:+ key'))
      as [hacc Hrem].
    { unfold c2. simpl. rewrite heappush_perm, Hpfx. by right. }
    destruct (get_hit key' now' c2 el hacc) as (c3 & Hrun & _); [|done..|].
    { unfold c2. simpl. rewrite Hpfx, lookup_insert_ne by done. done. }
    unfold eval. by rewrite Hrun.
Qed.

Lemma set_below_capacity_witness :
  ∃ c',
    set "b" (PInt 2) (DNum 100) 1 1
      one_entry
    = (Ret tt, c')
    ∧ eval (get "a" 50) c' = Ret (PInt 1).
Proof.
  destruct (set_below_capacity "b" (PInt 2) (DNum 100) 1 1
              one_entry
              {| kw_now := 1; kw_duration := 100; kw_expiration := 101 |})
    as (c' & Hrun & _ & _ & Hget).
  - split; vm_compute; reflexivity.
  - vm_compute. discriminate.
  - reflexivity.
  - exists c'. split; [exact Hrun|].
    apply (Hget "a" {| value := PInt 1; exp := 100; acc := 0 |} 50%Z).
    + vm_compute. discriminate.
    + vm_compute. reflexivity.
    + simpl. lia.
    + simpl. lia.
Defined.

(** *** A negative threshold *)

Lemma _prune_exceeding_negative n : ∀ c,
  consistent c → (_threshold c < 0)%Z → size (data c) = n →
  ∃ c', _prune_exceeding (S n) c = (Raise IndexError, c') ∧ data c' = ∅.
Proof.
  induction n as [|n IH]; intros c Hc Hth Hsize.
  - apply map_size_empty_inv in Hsize.
    assert (_heap_acc c = []) as Hnil.
    { destruct Hc as [_ Ha]. rewrite Hsize, tuples_of_empty in Ha.
      by apply Permutation_nil_r in Ha. }
    simpl. do 2 mstep. rewrite Hsize, map_size_empty.
    destruct (Z.ltb_spec (_threshold c) (Z.of_nat 0)); [|lia].
    mstep. unfold heappop_acc at 1. rewrite Hnil.
    exists c. by split.
  - cbn [_prune_exceeding]. do 2 mstep.
    destruct (Z.ltb_spec (_threshold c) (Z.of_nat (size (data c))));
      [|lia].
    assert (_heap_acc c ≠ []) as Hne.
    { destruct Hc as [_ Ha]. intros Hnil. rewrite Hnil in Ha.
      symmetry in Ha. apply Permutation_nil_r in Ha.
      unfold tuples_of in Ha. apply fmap_nil_inv in Ha.
      apply map_to_list_empty_iff in Ha.
      rewrite Ha, map_size_empty in Hsize. lia. }
    mstep. unfold heappop_acc at 1.
    destruct (heappop_nonempty tuple_lt _ Hne) as ([acc_ rk] & h & Hpop).
    rewrite Hpop. simpl.
    pose proof (heappop_perm _ _ _ _ Hpop) as Hperm.
    destruct (consistent_tuple_acc c acc_ rk Hc) as (e & Hk & <- & Hexp).
    { rewrite Hperm. left. }
    mstep. unfold data_getitem at 1. simpl. rewrite Hk. simpl.
    mstep. unfold heap_exp_remove at 1. simpl.
    destruct (list_remove_elem _ _ Hexp) as [hexp Hrem]. rewrite Hrem. simpl.
    mstep. unfold data_delitem at 1. simpl. rewrite Hk. simpl.
    apply IH; [|done|].
    + pose proof (consistent_delete c rk e hexp h Hc Hk
                    (list_remove_perm _ _ _ Hrem) Hperm) as [He' Ha'].
      by split.
    + simpl. pose proof (map_size_delete rk (data c)) as Hs.
      rewrite Hk in Hs. simpl in Hs. lia.
Qed.

Lemma _prune_negative now c :
  consistent c → (_threshold c < 0)%Z →
  ∃ c', _prune now c = (Raise IndexError, c') ∧ data c' = ∅.
Proof.
  intros Hc Hth. unfold _prune. rewrite bind_run. unfold gets at 1.
  generalize (S (length (_heap_exp c))). intros n1.
  destruct (_prune_expired_consistent n1 now c Hc) as (c1 & Hrun1 & Hc1).
  pose proof (keeps_config__prune_expired n1 now c) as (_ & Hth1 & _).
  rewrite Hrun1 in Hth1. simpl in Hth1.
  rewrite bind_run, Hrun1. rewrite bind_run. unfold gets at 1.
  apply _prune_exceeding_negative; [done|by rewrite Hth1|done].
Qed.

(** X4.  With a negative threshold every [set] fails: from a state in
    which each heap holds one tuple per entry, the second loop of
    [_prune] empties the map and then pops the empty access heap, so
    [set] raises [IndexError], the new entry not stored. *)
Theorem set_negative_threshold key val d now pnow c kw :
  consistent c →
  (_threshold c < 0)%Z →
  _convert_duration_ (_default_expire c) d now = Ret kw →
  ∃ c', set key val d now pnow c = (Raise IndexError, c') ∧ data c' = ∅.
Proof.
  intros Hc Hth Hkw. unfold set. do 2 mstep. rewrite Hkw.
  do 2 mstep.
  destruct (_prune_negative pnow c Hc Hth) as (c' & -> & Hdata).
  by exists c'.
Qed.

Lemma set_negative_threshold_witness :
  ∃ c', set "a" (PInt 1) (DNum 100) 0 0 (init "" (-1) 300)
        = (Raise IndexError, c') ∧ data c' = ∅.
Proof.
  apply (set_negative_threshold "a" (PInt 1) (DNum 100) 0 0
           (init "" (-1) 300)
           {| kw_now := 0; kw_duration := 100; kw_expiration := 100 |}).
  - split; vm_compute; reflexivity.
  - simpl. lia.
  - reflexivity.
Defined.

End RamCacheBehaviour.

(** ** The memory backend, several instances on the class attributes *)

Module RamCacheClassFacts.
Import RamCacheFacts RamCacheBehaviour MoreRuns.

#[local] Arguments heappop : simpl never.
#[local] Arguments heappush : simpl never.
#[local] Arguments list_remove : simpl never.
#[local] Arguments RamCache.heappop_acc : simpl never.
#[local] Arguments RamCache.heappop_exp : simpl never.
#[local] Arguments RamCache.heap_acc_remove : simpl never.
#[local] Arguments RamCache.heap_exp_remove : simpl never.
#[local] Arguments RamCache.data_getitem : simpl never.
#[local] Arguments RamCache.data_delitem : simpl never.
#[local] Arguments RamCache._prune : simpl never.
#[local] Arguments _convert_duration_ : simpl never.

(** an entry whose access tuple is not in the access heap: [list.remove]
    raises [ValueError], which [get] does not catch *)
Lemma get_missing_tuple key now c el :
  RamCache.data c !! (RamCache._prefix c +:+ key) = Some el →
  (now ≤ RamCache.exp el)%Z →
  (RamCache.acc el, RamCache._prefix c +:+ key) ∉ RamCache._heap_acc c →
  RamCache.get key now c = (Raise ValueError, c).
Proof.
  intros Hk Hnow Hin. unfold RamCache.get. mstep. unfold try_except. mstep.
  unfold RamCache.data_getitem at 1. simpl. rewrite Hk. simpl.
  destruct (Z.ltb_spec (RamCache.exp el) now) as [|_]; [lia|].
  mstep. unfold RamCache.heap_acc_remove at 1. simpl.
  by rewrite (list_remove_not_elem _ _ Hin).
Qed.

(** expired tuples in the expiration heap of an empty map: the first
    loop of [_prune] pops one and looks its key up in the map *)
Lemma _prune_expired_stale fuel now c :
  RamCache.data c = ∅ →
  RamCache._heap_exp c ≠ [] →
  Forall (λ t, (t.1 < now)%Z) (RamCache._heap_exp c) →
  ∃ c', RamCache._prune_expired (S fuel) now c = (Raise KeyError, c').
Proof.
  intros Hdata Hne Hall. cbn [RamCache._prune_expired]. mstep.
  destruct (RamCache._heap_exp c) as [|x0 h0] eqn:Hheap; [done|].
  mstep. unfold RamCache.heappop_exp at 1. rewrite Hheap.
  destruct (heappop_nonempty tuple_lt (x0 :: h0)) as ([exp_ rk] & h & Hpop);
    [done|].
  rewrite Hpop. simpl.
  pose proof (heappop_perm _ _ _ _ Hpop) as Hperm.
  assert ((exp_, rk) ∈ x0 :: h0) as Hin by (rewrite Hperm; left).
  rewrite Forall_forall in Hall. specialize (Hall _ Hin). simpl in Hall.
  destruct (Z.ltb_spec exp_ now); [|lia].
  mstep. unfold RamCache.data_getitem at 1. simpl.
  rewrite Hdata, lookup_empty. by eexists.
Qed.

Lemma set_on_stale_heap key val d now pnow c kw :
  RamCache.data c = ∅ →
  RamCache._heap_exp c ≠ [] →
  Forall (λ t, (t.1 < pnow)%Z) (RamCache._heap_exp c) →
  _convert_duration_ (RamCache._default_expire c) d now = Ret kw →
  eval (RamCache.set key val d now pnow) c = Raise KeyError.
Proof.
  intros Hdata Hne Hall Hkw. unfold eval, RamCache.set. do 2 mstep.
  rewrite Hkw. do 2 mstep.
  unfold RamCache._prune. rewrite bind_run. unfold gets at 1.
  destruct (_prune_expired_stale (length (RamCache._heap_exp c)) pnow c
              Hdata Hne Hall) as [c' Hrun].
  by rewrite bind_run, Hrun.
Qed.

Import RamCacheClass.

Lemma view_commit self cls c :
  RamCache.same_config (view self cls) c →
  view (commit self cls c).1 (commit self cls c).2 = c.
Proof.
  intros (Hp & Ht & Hd). simpl in Hp, Ht, Hd. destruct c. simpl in *.
  subst. unfold view. simpl.
  by destruct (own_heap_exp self), (own_heap_acc self).
Qed.

Lemma eval_method {A} (m : M RamCache.t A) w :
  eval (method m) w = eval m (view w.1 w.2).
Proof.
  unfold eval, method. by destruct (m (view w.1 w.2)).
Qed.

Lemma exec_method {A} (m : M RamCache.t A) w :
  exec (method m) w = commit w.1 w.2 (exec m (view w.1 w.2)).
Proof.
  unfold exec, method. by destruct (m (view w.1 w.2)).
Qed.

(** X5.  The three containers belong to the class.  An entry stored
    through one instance is returned through any other instance that
    addresses the same prefixed key (both working on the heaps of the
    class), until it expires; and [clear()] through one instance empties
    the map of every instance: each [get], through whichever instance, is
    then a miss. *)
Theorem class_state_is_shared :
  (∀ a b cls key val d now pnow a' cls' kw key' now',
     own_heap_acc a = None → own_heap_acc b = None →
     set key val d now pnow (a, cls) = (Ret tt, (a', cls')) →
     _convert_duration_ (_default_expire a) d now = Ret kw →
     _prefix b +:+ key' = _prefix a +:+ key →
     (now' ≤ kw_expiration kw)%Z →
     eval (get key' now') (b, cls') = Ret val)
  ∧ (∀ a b cls key now,
       eval (get key now) (b, (exec (clear None) (a, cls)).2) = Ret PNone).
Proof.
  split.
  - intros a b cls key val d now pnow a' cls' kw key' now'
      Ha2 Hb Hset Hkw Hkey Hnow.
    unfold set, method in Hset. simpl in Hset.
    destruct (RamCache.set key val d now pnow (view a cls))
      as [r c2] eqn:Hrun.
    inversion Hset; subst; clear Hset.
    destruct (set_result _ _ _ _ _ _ _ kw Hrun Hkw) as (_ & Hk & Hin).
    simpl in Hk, Hin.
    unfold eval, get, method. simpl.
    set (cv := view b _).
    assert (RamCache._heap_acc cv = RamCache._heap_acc c2) as Hacc.
    { unfold cv, view. simpl. by rewrite Hb, Ha2. }
    destruct (list_remove_elem (RamCache._heap_acc cv)
                (kw_now kw, RamCache._prefix cv +:+ key'))
      as [hacc Hrem].
    { rewrite Hacc. simpl. by rewrite Hkey. }
    destruct (get_hit key' now' cv
                {| RamCache.value := val; RamCache.exp := kw_expiration kw;
                   RamCache.acc := kw_now kw |} hacc) as (c3 & -> & _);
      [|exact Hnow|exact Hrem|done].
    simpl. rewrite Hkey. exact Hk.
  - intros a b cls key now. unfold eval, exec, get, method, clear. simpl.
    by rewrite get_miss.
Qed.

Lemma class_state_is_shared_witness :
  eval (get "k" 50)
    (new "app:" 500 300,
     (exec (set "app:k" (PInt 1) (DNum 100) 0 0) (new "" 500 300, empty)).2)
  = Ret (PInt 1).
Proof.
  apply (proj1 class_state_is_shared (new "" 500 300) (new "app:" 500 300)
           empty "app:k" (PInt 1) (DNum 100) 0%Z 0%Z
           (exec (set "app:k" (PInt 1) (DNum 100) 0 0)
              (new "" 500 300, empty)).1
           (exec (set "app:k" (PInt 1) (DNum 100) 0 0)
              (new "" 500 300, empty)).2
           {| kw_now := 0; kw_duration := 100; kw_expiration := 100 |}).
  - reflexivity.
  - reflexivity.
  - vm_compute. reflexivity.
  - reflexivity.
  - reflexivity.
  - simpl. lia.
Defined.

(** X6.  [clear()] rebinds the two heaps on the instance and empties the
    shared map in place, so the heaps of the class keep the tuples of
    entries that are gone.  For another instance, which still works on
    the heaps of the class: once those tuples have expired its [set]
    raises [KeyError]; and an entry that the clearing instance stores
    afterwards, and reads back itself, makes its [get] raise
    [ValueError], the access tuple being in the heap of the clearing
    instance only. *)
Theorem clear_leaves_class_heaps_stale :
  (∀ a b cls key val d now pnow kw,
     own_heap_exp b = None →
     _heap_exp cls ≠ [] →
     Forall (λ t, (t.1 < pnow)%Z) (_heap_exp cls) →
     _convert_duration_ (_default_expire b) d now = Ret kw →
     eval (set key val d now pnow) (b, (exec (clear None) (a, cls)).2)
     = Raise KeyError)
  ∧ (∀ a b cls key val d now pnow kw key' now',
       own_heap_acc b = None →
       (0 ≤ _threshold a)%Z →
       _convert_duration_ (_default_expire a) d now = Ret kw →
       (kw_now kw, _prefix a +:+ key) ∉ _heap_acc cls →
       _prefix b +:+ key' = _prefix a +:+ key →
       (now' ≤ kw_expiration kw)%Z →
       eval (set key val d now pnow) (exec (clear None) (a, cls)) = Ret tt
       ∧ eval (get key now')
           (exec (set key val d now pnow) (exec (clear None) (a, cls)))
         = Ret val
       ∧ eval (get key' now')
           (b, (exec (set key val d now pnow)
                  (exec (clear None) (a, cls))).2)
         = Raise ValueError).
Proof.
  split.
  - intros a b cls key val d now pnow kw Hb Hne Hall Hkw.
    unfold exec, clear. simpl. unfold set. rewrite eval_method.
    cbn [fst snd]. apply (set_on_stale_heap key val d now pnow _ kw); simpl;
      [done|by rewrite Hb..|done].
  - intros a b cls key val d now pnow kw key' now'
      Hb Hth Hkw Hnin Hkey Hnow.
    pose (a1 := {| _prefix := _prefix a; _threshold := _threshold a;
                   _default_expire := _default_expire a;
                   own_heap_exp := Some []; own_heap_acc := Some [] |}).
    pose (cls1 := {| data := ∅; _heap_exp := _heap_exp cls;
                     _heap_acc := _heap_acc cls |}).
    change (exec (clear None) (a, cls)) with (a1, cls1).
    assert (RamCache.consistent (view a1 cls1)) as Hc0.
    { split; simpl; by rewrite tuples_of_empty. }
    destruct (ram_set_returns key val d now pnow (view a1 cls1) kw Hc0 Hth Hkw)
      as [c2 Hset].
    destruct (set_result _ _ _ _ _ _ _ kw Hset Hkw) as (Hcfg & Hk & Hin).
    simpl in Hk, Hin.
    unfold set, get. rewrite exec_method, !eval_method.
    cbn [fst snd]. unfold exec, eval. rewrite Hset. cbn [fst snd].
    split; [done|]. split.
    + rewrite (view_commit a1 cls1 c2 Hcfg).
      destruct (list_remove_elem _ _ Hin) as [hacc Hrem].
      assert (RamCache._prefix c2 = _prefix a) as Hpfx by apply Hcfg.
      destruct (get_hit key now' c2
                  {| RamCache.value := val; RamCache.exp := kw_expiration kw;
                   RamCache.acc := kw_now kw |} hacc) as (c3 & -> & _);
        [|exact Hnow| |done].
      * rewrite Hpfx. exact Hk.
      * rewrite Hpfx. exact Hrem.
    + rewrite (get_missing_tuple key' now' _
                 {| RamCache.value := val; RamCache.exp := kw_expiration kw;
                   RamCache.acc := kw_now kw |}); [done|..].
      * simpl. rewrite Hkey. exact Hk.
      * exact Hnow.
      * simpl. by rewrite Hb, Hkey.
Qed.

Lemma clear_leaves_class_heaps_stale_witness :
  eval (set "j" (PInt 2) (DNum 100) 200 200)
    (new "" 500 300,
     (exec (clear None) (new "other:" 500 300, shared_one_entry)).2)
  = Raise KeyError.
Proof.
  apply (proj1 clear_leaves_class_heaps_stale (new "other:" 500 300)
           (new "" 500 300) shared_one_entry "j" (PInt 2) (DNum 100)
           200%Z 200%Z
           {| kw_now := 200; kw_duration := 100; kw_expiration := 300 |}).
  - reflexivity.
  - vm_compute. discriminate.
  - apply (bool_decide_unpack _). vm_compute. reflexivity.
  - reflexivity.
Defined.

End RamCacheClassFacts.

(** ** [get_or_set] and the decorator *)

Module CacheHandlerBehaviour.
Import CacheHashMixinFacts.

#[local] Arguments _convert_duration_ : simpl never.
#[local] Arguments sha1_hexdigest : simpl never.
#[local] Arguments dict_strategy : simpl never.

Section any_backend.
Context {St E W : Type} `{!Backend St E}.

(** a miss: the producer runs, then [set] *)
Lemma get_or_set_miss (eg es : E) key (f : M W pyobj) d s w s1 v w1 r s2 :
  backend_get eg key s = (Ret PNone, s1) →
  f w = (Ret v, w1) →
  backend_set es key v d s1 = (r, s2) →
  get_or_set eg es key f d (s, w)
  = (match r with Ret _ => Ret v | Raise e => Raise e end, (s2, w1)).
Proof.
  intros Hget Hf Hset. unfold get_or_set. rewrite bind_run.
  unfold on_fst at 1. simpl. rewrite Hget.
  rewrite bind_run. unfold on_snd at 1. simpl. rewrite Hf.
  rewrite bind_run. unfold on_fst at 1. simpl. rewrite Hset.
  by destruct r as [[]|].
Qed.

(** a hit: neither the producer nor [set] runs *)
Lemma get_or_set_hit (eg es : E) key (f : M W pyobj) d s w v s1 :
  backend_get eg key s = (Ret v, s1) → is_none v = false →
  get_or_set eg es key f d (s, w) = (Ret v, (s1, w)).
Proof.
  intros Hget Hv. unfold get_or_set. rewrite bind_run.
  unfold on_fst at 1. simpl. rewrite Hget. by destruct v.
Qed.
End any_backend.

Lemma _convert_duration_invalid dflt s now :
  s ≠ "default" → _convert_duration_ dflt (DStr s) now = Raise TypeError.
Proof.
  intros Hs. unfold _convert_duration_. by rewrite decide_False.
Qed.

(** on the memory backend: a miss followed by a call within the
    duration *)
Lemma ram_get_or_set_twice {W} (eg es eg' es' : ram_env) key k2
    (f f' : M W pyobj) d d' c w c1 v w1 kw :
  RamCache.consistent c → (0 ≤ RamCache._threshold c)%Z →
  RamCache.get key (t_now eg) c = (Ret PNone, c1) →
  f w = (Ret v, w1) → is_none v = false →
  _convert_duration_ (RamCache._default_expire c) d (t_now es) = Ret kw →
  (t_now eg' ≤ kw_expiration kw)%Z →
  k2 = key →
  ∃ c2 c3,
    get_or_set eg es key f d (c, w) = (Ret v, (c2, w1))
    ∧ get_or_set eg' es' k2 f' d' (c2, w1) = (Ret v, (c3, w1)).
Proof.
  intros Hc Hth Hget Hf Hv Hkw Hnow ->.
  destruct (RamCacheFacts.get_consistent key (t_now eg) c Hc)
    as (v0 & c1' & Hget' & Hc1).
  assert (c1' = c1) as -> by congruence.
  pose proof (RamCacheBehaviour.get_keeps_config key (t_now eg) c)
    as (Hpfx & Hth1 & Hde).
  rewrite Hget in Hpfx, Hth1, Hde. simpl in Hpfx, Hth1, Hde.
  destruct (RamCacheFacts.ram_set_returns key v d (t_now es) (t_prune es)
              c1 kw Hc1) as [c2 Hset];
    [by rewrite Hth1|by rewrite Hde|].
  exists c2.
  destruct (RamCacheBehaviour.set_result _ _ _ _ _ _ _ kw Hset)
    as ((Hpfx2 & _ & _) & Hk & Hin); [by rewrite Hde|].
  destruct (list_remove_elem _ _ Hin) as [hacc Hrem].
  destruct (RamCacheBehaviour.get_hit key (t_now eg') c2
              {| RamCache.value := v; RamCache.exp := kw_expiration kw;
                 RamCache.acc := kw_now kw |} hacc)
    as (c3 & Hget2 & _); [by rewrite Hpfx2|done|by rewrite Hpfx2|].
  exists c3. split.
  - by rewrite (get_or_set_miss eg es key f d c w c1 v w1 (Ret tt) c2).
  - by apply get_or_set_hit.
Qed.

(** X7.  [get_or_set] memoises.  On the memory backend, from a state in
    which each heap holds one tuple per entry: when the key is a miss
    and the producer returns a value other than [None], the call stores
    that value and returns it, the producer having run once; a second
    call for the key, with any producer and any duration, made before
    the expiration, returns the same value without running its
    producer. *)
Theorem get_or_set_memoises {W} (eg es eg' es' : ram_env) key
    (f f' : M W pyobj) d d' c w c1 v w1 kw :
  RamCache.consistent c → (0 ≤ RamCache._threshold c)%Z →
  RamCache.get key (t_now eg) c = (Ret PNone, c1) →
  f w = (Ret v, w1) → is_none v = false →
  _convert_duration_ (RamCache._default_expire c) d (t_now es) = Ret kw →
  (t_now eg' ≤ kw_expiration kw)%Z →
  ∃ c2 c3,
    get_or_set eg es key f d (c, w) = (Ret v, (c2, w1))
    ∧ get_or_set eg' es' key f' d' (c2, w1) = (Ret v, (c3, w1)).
Proof.
  intros Hc Hth Hget Hf Hv Hkw Hnow.
  by eapply (ram_get_or_set_twice eg es eg' es' key key).
Qed.

Lemma get_or_set_memoises_witness :
  ∃ c2 c3,
    get_or_set {| t_now := 0; t_prune := 0 |} {| t_now := 0; t_prune := 0 |}
      "k" (Producer.returning (PInt 7)) (DNum 60)
      (RamCache.init "" 500 300, 0)
    = (Ret (PInt 7), (c2, 1))
    ∧ get_or_set {| t_now := 60; t_prune := 60 |}
        {| t_now := 60; t_prune := 60 |}
        "k" (Producer.returning (PInt 8)) (DNum 60) (c2, 1)
      = (Ret (PInt 7), (c3, 1)).
Proof.
  apply (get_or_set_memoises
           {| t_now := 0; t_prune := 0 |} {| t_now := 0; t_prune := 0 |}
           {| t_now := 60; t_prune := 60 |} {| t_now := 60; t_prune := 60 |}
           "k" (Producer.returning (PInt 7)) (Producer.returning (PInt 8))
           (DNum 60) (DNum 60) (RamCache.init "" 500 300) 0
           (RamCache.init "" 500 300) (PInt 7) 1
           {| kw_now := 0; kw_duration := 60; kw_expiration := 60 |}).
  - split; vm_compute; reflexivity.
  - simpl. lia.
  - reflexivity.
  - reflexivity.
  - reflexivity.
  - reflexivity.
  - simpl. lia.
Defined.

(** X8.  An invalid duration is found out after the producer has run.
    With a string other than ["default"] as duration, on each of the
    three backends, a call of [get_or_set] whose key is a miss runs the
    producer and then raises [TypeError] out of [set]: the value is
    neither returned nor stored, the backend being as [get] left it. *)
Theorem get_or_set_invalid_duration {W} {pickle : Pickle} key
    (f : M W pyobj) s w v w1 :
  s ≠ "default" →
  f w = (Ret v, w1) →
  (∀ (eg es : ram_env) c c1,
     RamCache.get key (t_now eg) c = (Ret PNone, c1) →
     get_or_set eg es key f (DStr s) (c, w) = (Raise TypeError, (c1, w1)))
  ∧ (∀ (eg es : DiskCache.env) c c1,
       DiskCache.get eg key c = (Ret PNone, c1) →
       get_or_set eg es key f (DStr s) (c, w) = (Raise TypeError, (c1, w1)))
  ∧ (∀ (eg es : RedisCache.env) c c1,
       RedisCache.get eg key c = (Ret PNone, c1) →
       get_or_set eg es key f (DStr s) (c, w) = (Raise TypeError, (c1, w1))).
Proof.
  intros Hs Hf. split; [|split].
  - intros eg es c c1 Hget.
    rewrite (get_or_set_miss eg es key f (DStr s) c w c1 v w1
               (Raise TypeError) c1); [done..|].
    simpl. unfold RamCache.set. repeat (rewrite bind_run; simpl).
    unfold lift. by rewrite _convert_duration_invalid.
  - intros eg es c c1 Hget.
    rewrite (get_or_set_miss eg es key f (DStr s) c w c1 v w1
               (Raise TypeError) c1); [done..|].
    simpl. unfold DiskCache.set. repeat (rewrite bind_run; simpl).
    unfold lift. by rewrite _convert_duration_invalid.
  - intros eg es c c1 Hget.
    rewrite (get_or_set_miss eg es key f (DStr s) c w c1 v w1
               (Raise TypeError) c1); [done..|].
    simpl. unfold RedisCache.set. repeat (rewrite bind_run; simpl).
    unfold lift. by rewrite _convert_duration_invalid.
Qed.

Lemma get_or_set_invalid_duration_witness :
  get_or_set {| t_now := 0; t_prune := 0 |} {| t_now := 0; t_prune := 0 |}
    "k" (Producer.returning (PInt 7)) (DStr "60")
    (RamCache.init "" 500 300, 0)
  = (Raise TypeError, (RamCache.init "" 500 300, 1)).
Proof.
  apply (proj1 (get_or_set_invalid_duration (pickle := TinyPickle.instance)
                  "k" (Producer.returning (PInt 7)) "60" 0 (PInt 7) 1
                  ltac:(discriminate) eq_refl)
           {| t_now := 0; t_prune := 0 |} {| t_now := 0; t_prune := 0 |}
           (RamCache.init "" 500 300) (RamCache.init "" 500 300)).
  reflexivity.
Defined.

(** X9.  The base handler caches nothing: its [get] is always a miss and
    its [set] stores nothing, so each call of [get_or_set] runs the
    producer and gives its result (or its exception), and after any
    sequence of calls a counting producer has run once per call. *)
Theorem base_handler_caches_nothing {W} :
  (∀ key (f : M W pyobj) d w,
     get_or_set (St := unit) tt tt key f d (tt, w)
     = ((f w).1, (tt, (f w).2)))
  ∧ (∀ v (calls : list (string * duration)) n,
       foldl (λ w kd, exec (get_or_set (St := unit) tt tt kd.1
                              (Producer.returning v) kd.2) w)
             (tt, n) calls
       = (tt, n + length calls)).
Proof.
  split.
  - intros key f d w. unfold get_or_set. rewrite bind_run.
    unfold on_fst at 1. simpl. rewrite bind_run. unfold on_snd at 1. simpl.
    by destruct (f w) as [[v|e] w'].
  - intros v calls. induction calls as [|[k d] calls IH]; intros n; simpl.
    + by rewrite Nat.add_0_r.
    + replace (n + S (length calls)) with (S n + length calls) by lia.
      by rewrite <- IH.
Qed.

End CacheHandlerBehaviour.

(** ** CacheDecorator *)

Module CacheDecoratorBehaviour.
Import CacheHashMixinFacts CacheDecorator CacheHandlerBehaviour MoreRuns.

#[local] Arguments _convert_duration_ : simpl never.
#[local] Arguments sha1_hexdigest : simpl never.
#[local] Arguments dict_strategy : simpl never.

Lemma traverse_total {A B} (f : A → res B) l :
  (∀ x, x ∈ l → ∃ y, f x = Ret y) → ∃ ys, traverse f l = Ret ys.
Proof.
  induction l as [|x l IH]; intros Hf; simpl; [by eauto|].
  destruct (Hf x) as [y ->]; [left|]. simpl.
  destruct IH as [ys ->]; [|by eauto].
  intros x' Hx'. apply Hf. by right.
Qed.

Lemma dict_getitem_total {V} (d : list (string * V)) k :
  k ∈ d.*1 → ∃ v, dict_getitem d k = Ret v.
Proof.
  induction d as [|[k' v'] d IH]; [by intros ?%not_elem_of_nil|]. simpl.
  destruct (decide (k' = k)) as [->|Hne]; [by eauto|].
  intros [?|?]%elem_of_cons; [done|]. by apply IH.
Qed.

(** [dict_strategy] accepts every mapping *)
Lemma dict_strategy_total d : ∃ l, dict_strategy (PDict d) = Ret (PList l).
Proof.
  unfold dict_strategy.
  destruct (traverse_total
              (λ key, v ← dict_getitem d key; Ret (PTuple [PStr key; v]))
              (sorted d.*1)) as [ys ->]; [|by eauto].
  intros k Hk. unfold sorted in Hk. rewrite merge_sort_Permutation in Hk.
  destruct (dict_getitem_total d k Hk) as [v ->]. by eauto.
Qed.

(** the two components of the decorator *)
Lemma decorator_components args kwargs l :
  dict_strategy (PDict kwargs) = Ret (PList l) →
  _components (add_strategy (add_strategy [] "args" identity)
                 "kwargs" dict_strategy)
    [("args", PTuple args); ("kwargs", PDict kwargs)]
  = Ret [_hash_component "args" (PTuple args);
         _hash_component "kwargs" (PList l)].
Proof.
  intros Hl. cbn [add_strategy]. rewrite decide_False by done.
  cbn [_components dict_getitem].
  rewrite (decide_True (P := "args" = "args")) by done.
  rewrite (decide_False (P := "args" = "kwargs")) by done.
  rewrite (decide_True (P := "kwargs" = "kwargs")) by done.
  unfold identity. simpl. by rewrite Hl.
Qed.

(** the key of a call does not see the order of the keyword arguments *)
Lemma wrap_key_perm key0 d f_module f_name args kwargs kwargs' :
  NoDup kwargs.*1 → kwargs ≡ₚ kwargs' →
  wrap_key (__call__ (init key0 d) f_module f_name) args kwargs
  = wrap_key (__call__ (init key0 d) f_module f_name) args kwargs'.
Proof.
  intros Hnd Hperm. unfold wrap_key.
  set (k := self_key _).
  change (w_strategies (__call__ (init key0 d) f_module f_name))
    with (add_strategy (add_strategy [] "args" identity)
            "kwargs" dict_strategy).
  destruct (dict_strategy_total kwargs) as [l Hl].
  pose proof Hl as Hl'.
  rewrite (dict_strategy_perm kwargs kwargs' Hnd Hperm) in Hl'.
  unfold _build_ctx_key, _build_hash, _hash_input.
  rewrite (decorator_components args kwargs l Hl).
  rewrite (decorator_components args kwargs' l Hl').
  destruct kwargs as [|kv kwargs].
  - apply Permutation_nil_l in Hperm. by subst.
  - destruct kwargs' as [|kv' kwargs'];
      [by apply Permutation_nil_r in Hperm|].
    by destruct args.
Qed.

(** X10.  The key a decorated function is cached under.  Once
    [__call__] has run the key of the decorator is a string that is not
    empty: the one it was given, or the function's module and name
    joined by a dot when none (or an empty one) was given.  The
    computation of the key of a call never raises; a call without
    arguments uses the bare key; and the key of a call does not depend
    on the order in which the keyword arguments come. *)
Theorem wrap_key_behaviour (key0 : option string) d f_module f_name :
  let w := __call__ (init key0 d) f_module f_name in
  self_key w ≠ ""
  ∧ (∀ k, key0 = Some k → k ≠ "" → self_key w = k)
  ∧ (key0 = None ∨ key0 = Some "" →
     self_key w = f_module +:+ "." +:+ f_name)
  ∧ wrap_key w [] [] = Ret (self_key w)
  ∧ (∀ args kwargs, ∃ k, wrap_key w args kwargs = Ret k)
  ∧ (∀ args kwargs kwargs',
       NoDup kwargs.*1 → kwargs ≡ₚ kwargs' →
       wrap_key w args kwargs = wrap_key w args kwargs').
Proof.
  intros w. split; [|split; [|split; [|split; [|split]]]].
  - unfold w, __call__. simpl. destruct key0 as [[|c k]|]; [|done|].
    + by destruct f_module.
    + by destruct f_module.
  - intros k -> Hk. unfold w, __call__. simpl. by destruct k.
  - intros [->| ->]; done.
  - done.
  - intros args kwargs. unfold wrap_key.
    change (w_strategies w)
      with (add_strategy (add_strategy [] "args" identity)
              "kwargs" dict_strategy).
    destruct (dict_strategy_total kwargs) as [l Hl].
    unfold _build_ctx_key, _build_hash, _hash_input.
    rewrite (decorator_components args kwargs l Hl). simpl.
    destruct args, kwargs; by eauto.
  - intros args kwargs kwargs'. apply wrap_key_perm.
Qed.

Lemma wrap_key_behaviour_witness :
  wrap_key (__call__ (init None (DNum 60)) "app.views" "index")
    [PInt 1] [("b", PStr "2"); ("a", PNone)]
  = wrap_key (__call__ (init None (DNum 60)) "app.views" "index")
      [PInt 1] [("a", PNone); ("b", PStr "2")].
Proof.
  apply (proj2 (proj2 (proj2 (proj2 (proj2
           (wrap_key_behaviour None (DNum 60) "app.views" "index")))))
           [PInt 1] [("b", PStr "2"); ("a", PNone)]
           [("a", PNone); ("b", PStr "2")]).
  - apply (bool_decide_unpack _). vm_compute. reflexivity.
  - apply Permutation_swap.
Defined.

(** X11.  A decorated function runs once per set of arguments.  On the
    memory backend, from a state in which each heap holds one tuple per
    entry: when the key of the call is a miss and the function returns a
    value other than [None], the wrapper stores that value and returns
    it; a second call with the same positional arguments and the same
    keyword arguments, in whatever order, made before the expiration,
    returns the same value and does not run the function. *)
Theorem decorated_function_runs_once {W} key0 d f_module f_name
    (f : list pyobj → list (string * pyobj) → M W pyobj)
    (eg es eg' es' : ram_env) args kwargs kwargs' k c w c1 v w1 kw :
  let self := __call__ (init key0 d) f_module f_name in
  RamCache.consistent c → (0 ≤ RamCache._threshold c)%Z →
  NoDup kwargs.*1 → kwargs ≡ₚ kwargs' →
  wrap_key self args kwargs = Ret k →
  RamCache.get k (t_now eg) c = (Ret PNone, c1) →
  f args kwargs w = (Ret v, w1) → is_none v = false →
  _convert_duration_ (RamCache._default_expire c) (w_duration self)
    (t_now es) = Ret kw →
  (t_now eg' ≤ kw_expiration kw)%Z →
  ∃ c2 c3,
    wrap self f eg es args kwargs (c, w) = (Ret v, (c2, w1))
    ∧ wrap self f eg' es' args kwargs' (c2, w1) = (Ret v, (c3, w1)).
Proof.
  intros self Hc Hth Hnd Hperm Hk Hget Hf Hv Hkw Hnow.
  pose proof (wrap_key_perm key0 d f_module f_name args kwargs kwargs'
                Hnd Hperm) as Hk'.
  fold self in Hk'. rewrite Hk in Hk'.
  unfold wrap. rewrite !bind_run. unfold lift. rewrite Hk, <- Hk'.
  by eapply (ram_get_or_set_twice eg es eg' es' k k).
Qed.

Lemma decorated_function_runs_once_witness :
  ∃ c2 c3,
    wrap decorated_f (λ _ _, Producer.returning (PInt 7))
      {| t_now := 0; t_prune := 0 |} {| t_now := 0; t_prune := 0 |}
      [PInt 1] [("b", PStr "2"); ("a", PNone)] (RamCache.init "" 500 300, 0)
    = (Ret (PInt 7), (c2, 1))
    ∧ wrap decorated_f (λ _ _, Producer.returning (PInt 7))
        {| t_now := 60; t_prune := 60 |} {| t_now := 60; t_prune := 60 |}
        [PInt 1] [("a", PNone); ("b", PStr "2")] (c2, 1)
      = (Ret (PInt 7), (c3, 1)).
Proof.
  apply (decorated_function_runs_once None (DNum 60) "app.views" "index"
           (λ _ _, Producer.returning (PInt 7))
           {| t_now := 0; t_prune := 0 |} {| t_now := 0; t_prune := 0 |}
           {| t_now := 60; t_prune := 60 |} {| t_now := 60; t_prune := 60 |}
           [PInt 1] [("b", PStr "2"); ("a", PNone)]
           [("a", PNone); ("b", PStr "2")]
           decorated_f_key (RamCache.init "" 500 300) 0
           (RamCache.init "" 500 300) (PInt 7) 1
           {| kw_now := 0; kw_duration := 60; kw_expiration := 60 |}).
  - split; vm_compute; reflexivity.
  - simpl. lia.
  - apply (bool_decide_unpack _). vm_compute. reflexivity.
  - apply Permutation_swap.
  - vm_compute. reflexivity.
  - vm_compute. reflexivity.
  - reflexivity.
  - reflexivity.
  - reflexivity.
  - simpl. lia.
Defined.

End CacheDecoratorBehaviour.

(** ** Digests and file names *)

Module DigestFacts.
Import HexSpec DiskCache DiskCacheFacts.

#[local] Arguments endswith : simpl never.
#[local] Arguments sha1_hexdigest : simpl never.
#[local] Arguments String.append : simpl never.

Lemma length_append s1 s2 :
  String.length (s1 +:+ s2) = String.length s1 + String.length s2.
Proof.
  induction s1 as [|c s1 IH]; [done|].
  change (String c s1 +:+ s2) with (String c (s1 +:+ s2)).
  simpl. by rewrite IH.
Qed.

Lemma all_hex_append s1 s2 :
  all_hex (s1 +:+ s2) = all_hex s1 && all_hex s2.
Proof.
  induction s1 as [|c s1 IH]; [done|].
  change (String c s1 +:+ s2) with (String c (s1 +:+ s2)).
  simpl. by rewrite IH, andb_assoc.
Qed.

Lemma hex_digit_is_hex n : (n < 16)%N → is_hex (hex_digit n) = true.
Proof.
  intros Hn. rewrite <- (N2Nat.id n).
  assert (N.to_nat n < 16) as Hk by lia. revert Hk.
  generalize (N.to_nat n). intros k Hk.
  do 16 (destruct k as [|k]; [reflexivity|]). lia.
Qed.

Lemma hex_of_format n x :
  String.length (hex_of n x) = n ∧ all_hex (hex_of n x) = true.
Proof.
  induction n as [|n [IHl IHh]]; [done|].
  cbn [hex_of String.length all_hex]. rewrite IHl, IHh. split; [done|].
  rewrite hex_digit_is_hex; [done|].
  change 15%Z with (Z.ones 4). rewrite Z.land_ones by lia.
  pose proof (Z.mod_pos_bound (Z.shiftr x (4 * Z.of_nat n)) (2 ^ 4)).
  lia.
Qed.

(** [hexdigest()] gives forty characters out of [0-9a-f] *)
Lemma sha1_hexdigest_format s :
  String.length (sha1_hexdigest s) = 40 ∧ all_hex (sha1_hexdigest s) = true.
Proof.
  unfold sha1_hexdigest. cbv zeta.
  destruct (sha1_blocks _ _ _) as [[[[h0 h1] h2] h3] h4].
  rewrite !length_append, !all_hex_append.
  destruct (hex_of_format 8 h0) as [-> ->].
  destruct (hex_of_format 8 h1) as [-> ->].
  destruct (hex_of_format 8 h2) as [-> ->].
  destruct (hex_of_format 8 h3) as [-> ->].
  by destruct (hex_of_format 8 h4) as [-> ->].
Qed.

Lemma endswith_inv s suffix :
  endswith s suffix = true → ∃ p, s = p +:+ suffix.
Proof.
  induction s as [|c s IH]; unfold endswith; fold endswith.
  - destruct (String.eqb "" suffix) eqn:E; [|done].
    apply String.eqb_eq in E as <-. by exists "".
  - destruct (String.eqb (String c s) suffix) eqn:E.
    + apply String.eqb_eq in E as <-. by exists "".
    + intros [p ->]%IH. by exists (String c p).
Qed.

Lemma all_hex_is_cache_file s : all_hex s = true → is_cache_file s = true.
Proof.
  intros Hs. unfold is_cache_file.
  destruct (endswith s _fs_transaction_suffix) eqn:E; [|done].
  apply endswith_inv in E as [p ->]. rewrite all_hex_append in Hs.
  apply andb_true_iff in Hs as [_ Hs]. by vm_compute in Hs.
Qed.

Lemma _get_filename_is_cache_file key :
  is_cache_file (_get_filename key) = true.
Proof. apply all_hex_is_cache_file, sha1_hexdigest_format. Qed.

Lemma _get_filename_not_tmp key base :
  _get_filename key ≠ base +:+ _fs_transaction_suffix.
Proof.
  intros Heq. pose proof (_get_filename_is_cache_file key) as Hc.
  by rewrite Heq, tmp_not_cache_file in Hc.
Qed.

(** X12.  Digests and file names.  A digest [_build_hash] returns is
    forty characters out of [0-9a-f]; so is the file name of a key on
    the disk backend, which therefore never ends with the suffix of
    transaction files: the file of a key is among those [_list_dir]
    reports, and it is never the temporary file of a [set]. *)
Theorem digest_format :
  (∀ ss data h,
     _build_hash ss data = Ret h →
     String.length h = 40 ∧ all_hex h = true)
  ∧ (∀ key,
       String.length (_get_filename key) = 40
       ∧ all_hex (_get_filename key) = true
       ∧ is_cache_file (_get_filename key) = true
       ∧ ∀ e, _get_filename key ≠ tmp_base e +:+ _fs_transaction_suffix).
Proof.
  split.
  - intros ss data h. unfold _build_hash.
    destruct (_hash_input ss data) as [s|]; [|done].
    intros [= <-]. apply sha1_hexdigest_format.
  - intros key. destruct (sha1_hexdigest_format key) as [Hl Hh].
    split; [done|]. split; [done|].
    split; [apply _get_filename_is_cache_file|].
    intros e. apply _get_filename_not_tmp.
Qed.

Lemma digest_format_witness :
  String.length "ab4ee03c703cfcca0292dab85afa6891af8b8dda" = 40
  ∧ all_hex "ab4ee03c703cfcca0292dab85afa6891af8b8dda" = true.
Proof.
  apply (proj1 digest_format HashRuns.one_dict HashRuns.ctx_xy).
  vm_compute. reflexivity.
Defined.

End DigestFacts.

(** ** The disk backend *)

Module DiskCacheBehaviour.
Import DiskCache DiskCacheFacts DigestFacts BackendSpec.

#[local] Arguments _convert_duration_ : simpl never.
#[local] Arguments endswith : simpl never.
#[local] Arguments fs_lookup : simpl never.
#[local] Arguments fs_write : simpl never.
#[local] Arguments fs_remove : simpl never.
#[local] Arguments sha1_hexdigest : simpl never.
#[local] Arguments pickle_load : simpl never.
#[local] Arguments pickle_dumps : simpl never.
#[local] Arguments as_number : simpl never.
#[local] Arguments String.append : simpl never.
#[local] Arguments Nat.modulo : simpl never.

Lemma fs_remove_absent d n : fs_lookup d n = None → fs_remove d n = d.
Proof.
  induction d as [|[k g] d IH]; [done|].
  unfold fs_lookup; fold fs_lookup. unfold fs_remove.
  destruct (decide (k = n)) as [->|Hne]; [done|].
  intros Hn. rewrite filter_cons_True by done.
  fold (fs_remove d n). by rewrite IH.
Qed.

Lemma cache_files_lookup d n :
  cache_files d = [] → is_cache_file n = true → fs_lookup d n = None.
Proof.
  intros Hnil Hn. destruct (fs_lookup d n) as [f|] eqn:Hf; [|done].
  assert ((n, f) ∈ cache_files d) as Hin; [|by rewrite Hnil in Hin;
    apply not_elem_of_nil in Hin].
  unfold cache_files. apply list_elem_of_filter. split; [done|].
  clear Hnil Hn. induction d as [|[k g] d IH]; [done|].
  unfold fs_lookup in Hf; fold fs_lookup in Hf.
  destruct (decide (k = n)) as [->|]; [injection Hf as ->; left|].
  right. by apply IH.
Qed.

(** what is left of a directory when the files [names] are removed one
    by one, the removal of those in [refused] failing *)
Lemma fs_lookup_filter_keep (names refused : list string) d name :
  name ∉ names ∨ name ∈ refused →
  fs_lookup
    (filter (λ x : string * file, x.1 ∉ names ∨ x.1 ∈ refused) d) name
  = fs_lookup d name.
Proof.
  intros Hname. induction d as [|[k g] d IH]; [done|].
  rewrite filter_cons. simpl.
  destruct (decide (k ∉ names ∨ k ∈ refused)) as [Hk|Hk].
  - unfold fs_lookup; fold fs_lookup.
    by destruct (decide (k = name)).
  - rewrite IH. unfold fs_lookup at 2; fold fs_lookup.
    rewrite decide_False; [done|]. by intros ->.
Qed.

Lemma fs_lookup_filter_drop (names refused : list string) d name :
  name ∈ names → name ∉ refused →
  fs_lookup
    (filter (λ x : string * file, x.1 ∉ names ∨ x.1 ∈ refused) d) name
  = None.
Proof.
  intros Hin Hnr. induction d as [|[k g] d IH]; [done|].
  rewrite filter_cons. simpl.
  destruct (decide (k ∉ names ∨ k ∈ refused)) as [Hk|Hk]; [|done].
  unfold fs_lookup; fold fs_lookup.
  destruct (decide (k = name)) as [->|]; [|done].
  by destruct Hk.
Qed.

Lemma fs_lookup_cache_file d name f :
  fs_lookup d name = Some f → is_cache_file name = true →
  name ∈ (cache_files d).*1.
Proof.
  intros Hf Hname. apply list_elem_of_fmap. exists (name, f).
  split; [done|]. unfold cache_files. apply list_elem_of_filter.
  split; [done|]. clear Hname.
  induction d as [|[k g] d IH]; [done|].
  unfold fs_lookup in Hf; fold fs_lookup in Hf.
  destruct (decide (k = name)) as [->|]; [injection Hf as ->; left|].
  right. by apply IH.
Qed.

Lemma cache_files_filter (names refused : list string) d :
  (∀ x, x ∈ d → is_cache_file x.1 = true → x.1 ∈ names) →
  cache_files
    (filter (λ x : string * file, x.1 ∉ names ∨ x.1 ∈ refused) d)
  = filter (λ x : string * file, x.1 ∈ refused) (cache_files d).
Proof.
  unfold cache_files. induction d as [|[k g] d IH]; intros Hd; [done|].
  assert (∀ x, x ∈ d → is_cache_file x.1 = true → x.1 ∈ names) as Hd'.
  { intros x Hx. apply Hd. by right. }
  specialize (IH Hd').
  destruct (decide (is_cache_file k = true)) as [Hk|Hk].
  - assert (k ∈ names) as Hkn by (by apply (Hd (k, g)); [left|]).
    rewrite (filter_cons_True (λ x : string * file, is_cache_file x.1 = true)
               (k, g) d) by done.
    destruct (decide (k ∈ refused)) as [Hr|Hr].
    + rewrite (filter_cons_True
                 (λ x : string * file, x.1 ∉ names ∨ x.1 ∈ refused))
        by (by right).
      rewrite !filter_cons_True by done. by rewrite IH.
    + rewrite (filter_cons_False
                 (λ x : string * file, x.1 ∉ names ∨ x.1 ∈ refused))
        by (simpl; tauto).
      rewrite (filter_cons_False (λ x : string * file, x.1 ∈ refused))
        by done.
      exact IH.
  - rewrite (filter_cons_False
               (λ x : string * file, is_cache_file x.1 = true) (k, g) d)
      by done.
    destruct (decide (k ∉ names ∨ k ∈ refused)) as [Hq|Hq].
    + rewrite (filter_cons_True
                 (λ x : string * file, x.1 ∉ names ∨ x.1 ∈ refused))
        by done.
      rewrite filter_cons_False by done. exact IH.
    + rewrite (filter_cons_False
                 (λ x : string * file, x.1 ∉ names ∨ x.1 ∈ refused))
        by done.
      exact IH.
Qed.

Lemma cache_files_names d n : n ∈ (cache_files d).*1 → is_cache_file n = true.
Proof.
  intros ([k g] & -> & Hin)%list_elem_of_fmap.
  by apply list_elem_of_filter in Hin as [Hk _].
Qed.

Section with_pickle.
Context {pickle : Pickle}.
Implicit Types (d : list (string * file)) (c : t) (name : string).

(** [get] reads the file of its key and nothing else *)
Lemma get_ext e key c1 c2 :
  fs_lookup (files c1) (_get_filename key)
  = fs_lookup (files c2) (_get_filename key) →
  eval (get e key) c1 = eval (get e key) c2.
Proof.
  intros Heq. unfold eval, get, try_except. rewrite !bind_run.
  unfold open_rb. rewrite Heq.
  destruct (fs_lookup (files c2) (_get_filename key)) as [f|]; [|done].
  destruct (readable f); [|done].
  rewrite !bind_run. unfold lift. cbv beta.
  destruct (pickle_load (body f)) as [[o rest]|]; [|done].
  rewrite !bind_run. cbv beta.
  destruct (as_number o) as [x|]; [|done].
  destruct (x <? now e)%Z; [done|].
  rewrite !bind_run. cbv beta.
  by destruct (pickle_load rest) as [[val ?]|].
Qed.

Lemma get_absent e key c :
  fs_lookup (files c) (_get_filename key) = None →
  get e key c = (Ret PNone, c).
Proof.
  intros Hf. apply get_no_value. unfold no_value. by rewrite Hf.
Qed.

(** *** [clear] *)

Lemma with_files_id (f : list (string * file) → list (string * file)) c :
  f (files c) = files c → with_files f c = c.
Proof. intros Hf. destruct c. unfold with_files. simpl in *. by rewrite Hf. Qed.

(** [_del_file] never raises; the file goes unless [os.remove] refuses *)
Lemma _del_file_run e n c :
  _del_file e n c
  = (Ret tt,
     if bool_decide (n ∈ remove_refused e) then c
     else with_files (λ d, fs_remove d n) c).
Proof.
  unfold _del_file, try_except, os_remove.
  destruct (fs_lookup (files c) n) as [f|] eqn:Hf.
  - by destruct (bool_decide (n ∈ remove_refused e)).
  - destruct (bool_decide (n ∈ remove_refused e)); [done|].
    rewrite with_files_id; [done|]. by apply fs_remove_absent.
Qed.

Lemma _del_files_files e names : ∀ c,
  files (exec (_del_files e names) c)
  = filter (λ x : string * file, x.1 ∉ names ∨ x.1 ∈ remove_refused e)
      (files c).
Proof.
  induction names as [|n names IH]; intros c.
  - unfold exec. simpl. symmetry. clear.
    induction (files c) as [|x d IH]; [done|].
    rewrite filter_cons_True by (left; apply not_elem_of_nil).
    by rewrite IH.
  - unfold exec. cbn [_del_files]. rewrite bind_run, _del_file_run.
    match goal with
    | |- files (_del_files e names ?c1).2 = _ =>
        change (files (exec (_del_files e names) c1) =
                filter (λ x : string * file,
                          x.1 ∉ n :: names ∨ x.1 ∈ remove_refused e)
                  (files c))
    end.
    rewrite IH.
    destruct (bool_decide_reflect (n ∈ remove_refused e)) as [Hr|Hr].
    + apply list_filter_iff. intros [k g]. simpl.
      rewrite not_elem_of_cons. split.
      * intros [Hk|Hk]; [|by right].
        destruct (decide (k = n)) as [->|]; [by right|by left].
      * intros [[_ Hk]|Hk]; [by left|by right].
    + simpl. unfold fs_remove. rewrite list_filter_filter.
      apply list_filter_iff. intros [k g]. simpl.
      rewrite not_elem_of_cons. split.
      * intros [[Hk|Hk] Hne]; [by left|by right].
      * intros [[Hne Hk]|Hk]; [by split; [left|]|].
        split; [by right|]. by intros ->.
Qed.

(** X13.  [clear(key)] on the disk backend raises nothing, whether the
    file of the key is there or not.  When [os.remove] does not refuse
    the file, the file is removed and a [get] of the key is then a miss;
    when [os.remove] refuses it, the failure is swallowed and nothing
    changes, so the entry stays readable.  Every other file is as it was
    in both cases. *)
Theorem disk_clear_key e key c :
  ∃ c',
    clear e (Some key) c = (Ret tt, c')
    ∧ (_get_filename key ∉ remove_refused e →
       files c' = fs_remove (files c) (_get_filename key)
       ∧ ∀ e', get e' key c' = (Ret PNone, c'))
    ∧ (_get_filename key ∈ remove_refused e →
       c' = c ∧ ∀ e', get e' key c' = get e' key c)
    ∧ (∀ name, name ≠ _get_filename key →
         fs_lookup (files c') name = fs_lookup (files c) name).
Proof.
  unfold clear. fold (_del_file e (_get_filename key)).
  rewrite _del_file_run. eexists. split; [done|].
  destruct (bool_decide_reflect (_get_filename key ∈ remove_refused e))
    as [Hr|Hr].
  - split; [done|]. split; [done|]. done.
  - split; [|split; [done|]].
    + intros _. split; [done|]. intros e'. apply get_absent. simpl.
      apply fs_lookup_remove_eq.
    + intros name Hne. simpl. by apply fs_lookup_remove_ne.
Qed.

Lemma _list_dir_fail e c :
  listdir_ok e = false → _list_dir e c = (Raise OSError, c).
Proof.
  intros Hok. unfold _list_dir. rewrite bind_run. unfold os_listdir.
  by rewrite Hok.
Qed.

Lemma clear_all_run e c :
  listdir_ok e = true →
  ∃ c',
    clear e None c = (Ret tt, c')
    ∧ files c'
      = filter (λ x : string * file,
                  x.1 ∉ (cache_files (files c)).*1 ∨ x.1 ∈ remove_refused e)
          (files c).
Proof.
  intros Hok. unfold clear. rewrite bind_run, (_list_dir_run e c Hok).
  destruct (_del_files_returns e (cache_files (files c)).*1 c) as [c' Hrun].
  exists c'. split; [exact Hrun|].
  pose proof (_del_files_files e (cache_files (files c)).*1 c) as Hfiles.
  unfold exec in Hfiles. by rewrite Hrun in Hfiles.
Qed.

Lemma clear_all_frame (refused : list string) c c' name :
  files c'
  = filter (λ x : string * file,
              x.1 ∉ (cache_files (files c)).*1 ∨ x.1 ∈ refused)
      (files c) →
  is_cache_file name = false ∨ name ∈ refused →
  fs_lookup (files c') name = fs_lookup (files c) name.
Proof.
  intros -> Hname. apply fs_lookup_filter_keep.
  destruct Hname as [Hname|Hname]; [left|by right].
  intros Hin%cache_files_names. by rewrite Hname in Hin.
Qed.

(** X14.  [clear()] on the disk backend.  When the directory can be
    listed it raises nothing and removes every file that is not a
    transaction file, except those [os.remove] refuses: the cache files
    left are the refused ones, unchanged; a [get] of a key whose file is
    not refused is a miss; transaction files and refused files are as
    they were; and when nothing is refused the listing of cache files is
    empty afterwards.  When the directory cannot be listed the exception
    of [os.listdir] comes out of [clear()] and nothing is removed. *)
Theorem disk_clear_all e c :
  (listdir_ok e = true →
   ∃ c',
     clear e None c = (Ret tt, c')
     ∧ cache_files (files c')
       = filter (λ x : string * file, x.1 ∈ remove_refused e)
           (cache_files (files c))
     ∧ (∀ e' key, _get_filename key ∉ remove_refused e →
          get e' key c' = (Ret PNone, c'))
     ∧ (∀ name, is_cache_file name = false ∨ name ∈ remove_refused e →
          fs_lookup (files c') name = fs_lookup (files c) name)
     ∧ (remove_refused e = [] → cache_files (files c') = []))
  ∧ (listdir_ok e = false → clear e None c = (Raise OSError, c)).
Proof.
  split.
  - intros Hok. destruct (clear_all_run e c Hok) as (c' & Hrun & Hfiles).
    exists c'. split; [exact Hrun|].
    assert (cache_files (files c')
            = filter (λ x : string * file, x.1 ∈ remove_refused e)
                (cache_files (files c))) as Hleft.
    { rewrite Hfiles. apply cache_files_filter. intros [k g] Hin Hk.
      apply list_elem_of_fmap. exists (k, g). split; [done|].
      unfold cache_files. by apply list_elem_of_filter. }
    split; [exact Hleft|]. split; [|split].
    + intros e' key Hr. apply get_absent. rewrite Hfiles.
      destruct (fs_lookup (files c) (_get_filename key)) as [f|] eqn:Hf.
      * apply fs_lookup_filter_drop; [|done].
        eapply fs_lookup_cache_file; [done|].
        apply _get_filename_is_cache_file.
      * rewrite fs_lookup_filter_keep; [done|]. left.
        intros Hin.
        assert (_get_filename key ∈ (files c).*1) as Hin'.
        { eapply elem_of_sublist; [exact Hin|].
          unfold cache_files. apply fmap_sublist, sublist_filter. }
        apply fs_lookup_elem in Hin' as [f Hf']. congruence.
    + intros name. by apply clear_all_frame.
    + intros Hnil. rewrite Hleft, Hnil. clear.
      induction (cache_files (files c)) as [|x d IH]; [done|].
      rewrite filter_cons_False by apply not_elem_of_nil. exact IH.
  - intros Hok. unfold clear. by rewrite bind_run, _list_dir_fail.
Qed.

(** *** [set] *)

Lemma try_except_pass_exec {St} (m : M St unit) (s : St) :
  exec (try_except m (λ _, mret tt)) s = exec m s.
Proof. unfold exec, try_except. by destruct (m s) as [[[]|?] ?]. Qed.

(** the pruning pass touches the entries of its listing only *)
Lemma _prune_scan_frame e entries : ∀ i now c name,
  name ∉ entries →
  fs_lookup (files (exec (_prune_scan e i entries now) c)) name
  = fs_lookup (files c) name.
Proof.
  induction entries as [|n entries IH]; intros i now c name Hname; [done|].
  apply not_elem_of_cons in Hname as [Hne Hname]. unfold exec.
  destruct (read_expiry (files c) n) as [x|err] eqn:Hx.
  - rewrite (_prune_scan_step e i n entries now c x Hx).
    fold (exec (_prune_scan e (S i) entries now)
            (if ((x <=? now)%Z || (i mod 3 =? 0))
                && negb (bool_decide (n ∈ remove_refused e))
             then with_files (λ d, fs_remove d n) c else c)).
    rewrite IH by done.
    destruct (((x <=? now)%Z || (i mod 3 =? 0)) && _); [|done].
    simpl. apply fs_lookup_remove_ne. by intros ->.
  - by destruct (_prune_scan_stop e i n entries now c err Hx) as [e' ->].
Qed.

Lemma _prune_frame e c name :
  is_cache_file name = false →
  fs_lookup (files (exec (_prune e) c)) name = fs_lookup (files c) name.
Proof.
  intros Hname. unfold exec, _prune. rewrite bind_run.
  destruct (listdir_ok e) eqn:Hok.
  - rewrite (_list_dir_run e c Hok). rewrite bind_run. simpl.
    destruct (_threshold c <? _)%Z; [|done].
    fold (exec (try_except
                  (_prune_scan e 0 (cache_files (files c)).*1 (pnow e))
                  (λ _, mret tt)) c).
    rewrite try_except_pass_exec. apply _prune_scan_frame.
    intros Hin%cache_files_names. by rewrite Hname in Hin.
  - by rewrite (_list_dir_fail e c Hok).
Qed.

(** below the threshold the pruning pass does nothing *)
Lemma _prune_below_threshold e c :
  listdir_ok e = true →
  (Z.of_nat (length (cache_files (files c))) ≤ _threshold c)%Z →
  _prune e c = (Ret tt, c).
Proof.
  intros Hok Hle. unfold _prune.
  rewrite bind_run, (_list_dir_run e c Hok). rewrite bind_run. simpl.
  rewrite length_fmap.
  by destruct (Z.ltb_spec (_threshold c)
                 (Z.of_nat (length (cache_files (files c))))); [lia|].
Qed.

(** the write sequence without a fault, file by file *)
Lemma write_sequence_files e filename v kw c :
  fault e = None →
  ∃ c',
    write_sequence e filename v kw c = (Ret tt, c')
    ∧ fs_lookup (files c') filename
      = Some {| readable := true;
                body := pickle_dumps (Protocol 1) (PInt (kw_expiration kw))
                        +:+ pickle_dumps HIGHEST_PROTOCOL v |}
    ∧ (filename ≠ tmp_name e → fs_lookup (files c') (tmp_name e) = None)
    ∧ (∀ name, name ≠ filename → name ≠ tmp_name e →
         fs_lookup (files c') name = fs_lookup (files c) name).
Proof.
  intros Hf. unfold write_sequence.
  rewrite bind_run, mkstemp_run by (by rewrite Hf).
  fold (tmp_name e). set (tmp := tmp_name e).
  do 2 (rewrite bind_run, step_ok_pass by (by rewrite Hf)).
  rewrite bind_run.
  erewrite write_run by (simpl; apply fs_lookup_write_eq).
  rewrite bind_run, step_ok_pass by (by rewrite Hf).
  rewrite bind_run.
  erewrite write_run by (simpl; apply fs_lookup_write_eq).
  rewrite bind_run, step_ok_pass by (by rewrite Hf).
  rewrite bind_run. unfold os_rename at 1. simpl.
  rewrite fs_lookup_write_eq.
  unfold chmod. rewrite bind_run, step_ok_pass by (by rewrite Hf).
  unfold set_mode. simpl. rewrite fs_lookup_write_eq.
  eexists. split; [done|]. simpl. split; [|split].
  - by rewrite fs_lookup_write_eq.
  - intros Hne. rewrite !fs_lookup_write_ne by done.
    apply fs_lookup_remove_eq.
  - intros name Hn1 Hn2. rewrite !fs_lookup_write_ne by done.
    rewrite fs_lookup_remove_ne by done.
    by rewrite !fs_lookup_write_ne by done.
Qed.

(** X15.  A [set] without fault writes one file.  The directory being
    listable and the duration valid, [set] returns; afterwards the file
    of the key holds the expiration followed by the value, the temporary
    file is gone, and every other file is as the pruning pass at the
    start of [set] left it, so that a [get] of a key with another file
    name gives what it gave after that pass; and below the threshold the
    pass changes nothing. *)
Theorem set_writes_one_file e key v dur c kw :
  listdir_ok e = true → fault e = None →
  _convert_duration_ (_default_expire c) dur (now e) = Ret kw →
  ∃ c',
    set e key v dur c = (Ret tt, c')
    ∧ fs_lookup (files c') (_get_filename key)
      = Some {| readable := true;
                body := pickle_dumps (Protocol 1) (PInt (kw_expiration kw))
                        +:+ pickle_dumps HIGHEST_PROTOCOL v |}
    ∧ fs_lookup (files c') (tmp_name e) = None
    ∧ (∀ name, name ≠ _get_filename key → name ≠ tmp_name e →
         fs_lookup (files c') name
         = fs_lookup (files (exec (_prune e) c)) name)
    ∧ (∀ e' key', _get_filename key' ≠ _get_filename key →
         eval (get e' key') c' = eval (get e' key') (exec (_prune e) c))
    ∧ ((Z.of_nat (length (cache_files (files c))) ≤ _threshold c)%Z →
       exec (_prune e) c = c).
Proof.
  intros Hok Hf Hkw.
  destruct (_prune_returns e c Hok) as (cp & Hp & _).
  destruct (write_sequence_files e (_get_filename key) v kw cp Hf)
    as (c' & Hrun & Hfile & Htmp & Hframe).
  exists c'. unfold exec. rewrite Hp. simpl.
  split; [|split; [|split; [|split; [|split]]]].
  - rewrite (set_unfold e key v dur c kw cp Hkw Hp).
    by rewrite (try_except_Ret _ _ _ _ _ Hrun).
  - done.
  - apply Htmp, _get_filename_not_tmp.
  - done.
  - intros e' key' Hne. apply get_ext, Hframe; [done|].
    apply _get_filename_not_tmp.
  - intros Hle. rewrite (_prune_below_threshold e c Hok Hle) in Hp.
    congruence.
Qed.

(** a fault between [mkstemp] and the end of [os.rename] leaves the
    temporary file behind *)
Lemma write_sequence_leak e filename v kw c s :
  fault e = Some s → s ≠ Mkstemp → s ≠ Chmod →
  ∃ c',
    write_sequence e filename v kw c = (Raise OSError, c')
    ∧ is_Some (fs_lookup (files c') (tmp_name e)).
Proof.
  intros Hf Hs1 Hs2. unfold write_sequence.
  rewrite bind_run, mkstemp_run by (rewrite Hf; congruence).
  fold (tmp_name e). set (tmp := tmp_name e).
  destruct (decide (s = Fdopen)) as [->|?].
  { rewrite bind_run, step_ok_fail by done. eexists.
    split; [done|]. simpl. by rewrite fs_lookup_write_eq. }
  rewrite bind_run, step_ok_pass by (rewrite Hf; congruence).
  destruct (decide (s = DumpExpiration)) as [->|?].
  { rewrite bind_run, step_ok_fail by done. eexists.
    split; [done|]. simpl. by rewrite fs_lookup_write_eq. }
  rewrite bind_run, step_ok_pass by (rewrite Hf; congruence).
  rewrite bind_run.
  erewrite write_run by (simpl; apply fs_lookup_write_eq).
  destruct (decide (s = DumpValue)) as [->|?].
  { rewrite bind_run, step_ok_fail by done. eexists.
    split; [done|]. simpl. by rewrite fs_lookup_write_eq. }
  rewrite bind_run, step_ok_pass by (rewrite Hf; congruence).
  rewrite bind_run.
  erewrite write_run by (simpl; apply fs_lookup_write_eq).
  assert (s = Rename) as -> by (by destruct s).
  rewrite bind_run, step_ok_fail by done. eexists.
  split; [done|]. simpl. by rewrite fs_lookup_write_eq.
Qed.

(** X16.  Temporary files are never cleaned up.  A [set] whose write
    fails after [mkstemp] and before the end of [os.rename] returns
    normally and leaves its temporary file in the directory; and neither
    the pruning pass nor [clear], with or without a key, ever removes or
    changes a file whose name ends with the transaction suffix. *)
Theorem transaction_files_stay :
  (∀ e key v dur c kw s,
     listdir_ok e = true →
     _convert_duration_ (_default_expire c) dur (now e) = Ret kw →
     fault e = Some s → s ≠ Mkstemp → s ≠ Chmod →
     ∃ c', set e key v dur c = (Ret tt, c')
           ∧ is_Some (fs_lookup (files c') (tmp_name e)))
  ∧ (∀ e c name,
       is_cache_file name = false →
       fs_lookup (files (exec (_prune e) c)) name = fs_lookup (files c) name
       ∧ ∀ key, fs_lookup (files (exec (clear e key) c)) name
                = fs_lookup (files c) name).
Proof.
  split.
  - intros e key v dur c kw s Hok Hkw Hf Hs1 Hs2.
    destruct (_prune_returns e c Hok) as (cp & Hp & _).
    destruct (write_sequence_leak e (_get_filename key) v kw cp s Hf Hs1 Hs2)
      as (c' & Hrun & Htmp).
    exists c'. split; [|done].
    rewrite (set_unfold e key v dur c kw cp Hkw Hp).
    by rewrite (try_except_Raise _ _ _ _ _ Hrun).
  - intros e c name Hname. split; [by apply _prune_frame|].
    intros [key|].
    + unfold exec, clear. fold (_del_file e (_get_filename key)).
      rewrite _del_file_run. simpl.
      destruct (bool_decide (_get_filename key ∈ remove_refused e)); [done|].
      simpl. apply fs_lookup_remove_ne.
      intros Heq. by rewrite <- Heq, _get_filename_is_cache_file in Hname.
    + destruct (listdir_ok e) eqn:Hok.
      * destruct (clear_all_run e c Hok) as (c' & Hrun & Hfr).
        unfold exec. rewrite Hrun. simpl.
        eapply clear_all_frame; [done|by left].
      * unfold exec, clear. by rewrite bind_run, _list_dir_fail.
Qed.

End with_pickle.

Lemma disk_clear_key_witness :
  ∃ c',
    clear (DiskRuns.refusing [_get_filename "k1"] 1) (Some "k1")
      DiskRuns.three_files = (Ret tt, c')
    ∧ c' = DiskRuns.three_files
    ∧ ∀ e', get (pickle := TinyPickle.instance) e' "k1" c'
            = get (pickle := TinyPickle.instance) e' "k1"
                DiskRuns.three_files.
Proof.
  destruct (disk_clear_key (pickle := TinyPickle.instance)
              (DiskRuns.refusing [_get_filename "k1"] 1) "k1"
              DiskRuns.three_files)
    as (c' & Hrun & _ & Hrefused & _).
  exists c'. split; [exact Hrun|]. apply Hrefused. simpl. left.
Defined.

Lemma disk_clear_all_witness :
  ∃ c',
    clear (DiskRuns.at_time 1 None) None DiskRuns.three_files = (Ret tt, c')
    ∧ cache_files (files c')
      = filter (λ x : string * file,
                  x.1 ∈ remove_refused (DiskRuns.at_time 1 None))
          (cache_files (files DiskRuns.three_files))
    ∧ (∀ e' key, _get_filename key ∉ remove_refused (DiskRuns.at_time 1 None) →
         get (pickle := TinyPickle.instance) e' key c' = (Ret PNone, c'))
    ∧ (∀ name,
         is_cache_file name = false
         ∨ name ∈ remove_refused (DiskRuns.at_time 1 None) →
         fs_lookup (files c') name
         = fs_lookup (files DiskRuns.three_files) name)
    ∧ (remove_refused (DiskRuns.at_time 1 None) = [] →
       cache_files (files c') = []).
Proof.
  apply (proj1 (disk_clear_all (pickle := TinyPickle.instance)
                  (DiskRuns.at_time 1 None) DiskRuns.three_files)).
  reflexivity.
Defined.

Lemma set_writes_one_file_witness :
  ∃ c',
    set (pickle := TinyPickle.instance) (DiskRuns.at_time 1 None) "j"
      (PInt 3) (DNum 100) (DiskRuns.empty_dir 2) = (Ret tt, c')
    ∧ fs_lookup (files c') (_get_filename "j")
      = Some {| readable := true; body := "I101;I3;" |}
    ∧ fs_lookup (files c') "tmpq3x9.__wp_cache" = None.
Proof.
  destruct (set_writes_one_file (pickle := TinyPickle.instance)
              (DiskRuns.at_time 1 None) "j" (PInt 3) (DNum 100)
              (DiskRuns.empty_dir 2)
              {| kw_now := 1; kw_duration := 100; kw_expiration := 101 |})
    as (c' & Hrun & Hfile & Htmp & _).
  - reflexivity.
  - reflexivity.
  - reflexivity.
  - exists c'. split; [exact Hrun|]. split; [exact Hfile|exact Htmp].
Defined.

Lemma transaction_files_stay_witness :
  ∃ c',
    set (pickle := TinyPickle.instance)
      (DiskRuns.at_time 1 (Some DumpValue)) "j" (PInt 3) (DNum 100)
      DiskRuns.three_files = (Ret tt, c')
    ∧ is_Some (fs_lookup (files c')
                 (tmp_name (DiskRuns.at_time 1 (Some DumpValue)))).
Proof.
  apply (proj1 (transaction_files_stay (pickle := TinyPickle.instance))
           (DiskRuns.at_time 1 (Some DumpValue)) "j" (PInt 3) (DNum 100)
           DiskRuns.three_files
           {| kw_now := 1; kw_duration := 100; kw_expiration := 101 |}
           DumpValue).
  - reflexivity.
  - reflexivity.
  - reflexivity.
  - discriminate.
  - discriminate.
Defined.

End DiskCacheBehaviour.

(** ** The remote backend *)

Module RedisCacheBehaviour.
Import RedisCache RedisCacheFacts RedisSpec.

#[local] Arguments _convert_duration_ : simpl never.
#[local] Arguments cache_setex : simpl never.
#[local] Arguments cache_delete : simpl never.
#[local] Arguments cache_keys : simpl never.
#[local] Arguments DiskCache.endswith : simpl never.
#[local] Arguments _load_obj : simpl never.
#[local] Arguments _dump_obj : simpl never.
#[local] Arguments String.append : simpl never.
#[local] Arguments glob_match : simpl never.
#[local] Arguments String.prefix : simpl never.

(** *** Patterns *)

Lemma glob_match_star s : glob_match "*" s = true.
Proof.
  induction s as [|c s IH]; [done|].
  change (glob_match "*" (String c s))
    with (glob_match "" (String c s) || glob_match "*" s).
  by rewrite IH, orb_true_r.
Qed.

Lemma glob_match_literal_cons c p s :
  literal_char c = true →
  glob_match (String c p) s
  = match s with
    | String d s' => Ascii.eqb c d && glob_match p s'
    | EmptyString => false
    end.
Proof.
  intros H.
  destruct c as [[] [] [] [] [] [] [] []];
    try (by vm_compute in H); reflexivity.
Qed.

(** for a prefix without pattern characters, [prefix*] matches the names
    that start with the prefix *)
Lemma glob_match_prefix p : ∀ s,
  literal p = true → glob_match (p +:+ "*") s = String.prefix p s.
Proof.
  induction p as [|c p IH]; intros s.
  - intros _. change ("" +:+ "*") with "*". rewrite glob_match_star.
    by destruct s.
  - cbn [literal]. intros [Hc Hp]%andb_true_iff.
    change (String c p +:+ "*") with (String c (p +:+ "*")).
    rewrite (glob_match_literal_cons c _ s Hc).
    destruct s as [|d s]; [done|].
    rewrite (IH s Hp).
    change (String.prefix (String c p) (String d s))
      with (match ascii_dec c d with
            | left _ => String.prefix p s
            | right _ => false
            end).
    destruct (ascii_dec c d) as [->|Hne].
    + by rewrite Ascii.eqb_refl.
    + apply Ascii.eqb_neq in Hne. by rewrite Hne.
Qed.

Lemma prefix_append p s : String.prefix p (p +:+ s) = true.
Proof.
  induction p as [|c p IH]; [by destruct s|].
  change (String c p +:+ s) with (String c (p +:+ s)).
  change (String.prefix (String c p) (String c (p +:+ s)))
    with (match ascii_dec c c with
          | left _ => String.prefix p (p +:+ s)
          | right _ => false
          end).
  by destruct (ascii_dec c c).
Qed.

(** *** The client commands *)

Lemma del_names_lookup rnow names : ∀ m k,
  (del_names rnow names m).2 !! k
  = if decide (k ∈ names) then None else m !! k.
Proof.
  induction names as [|n names IH]; intros m k.
  - done.
  - cbn [del_names]. specialize (IH (delete n m) k).
    destruct (del_names rnow names (delete n m)) as [j m'].
    simpl in *. rewrite IH.
    destruct (decide (k ∈ names)) as [Hin|Hnin].
    + rewrite decide_True; [done|]. by right.
    + destruct (decide (k = n)) as [->|Hne].
      * rewrite decide_True by left. apply lookup_delete_eq.
      * rewrite decide_False.
        { by rewrite lookup_delete_ne. }
        rewrite not_elem_of_cons. tauto.
Qed.

#[local] Arguments del_names : simpl never.

Lemma traverse_names strict ks :
  traverse (encode_arg strict) (map AName ks) = Ret ks.
Proof.
  induction ks as [|k ks IH]; [done|]. simpl. by rewrite IH.
Qed.

Lemma cache_delete_names e c k ks :
  ∃ n,
    cache_delete e (map AName (k :: ks)) c
    = (Ret n,
       with_cache (λ _, (del_names (rnow e) (k :: ks) (_cache c)).2) c).
Proof.
  unfold cache_delete. rewrite bind_run. unfold gets at 1.
  rewrite bind_run. unfold lift at 1. rewrite traverse_names.
  rewrite bind_run. unfold gets at 1.
  destruct (del_names (rnow e) (k :: ks) (_cache c)) as [n m'] eqn:Hd.
  exists n. by rewrite bind_run.
Qed.

Lemma cache_keys_run e pattern c :
  ∃ ks,
    cache_keys e pattern c = (Ret ks, c)
    ∧ ∀ k, k ∈ ks ↔ ∃ x, _cache c !! k = Some x
                         ∧ live (rnow e) x = true
                         ∧ glob_match pattern k = true.
Proof.
  unfold cache_keys, gets. eexists. split; [done|].
  intros k. rewrite list_elem_of_fmap. split.
  - intros ([k' x] & -> & Hin). apply elem_of_map_to_list in Hin.
    apply map_lookup_filter_Some in Hin as (Hk & Hl & Hg). eauto.
  - intros (x & Hk & Hl & Hg). exists (k, x). split; [done|].
    apply elem_of_map_to_list. by apply map_lookup_filter_Some.
Qed.

Section with_pickle.
Context {pickle : Pickle}.

(** [get] decodes what the store shows for the prefixed name *)
Lemma get_visible e key c :
  get e key c = (_load_obj (visible (rnow e) c (_prefix c +:+ key)), c).
Proof.
  unfold get. rewrite bind_run. unfold gets at 1.
  rewrite bind_run. unfold cache_get, gets. done.
Qed.

Lemma get_invisible e key c :
  visible (rnow e) c (_prefix c +:+ key) = None →
  get e key c = (Ret PNone, c).
Proof. intros Hv. by rewrite get_visible, Hv. Qed.

(** X17.  [clear(key)] on the remote backend, for a key whose prefixed
    name does not end with [*]: it deletes that one name, whatever the
    client's handling of arguments, and raises nothing; a [get] of the
    key is then a miss at any time, and a [get] of a key with another
    name gives what it gave before. *)
Theorem redis_clear_key e key c :
  DiskCache.endswith (_prefix c +:+ key) "*" = false →
  clear e (Some key) c
  = (Ret tt, with_cache (delete (_prefix c +:+ key)) c)
  ∧ (∀ e', eval (get e' key) (exec (clear e (Some key)) c) = Ret PNone)
  ∧ (∀ e' key',
       _prefix c +:+ key' ≠ _prefix c +:+ key →
       eval (get e' key') (exec (clear e (Some key)) c)
       = eval (get e' key') c).
Proof.
  intros Hw.
  assert (clear e (Some key) c
          = (Ret tt, with_cache (delete (_prefix c +:+ key)) c)) as Hrun.
  { unfold clear. rewrite bind_run. unfold gets at 1. simpl. rewrite Hw.
    rewrite bind_run.
    destruct (cache_delete_names e c (_prefix c +:+ key) []) as [n Hd].
    simpl in Hd. by rewrite Hd. }
  split; [exact Hrun|]. unfold exec. rewrite Hrun. simpl. split.
  - intros e'. unfold eval. rewrite get_invisible; [done|].
    unfold visible. simpl. by rewrite lookup_delete_eq.
  - intros e' key' Hne. unfold eval. rewrite !get_visible.
    unfold visible. simpl. by rewrite lookup_delete_ne.
Qed.

(** X18.  [clear()] on the remote backend.  Without a prefix it flushes
    the whole database.  With a prefix that has no pattern character it
    raises nothing and deletes the live names that start with the prefix
    and no other: what the store shows for a name is nothing when the
    name starts with the prefix and what it showed before otherwise; a
    [get] through this handler is then a miss from that time on. *)
Theorem redis_clear_all e c :
  (_prefix c = "" → clear e None c = (Ret tt, with_cache (λ _, ∅) c))
  ∧ (_prefix c ≠ "" → literal (_prefix c) = true →
     ∃ c',
       clear e None c = (Ret tt, c')
       ∧ _prefix c' = _prefix c
       ∧ (∀ name,
            visible (rnow e) c' name
            = if String.prefix (_prefix c) name then None
              else visible (rnow e) c name)
       ∧ (∀ e' key, (rnow e ≤ rnow e')%Z →
            eval (get e' key) c' = Ret PNone)).
Proof.
  split.
  - intros Hp. unfold clear. rewrite bind_run. unfold gets at 1. simpl.
    by rewrite Hp.
  - intros Hp Hlit.
    destruct (cache_keys_run e (_prefix c +:+ "*") c) as (ks & Hks & Hin).
    assert (∃ c',
              clear e None c = (Ret tt, c')
              ∧ _prefix c' = _prefix c
              ∧ ∀ name, _cache c' !! name
                        = if decide (name ∈ ks) then None
                          else _cache c !! name)
      as (c' & Hrun & Hpfx & Hlook).
    { unfold clear. rewrite bind_run. unfold gets at 1. simpl.
      destruct (_prefix c) as [|a p] eqn:Hpc; [done|].
      rewrite bind_run, Hks. destruct ks as [|k ks].
      - exists c. split; [done|]. split; [done|]. intros name.
        rewrite decide_False; [done|]. apply not_elem_of_nil.
      - rewrite bind_run.
        destruct (cache_delete_names e c k ks) as [n ->].
        eexists. split; [done|]. split; [done|]. intros name.
        simpl. apply del_names_lookup. }
    exists c'. split; [done|]. split; [done|].
    assert (∀ name,
              visible (rnow e) c' name
              = if String.prefix (_prefix c) name then None
                else visible (rnow e) c name) as Hvis.
    { intros name. unfold visible. rewrite Hlook.
      rewrite <- (glob_match_prefix (_prefix c) name Hlit).
      destruct (decide (name ∈ ks)) as [Hk|Hk].
      - apply Hin in Hk as (x & -> & Hl & ->). done.
      - destruct (_cache c !! name) as [x|] eqn:Hx;
          [|by destruct (glob_match _ name)].
        destruct (live (rnow e) x) eqn:Hl;
          [|by destruct (glob_match _ name)].
        destruct (glob_match (_prefix c +:+ "*") name) eqn:Hg; [|done].
        destruct Hk. apply Hin. eauto. }
    split; [done|].
    intros e' key Hle. unfold eval. rewrite get_invisible; [done|].
    rewrite Hpfx.
    specialize (Hvis (_prefix c +:+ key)). rewrite prefix_append in Hvis.
    unfold visible in *.
    destruct (_cache c' !! (_prefix c +:+ key)) as [x|]; [|done].
    unfold live in *.
    destruct (Z.ltb_spec (rnow e) (expires_at x)); [done|].
    by destruct (Z.ltb_spec (rnow e') (expires_at x)); [lia|].
Qed.

End with_pickle.

Lemma redis_clear_key_witness :
  clear (RedisRuns.at_time 1) (Some "a1")
    (RedisRuns.three_keys true)
  = (Ret tt,
     with_cache (delete (_prefix (RedisRuns.three_keys true) +:+ "a1"))
       (RedisRuns.three_keys true)).
Proof.
  apply (redis_clear_key (pickle := TinyPickle.instance)
           (RedisRuns.at_time 1) "a1" (RedisRuns.three_keys true)).
  vm_compute. reflexivity.
Defined.

Lemma redis_clear_all_witness :
  ∃ c',
    clear (RedisRuns.at_time 1) None
      (RedisRuns.three_keys true) = (Ret tt, c')
    ∧ _prefix c' = _prefix (RedisRuns.three_keys true)
    ∧ (∀ name,
         visible (rnow (RedisRuns.at_time 1)) c' name
         = if String.prefix (_prefix (RedisRuns.three_keys true)) name
           then None
           else visible (rnow (RedisRuns.at_time 1))
                  (RedisRuns.three_keys true) name)
    ∧ (∀ e' key, (rnow (RedisRuns.at_time 1) ≤ rnow e')%Z →
         eval (get (pickle := TinyPickle.instance) e' key) c' = Ret PNone).
Proof.
  apply (proj2 (redis_clear_all (pickle := TinyPickle.instance)
                  (RedisRuns.at_time 1) (RedisRuns.three_keys true))).
  - vm_compute. discriminate.
  - vm_compute. reflexivity.
Defined.

End RedisCacheBehaviour.

(** ** The fingerprint builder and the route rule *)

Module CacheHashMixinBehaviour.
Import CacheHashMixinFacts CacheDecoratorBehaviour.

#[local] Arguments sha1_hexdigest : simpl never.
#[local] Arguments dict_strategy : simpl never.
#[local] Arguments headers_strategy : simpl never.
#[local] Arguments _hash_component : simpl never.

Lemma dict_getitem_missing {V} (d : list (string * V)) k :
  k ∉ d.*1 → dict_getitem d k = Raise KeyError.
Proof.
  intros Hk. destruct (dict_getitem d k) as [v|e] eqn:Hd.
  - apply dict_getitem_Ret in Hd. destruct Hk.
    apply list_elem_of_fmap. by exists (k, v).
  - by apply dict_getitem_Raise in Hd as [-> _].
Qed.

Lemma _components_missing ss data :
  (∃ k, k ∈ ss.*1 ∧ k ∉ data.*1) → ∃ e, _components ss data = Raise e.
Proof.
  induction ss as [|[k0 st] ss IH]; intros (k & Hin & Hk).
  { by apply not_elem_of_nil in Hin. }
  simpl. destruct (dict_getitem data k0) as [v|e] eqn:Hd; simpl;
    [|by eauto].
  destruct (st v) as [c|e]; simpl; [|by eauto].
  destruct IH as [e ->]; [|by eauto].
  exists k. split; [|done]. simpl in Hin.
  apply elem_of_cons in Hin as [->|Hin]; [|done].
  rewrite (dict_getitem_missing data k0 Hk) in Hd. done.
Qed.

Lemma _components_total ss data :
  (∀ k st, (k, st) ∈ ss →
     ∃ v c, dict_getitem data k = Ret v ∧ st v = Ret c) →
  ∃ cs, _components ss data = Ret cs.
Proof.
  induction ss as [|[k0 st] ss IH]; intros Hall; simpl; [by eauto|].
  destruct (Hall k0 st) as (v & c & -> & Hc); [left|]. simpl.
  rewrite Hc. simpl. destruct IH as [cs ->]; [|by eauto].
  intros k st' Hin. apply Hall. by right.
Qed.

(** X19.  What [_build_hash] takes from the context.  Entries of the
    context under names that are not registered are ignored: two
    contexts that agree on the registered names give the same result.
    When a registered name is missing from the context [_build_hash]
    raises.  When every registered name is there and its canonicaliser
    accepts the value, [_build_hash] returns a digest. *)
Theorem _build_hash_context ss data :
  (∀ data',
     (∀ k, k ∈ ss.*1 → dict_getitem data k = dict_getitem data' k) →
     _build_hash ss data = _build_hash ss data')
  ∧ ((∃ k, k ∈ ss.*1 ∧ k ∉ data.*1) → ∃ e, _build_hash ss data = Raise e)
  ∧ ((∀ k st, (k, st) ∈ ss →
        ∃ v c, dict_getitem data k = Ret v ∧ st v = Ret c) →
     ∃ h, _build_hash ss data = Ret h).
Proof.
  split; [|split].
  - intros data' Hag. unfold _build_hash, _hash_input.
    by rewrite (_components_agree ss data data' Hag).
  - intros Hmiss. unfold _build_hash, _hash_input.
    destruct (_components_missing ss data Hmiss) as [e ->]. by eauto.
  - intros Hall. unfold _build_hash, _hash_input.
    destruct (_components_total ss data Hall) as [cs ->]. by eauto.
Qed.

Lemma _build_hash_context_witness :
  _build_hash CacheDecorator_strategies
    [("args", PTuple [PInt 1]); ("kwargs", PDict [("x", PInt 1)])]
  = _build_hash CacheDecorator_strategies
      [("user", PStr "ann"); ("kwargs", PDict [("x", PInt 1)]);
       ("args", PTuple [PInt 1])].
Proof.
  apply (proj1 (_build_hash_context CacheDecorator_strategies
                  [("args", PTuple [PInt 1]);
                   ("kwargs", PDict [("x", PInt 1)])])).
  intros k Hk. vm_compute in Hk.
  apply elem_of_cons in Hk as [->|Hk]; [reflexivity|].
  apply elem_of_cons in Hk as [->|Hk]; [reflexivity|].
  by apply not_elem_of_nil in Hk.
Defined.

End CacheHashMixinBehaviour.

Module RouteCacheRuleBehaviour.
Import CacheHashMixinFacts CacheDecoratorBehaviour CacheHashMixinBehaviour.
Import RouteCacheRule MoreRuns.

#[local] Arguments sha1_hexdigest : simpl never.
#[local] Arguments dict_strategy : simpl never.
#[local] Arguments headers_strategy : simpl never.
#[local] Arguments _hash_component : simpl never.

Ltac case_results :=
  repeat match goal with
         | |- context [dict_strategy ?x] =>
             destruct (dict_strategy x); simpl
         | |- context [headers_strategy ?l ?x] =>
             destruct (headers_strategy l x); simpl
         end.

(** the components of a rule built by [__init__], on the context built
    by [_build_ctx] *)
Lemma _components_rule qp lang host hs d kwargs route current :
  _components (strategies (init qp lang host hs d))
    (_build_ctx (init qp lang host hs d) kwargs route current)
  = traverse (λ kr, c ← kr.2; Ret (_hash_component kr.1 c))
      (components qp lang host hs kwargs route current).
Proof.
  destruct qp, lang, host, hs as [|h0 hs]; simpl; unfold identity;
    case_results; reflexivity.
Qed.

Lemma traverse_ext_in {A B} (f g : A → res B) l :
  (∀ x, x ∈ l → f x = g x) → traverse f l = traverse g l.
Proof.
  induction l as [|x l IH]; intros Hfg; [done|]. simpl.
  rewrite (Hfg x) by left. rewrite IH; [done|].
  intros y Hy. apply Hfg. by right.
Qed.

(** [headers_strategy] reads the checked headers only *)
Lemma headers_strategy_agree hs h1 h2 :
  (∀ x, x ∈ hs → dict_getitem h1 x = dict_getitem h2 x) →
  headers_strategy hs (PDict h1) = headers_strategy hs (PDict h2).
Proof.
  intros Hag. unfold headers_strategy.
  by rewrite (traverse_ext_in (dict_getitem h1) (dict_getitem h2) hs Hag).
Qed.

Lemma headers_strategy_total hs h :
  (∀ x, x ∈ hs → x ∈ h.*1) →
  ∃ l, headers_strategy hs (PDict h) = Ret (PList l).
Proof.
  intros Hall. unfold headers_strategy.
  destruct (traverse_total (dict_getitem h) hs) as [l ->]; [|by eauto].
  intros x Hx. by apply dict_getitem_total, Hall.
Qed.

Lemma headers_strategy_missing hs h :
  (∃ x, x ∈ hs ∧ x ∉ h.*1) →
  headers_strategy hs (PDict h) = Raise KeyError.
Proof.
  intros Hmiss. unfold headers_strategy.
  assert (traverse (dict_getitem h) hs = Raise KeyError) as ->; [|done].
  induction hs as [|a hs IH].
  { destruct Hmiss as (x & Hx & _). by apply not_elem_of_nil in Hx. }
  simpl. destruct (decide (a ∈ h.*1)) as [Ha|Ha].
  - destruct (dict_getitem_total h a Ha) as [v ->]. simpl.
    rewrite IH; [done|]. destruct Hmiss as (x & Hx & Hnx).
    exists x. split; [|done].
    apply elem_of_cons in Hx as [->|Hx]; done.
  - by rewrite (dict_getitem_missing h a Ha).
Qed.

(** X20.  The key of a cached route depends on the enabled components
    only.  For a rule built with any choice of the flags and of the
    checked headers, two requests give the same key when the routes have
    the same name, the route arguments are the same mapping (in whatever
    order), and they agree on what is enabled: the host name if
    [hostname], the language if [language], the query parameters (in
    whatever order) if [query_params], and the value of each checked
    header.  What is not enabled, and every header that is not checked,
    has no influence on the key. *)
Theorem route_key_depends_on_enabled qp lang host hs d kw1 kw2
    route1 route2 l1 l2 q1 q2 h1 h2 :
  let rule := init qp lang host hs d in
  let cur1 := {| language := l1;
                 request := {| query_params := PDict q1;
                               headers := PDict h1 |} |} in
  let cur2 := {| language := l2;
                 request := {| query_params := PDict q2;
                               headers := PDict h2 |} |} in
  name route1 = name route2 →
  NoDup kw1.*1 → kw1 ≡ₚ kw2 →
  (host = true → hostname route1 = hostname route2) →
  (lang = true → l1 = l2) →
  (qp = true → NoDup q1.*1 ∧ q1 ≡ₚ q2) →
  (∀ x, x ∈ hs → dict_getitem h1 x = dict_getitem h2 x) →
  _build_ctx_key rule route1 (_build_ctx rule (PDict kw1) route1 cur1)
  = _build_ctx_key rule route2 (_build_ctx rule (PDict kw2) route2 cur2).
Proof.
  intros rule cur1 cur2 Hname Hnd Hperm Hhost Hlang Hqp Hhs.
  unfold _build_ctx_key, _build_hash, _hash_input, rule.
  rewrite !_components_rule, Hname.
  assert (components qp lang host hs (PDict kw1) route1 cur1
          = components qp lang host hs (PDict kw2) route2 cur2) as ->;
    [|done].
  unfold components, cur1, cur2. simpl.
  rewrite (dict_strategy_perm kw1 kw2 Hnd Hperm).
  f_equal. f_equal; [destruct host; [by rewrite Hhost|done]|].
  f_equal; [destruct lang; [by rewrite Hlang|done]|].
  f_equal.
  - destruct qp; [|done]. destruct Hqp as [Hq1 Hqperm]; [done|].
    by rewrite (dict_strategy_perm q1 q2 Hq1 Hqperm).
  - destruct hs as [|h0 hs]; [done|].
    by rewrite (headers_strategy_agree (h0 :: hs) h1 h2 Hhs).
Qed.

Lemma route_key_depends_on_enabled_witness :
  _build_ctx_key response_default route_a
    (_build_ctx response_default (PDict [("id", PInt 7)]) route_a request_a)
  = _build_ctx_key response_default route_b
      (_build_ctx response_default (PDict [("id", PInt 7)]) route_b
         request_b).
Proof.
  apply (route_key_depends_on_enabled true true false [] (DStr "default")
           [("id", PInt 7)] [("id", PInt 7)] route_a route_b
           (PStr "en") (PStr "en")
           [("page", PStr "2"); ("q", PStr "x")]
           [("q", PStr "x"); ("page", PStr "2")]
           [("accept", PStr "text/html")] [("accept", PStr "*/*")]).
  - reflexivity.
  - apply (bool_decide_unpack _). vm_compute. reflexivity.
  - reflexivity.
  - discriminate.
  - reflexivity.
  - intros _. split.
    + apply (bool_decide_unpack _). vm_compute. reflexivity.
    + apply Permutation_swap.
  - intros x Hx. by apply not_elem_of_nil in Hx.
Defined.

(** X21.  When the key of a cached route is defined.  For a rule built
    with any choice of the flags, on a request whose route arguments,
    query parameters and headers are mappings: the context [_build_ctx]
    builds has an entry for each registered component, and the key is
    computed without raising when every checked header is among the
    headers of the request; when a checked header is missing the
    computation raises [KeyError]. *)
Theorem route_key_defined qp lang host hs d kw route l q h :
  let rule := init qp lang host hs d in
  let cur := {| language := l;
                request := {| query_params := PDict q;
                              headers := PDict h |} |} in
  ((∀ x, x ∈ hs → x ∈ h.*1) →
   ∃ k, _build_ctx_key rule route (_build_ctx rule (PDict kw) route cur)
        = Ret k)
  ∧ ((∃ x, x ∈ hs ∧ x ∉ h.*1) →
     _build_ctx_key rule route (_build_ctx rule (PDict kw) route cur)
     = Raise KeyError).
Proof.
  intros rule cur.
  unfold _build_ctx_key, _build_hash, _hash_input, rule.
  rewrite !_components_rule. unfold components, cur. simpl.
  destruct (dict_strategy_total kw) as [lk ->].
  destruct (dict_strategy_total q) as [lq ->]. simpl.
  split.
  - intros Hall. destruct hs as [|h0 hs].
    + destruct host, lang, qp; simpl; by eauto.
    + destruct (headers_strategy_total (h0 :: hs) h Hall) as [lh ->].
      destruct host, lang, qp; simpl; by eauto.
  - intros Hmiss. destruct hs as [|h0 hs].
    + destruct Hmiss as (x & Hx & _). by apply not_elem_of_nil in Hx.
    + rewrite (headers_strategy_missing (h0 :: hs) h Hmiss).
      by destruct host, lang, qp.
Qed.

Lemma route_key_defined_witness :
  ∃ k,
    _build_ctx_key (init true true false ["accept"] (DStr "default")) route_a
      (_build_ctx (init true true false ["accept"] (DStr "default"))
         (PDict [("id", PInt 7)]) route_a request_a)
    = Ret k.
Proof.
  apply (proj1 (route_key_defined true true false ["accept"]
                  (DStr "default") [("id", PInt 7)] route_a (PStr "en")
                  [("page", PStr "2"); ("q", PStr "x")]
                  [("accept", PStr "text/html")])).
  intros x Hx. apply list_elem_of_singleton in Hx as ->.
  vm_compute. left.
Defined.

End RouteCacheRuleBehaviour.

(** ** Canonical form of a mapping, and durations below zero *)

Module MoreBehaviour.
Import CacheHashMixinFacts CacheDecoratorBehaviour.

#[local] Arguments _convert_duration_ : simpl never.
#[local] Arguments sha1_hexdigest : simpl never.
#[local] Arguments DiskCache.fs_lookup : simpl never.
#[local] Arguments pickle_load : simpl never.
#[local] Arguments pickle_dumps : simpl never.
#[local] Arguments String.append : simpl never.

Lemma traverse_items (d : list (string * pyobj)) ks :
  (∀ k, k ∈ ks → k ∈ d.*1) →
  ∃ items,
    traverse (λ key, v ← dict_getitem d key; Ret (PTuple [PStr key; v])) ks
    = Ret items
    ∧ Forall2 (λ k item, ∃ v, dict_getitem d k = Ret v
                              ∧ item = PTuple [PStr k; v]) ks items.
Proof.
  induction ks as [|k ks IH]; intros Hin; simpl.
  { exists []. by split. }
  destruct (dict_getitem_total d k) as [v Hv]; [apply Hin; left|].
  rewrite Hv. simpl.
  destruct IH as (items & -> & Hall).
  { intros k' Hk'. apply Hin. by right. }
  simpl. eexists. split; [done|]. constructor; [by eauto|done].
Qed.

(** X22.  The canonical form [dict_strategy] gives a mapping: whatever
    the mapping, it returns a list with one pair [(key, value)] for each
    key, the keys in increasing order. *)
Theorem dict_strategy_canonical d :
  ∃ items,
    dict_strategy (PDict d) = Ret (PList items)
    ∧ Forall2 (λ k item, ∃ v, dict_getitem d k = Ret v
                              ∧ item = PTuple [PStr k; v])
        (sorted d.*1) items
    ∧ Sorted String.le (sorted d.*1)
    ∧ sorted d.*1 ≡ₚ d.*1.
Proof.
  destruct (traverse_items d (sorted d.*1)) as (items & Hrun & Hall).
  { intros k Hk. unfold sorted in Hk.
    by rewrite merge_sort_Permutation in Hk. }
  exists items. unfold dict_strategy. rewrite Hrun.
  split; [done|]. split; [done|]. unfold sorted. split.
  - apply Sorted_merge_sort, _.
  - apply merge_sort_Permutation.
Qed.

(** X23.  A duration below zero.  An entry stored with a negative
    duration has expired when it is stored: on the memory backend, and
    on the disk backend when the write meets no fault and the header
    reads back, every [get] of the key from the time of the [set] on is
    a miss. *)
Theorem negative_duration_is_a_miss {pickle : Pickle} :
  (∀ key val d now pnow c c' now',
     RamCache.set key val (DNum d) now pnow c = (Ret tt, c') →
     (d < 0)%Z → (now ≤ now')%Z →
     RamCache.get key now' c' = (Ret PNone, c'))
  ∧ (∀ e e' key val d c rest,
       DiskCache.listdir_ok e = true → DiskCache.fault e = None →
       (d < 0)%Z → (DiskCache.now e ≤ DiskCache.now e')%Z →
       pickle_load (pickle_dumps (Protocol 1) (PInt (DiskCache.now e + d))
                    +:+ pickle_dumps HIGHEST_PROTOCOL val)
       = Ret (PInt (DiskCache.now e + d), rest) →
       eval (DiskCache.get e' key) (exec (DiskCache.set e key val (DNum d)) c)
       = Ret PNone).
Proof.
  split.
  - intros key val d now pnow c c' now' Hset Hd Hnow.
    destruct (RamCacheBehaviour.set_result key val (DNum d) now pnow c c'
                {| kw_now := now; kw_duration := d;
                   kw_expiration := now + d |} Hset eq_refl)
      as ((Hpfx & _ & _) & Hk & _).
    eapply RamCacheBehaviour.get_expired.
    + rewrite Hpfx. exact Hk.
    + simpl. lia.
  - intros e e' key val d c rest Hok Hf Hd Hnow Hload.
    destruct (DiskCacheFacts._prune_returns e c Hok) as (cp & Hp & _).
    destruct (DiskCacheFacts.write_sequence_ok e (DiskCache._get_filename key)
                val {| kw_now := DiskCache.now e; kw_duration := d;
                       kw_expiration := DiskCache.now e + d |} cp Hf)
      as (c' & Hrun & _ & _ & Hfile).
    unfold exec, eval.
    rewrite (DiskCacheFacts.set_unfold e key val (DNum d) c
               {| kw_now := DiskCache.now e; kw_duration := d;
                  kw_expiration := DiskCache.now e + d |} cp eq_refl Hp).
    rewrite (DiskCacheFacts.try_except_Ret _ _ _ _ _ Hrun). simpl.
    rewrite DiskCacheFacts.get_no_value; [done|].
    unfold DiskCache.no_value. rewrite Hfile. simpl in *.
    right. right. exists (PInt (DiskCache.now e + d)), rest.
    split; [exact Hload|]. right. left.
    exists (DiskCache.now e + d)%Z. split; [done|]. lia.
Qed.

Lemma negative_duration_is_a_miss_witness :
  RamCache.get "a" 5
    (exec (RamCache.set "a" (PInt 1) (DNum (-1)) 5 5)
       (RamCache.init "" 500 300))
  = (Ret PNone,
     exec (RamCache.set "a" (PInt 1) (DNum (-1)) 5 5)
       (RamCache.init "" 500 300)).
Proof.
  apply (proj1 (negative_duration_is_a_miss (pickle := TinyPickle.instance))
           "a" (PInt 1) (-1)%Z 5%Z 5%Z (RamCache.init "" 500 300)).
  - vm_compute. reflexivity.
  - lia.
  - lia.
Defined.

End MoreBehaviour.
